(** * Minimum edge cover: a shallow embedding of graph.hpp and main.cpp

    The repository holds two implementations of the same idea: class
    [MinEdgeCover] in graph.hpp (greedy matching, a breadth-first
    improvement loop, then completion of the cover) and class [Graph] in
    main.cpp (Kuhn's depth-first matching, then completion of the cover).

    Conventions of the embedding.
    - A C++ [int] is a [Z].  The only arithmetic the code performs on an
      [int] is the increment [i++] of a loop counter below its bound, so no
      operation wraps; the one conversion that does wrap, from [int] to
      [size_t] when a vector is created, is written out in [size_t_of_int].
    - A [std::vector<T>] is a [list T].  [operator[]] is unchecked in C++;
      the embedding makes every access explicit: reading or writing outside
      the vector yields [Err OutOfBounds].
    - Loops over a container or a counter are folds; [while] loops and the
      recursive search take a fuel argument and yield [Err OutOfFuel] when it
      runs out.
    - A thrown exception is an [Err] value. *)

From stdpp Require Import base numbers list strings.

Local Open Scope Z_scope.

(** ** Results and errors *)

Inductive error : Type :=
  | OutOfBounds                      (* unchecked access outside a vector *)
  | OutOfFuel                        (* the fuel of a loop ran out *)
  | InvalidArgument (what : string)  (* std::invalid_argument *)
  | LengthError.                     (* std::length_error of a vector *)

Inductive res (A : Type) : Type :=
  | Ok (a : A)
  | Err (e : error).

Arguments Ok {A} a.
Arguments Err {A} e.

Definition bind {A B : Type} (c : res A) (k : A -> res B) : res B :=
  match c with
  | Ok a => k a
  | Err e => Err e
  end.

Notation "'let*' x ':=' c1 'in' c2" := (bind c1 (fun x => c2))
  (at level 10, x name, c1 at level 100, c2 at level 200,
   format "'[v' 'let*'  x  ':='  c1  'in' '/' c2 ']'").

(** A range-based [for] whose body may fail. *)
Fixpoint foldM {A S : Type} (f : S -> A -> res S) (l : list A) (s : S) : res S :=
  match l with
  | [] => Ok s
  | a :: l' => let* s' := f s a in foldM f l' s'
  end.

(** ** Vectors *)

Definition size_t_of_int (i : Z) : Z := i mod 2 ^ 64.

Definition PTRDIFF_MAX : Z := 2 ^ 63 - 1.

(** [std::vector<T> x(count, value)] and [x.resize(count)] on an empty
    vector, with an [int] count.  The count is converted to [size_t]; a
    [std::vector<int>] or [std::vector<std::vector<int>>] cannot hold more
    than [max_size()] elements, which is at most [PTRDIFF_MAX], and the
    library throws [std::length_error] when asked for more.  A negative count
    converts to at least [2^64 - 2^31] and is always refused.

    The same definition stands for [std::vector<bool> x(count, false)] with
    [0 <= count].  The bit vector of libstdc++ makes no length check, and
    what it builds from a negative count depends on the allocator, so a
    negative count of a bit vector lies outside the embedding.  The program
    takes the count of its bit vectors from a graph that was constructed,
    where it is not negative, except in the static [isEdgeCover], whose [n]
    is the caller's: every result on [isEdgeCover] below is stated for
    [0 <= n].  Running out of memory is not modelled for any vector. *)
Definition vector_make {A : Type} (count : Z) (value : A) : res (list A) :=
  let c := size_t_of_int count in
  if PTRDIFF_MAX <? c then Err LengthError
  else Ok (replicate (Z.to_nat c) value).

(** The element at an [int] index, if there is one. *)
Definition zlookup {A : Type} (l : list A) (i : Z) : option A :=
  if i <? 0 then None else l !! Z.to_nat i.

(** [x[i]] as an rvalue. *)
Definition vget {A : Type} (l : list A) (i : Z) : res A :=
  match zlookup l i with
  | Some x => Ok x
  | None => Err OutOfBounds
  end.

(** [x[i] = y]. *)
Definition vset {A : Type} (l : list A) (i : Z) (y : A) : res (list A) :=
  match zlookup l i with
  | Some _ => Ok (<[Z.to_nat i := y]> l)
  | None => Err OutOfBounds
  end.

(** The values [0, 1, ..., n-1] of the counter of [for (int i = 0; i < n; i++)]. *)
Definition upto (n : Z) : list Z := seqZ 0 n.

(** ** graph.hpp *)

Module GraphHpp.

(** [struct Edge]; [eu] and [ev] are its fields [u] and [v]. *)
Record Edge : Type := mkEdge { eu : Z; ev : Z }.

(** [Edge::operator==]: undirected equality. *)
Definition Edge_eq (a b : Edge) : bool :=
  ((eu a =? eu b) && (ev a =? ev b)) || ((eu a =? ev b) && (ev a =? eu b)).

Record MinEdgeCover : Type := mkMinEdgeCover {
  n : Z;
  edges : list Edge;
  adj : list (list Z)
}.

(** *** Constructor *)

(** The body of [for (const auto& e : edges)] in the constructor: the range
    test, then [adj[e.u].push_back(e.v); adj[e.v].push_back(e.u);]. *)
Definition add_adjacency (vertices : Z) (a : list (list Z)) (e : Edge)
  : res (list (list Z)) :=
  if (eu e <? 0) || (eu e >=? vertices) || (ev e <? 0) || (ev e >=? vertices)
  then Err (InvalidArgument "Invalid vertex index")
  else
    let* au := vget a (eu e) in
    let* a1 := vset a (eu e) (au ++ [ev e]) in
    let* av := vget a1 (ev e) in
    vset a1 (ev e) (av ++ [eu e]).

(** The body of [for (int i = 0; i < n; i++)] in the constructor:
    [if (adj[i].empty()) throw ...]. *)
Definition check_not_isolated (a : list (list Z)) (_ : unit) (i : Z) : res unit :=
  let* ai := vget a i in
  match ai with
  | [] => Err (InvalidArgument
            "Graph contains isolated vertices - edge cover impossible")
  | _ :: _ => Ok tt
  end.

(** The member initialisers [n(vertices), edges(edgeList), adj(vertices)]
    run before the body of the constructor, so [adj(vertices)] is built
    before [vertices <= 0] is tested. *)
Definition construct (vertices : Z) (edgeList : list Edge) : res MinEdgeCover :=
  let* adj0 := vector_make vertices ([] : list Z) in
  if vertices <=? 0
  then Err (InvalidArgument "Number of vertices must be positive")
  else
    let* adj1 := foldM (add_adjacency vertices) edgeList adj0 in
    let* _ := foldM (check_not_isolated adj1) (upto vertices) tt in
    Ok (mkMinEdgeCover vertices edgeList adj1).

(** *** findMaxMatching: the greedy seed *)

Record greedy_state : Type := mkGreedy {
  g_match : list Z;
  g_used : list bool;
  g_matching : list Edge
}.

(** The body of the greedy loop.  [!used[e.u] && !used[e.v]] reads
    [used[e.v]] only when [used[e.u]] is false; in
    [used[e.u] = used[e.v] = true] the right-hand assignment comes first. *)
Definition greedy_step (st : greedy_state) (e : Edge) : res greedy_state :=
  let* used_u := vget (g_used st) (eu e) in
  if used_u then Ok st
  else
    let* used_v := vget (g_used st) (ev e) in
    if used_v then Ok st
    else
      let* m1 := vset (g_match st) (eu e) (ev e) in
      let* m2 := vset m1 (ev e) (eu e) in
      let* u1 := vset (g_used st) (ev e) true in
      let* u2 := vset u1 (eu e) true in
      Ok (mkGreedy m2 u2 (g_matching st ++ [e])).

Definition greedy (g : MinEdgeCover) : res greedy_state :=
  let* match0 := vector_make (n g) (-1) in
  let* used0 := vector_make (n g) false in
  foldM greedy_step (edges g) (mkGreedy match0 used0 []).

(** *** findMaxMatching: one breadth-first phase *)

Record bfs_state : Type := mkBfs {
  parent : list Z;
  visited : list bool;
  q : list Z;          (* front of the queue first *)
  pathEnd : Z
}.

(** [for (int i = 0; i < n; i++) if (match[i] == -1) { q.push(i); visited[i] = true; }] *)
Definition bfs_root (match_ : list Z) (st : bfs_state) (i : Z) : res bfs_state :=
  let* mi := vget match_ i in
  if mi =? -1
  then
    let* vis := vset (visited st) i true in
    Ok (mkBfs (parent st) vis (q st ++ [i]) (pathEnd st))
  else Ok st.

Definition bfs_init (g : MinEdgeCover) (match_ : list Z) : res bfs_state :=
  let* parent0 := vector_make (n g) (-1) in
  let* visited0 := vector_make (n g) false in
  foldM (bfs_root match_) (upto (n g)) (mkBfs parent0 visited0 [] (-1)).

(** [for (int v : adj[u]) { ... }], with its [break]. *)
Fixpoint bfs_neighbours (match_ : list Z) (u : Z) (vs : list Z) (st : bfs_state)
  : res bfs_state :=
  match vs with
  | [] => Ok st
  | v :: vs' =>
      let* seen := vget (visited st) v in
      if seen then bfs_neighbours match_ u vs' st
      else
        let* vis1 := vset (visited st) v true in
        let* par1 := vset (parent st) v u in
        let* mv := vget match_ v in
        if mv =? -1
        then Ok (mkBfs par1 vis1 (q st) v)
        else
          let* vis2 := vset vis1 mv true in
          let* par2 := vset par1 mv v in
          bfs_neighbours match_ u vs' (mkBfs par2 vis2 (q st ++ [mv]) (pathEnd st))
  end.

(** [while (!q.empty() && pathEnd == -1) { ... }] *)
Fixpoint bfs_while (fuel : nat) (g : MinEdgeCover) (match_ : list Z)
    (st : bfs_state) : res bfs_state :=
  match fuel with
  | O => Err OutOfFuel
  | S fuel' =>
      match q st with
      | [] => Ok st
      | u :: q' =>
          if pathEnd st =? -1
          then
            let* adj_u := vget (adj g) u in
            let* st' := bfs_neighbours match_ u adj_u
                     (mkBfs (parent st) (visited st) q' (pathEnd st)) in
            bfs_while fuel' g match_ st'
          else Ok st
      end
  end.

(** *** findMaxMatching: augmenting along the parent chain *)

(** [while (parent[v] != -1) { ... }] *)
Fixpoint augment (fuel : nat) (parent : list Z) (match_ : list Z) (v : Z)
  : res (list Z) :=
  match fuel with
  | O => Err OutOfFuel
  | S fuel' =>
      let* pv := vget parent v in
      if pv =? -1 then Ok match_
      else
        let u := pv in
        let* prev := vget parent u in
        let* m1 := vset match_ v u in
        let* m2 := vset m1 u v in
        augment fuel' parent m2 prev
  end.

(** The body of the loop that rebuilds [matching] from [match]. *)
Definition rebuild_step (match_ : list Z) (matching : list Edge) (i : Z)
  : res (list Edge) :=
  let* mi := vget match_ i in
  if negb (mi =? -1) && (i <? mi)
  then Ok (matching ++ [mkEdge i mi])
  else Ok matching.

Definition rebuild (g : MinEdgeCover) (match_ : list Z) : res (list Edge) :=
  foldM (rebuild_step match_) (upto (n g)) [].

(** *** findMaxMatching: the improvement loop *)

(** [while (improved) { ... }].  [fuel0] is the budget handed to each inner
    [while] loop. *)
Fixpoint improve (fuel0 fuel : nat) (g : MinEdgeCover) (improved : bool)
    (match_ : list Z) (matching : list Edge) : res (list Edge) :=
  match fuel with
  | O => Err OutOfFuel
  | S fuel' =>
      if improved
      then
        let* st0 := bfs_init g match_ in
        let* st := bfs_while fuel0 g match_ st0 in
        if negb (pathEnd st =? -1)
        then
          let* match' := augment fuel0 (parent st) match_ (pathEnd st) in
          let* matching' := rebuild g match' in
          improve fuel0 fuel' g true match' matching'
        else improve fuel0 fuel' g false match_ matching
      else Ok matching
  end.

Definition findMaxMatching (fuel : nat) (g : MinEdgeCover) : res (list Edge) :=
  let* st := greedy g in
  improve fuel fuel g true (g_match st) (g_matching st).

(** *** solve *)

(** [covered[e.u] = true; covered[e.v] = true;] *)
Definition mark_covered (covered : list bool) (e : Edge) : res (list bool) :=
  let* c1 := vset covered (eu e) true in
  vset c1 (ev e) true.

(** [for (const auto& e : edges) if (e.u == i || e.v == i) { ...; break; }] *)
Fixpoint cover_vertex (i : Z) (es : list Edge) (result : list Edge)
    (covered : list bool) : res (list Edge * list bool) :=
  match es with
  | [] => Ok (result, covered)
  | e :: es' =>
      if (eu e =? i) || (ev e =? i)
      then
        let* c1 := vset covered i true in
        let* c2 := vset c1 (eu e) true in
        let* c3 := vset c2 (ev e) true in
        Ok (result ++ [e], c3)
      else cover_vertex i es' result covered
  end.

(** The body of [for (int i = 0; i < n; i++)] in [solve]. *)
Definition complete_step (g : MinEdgeCover) (st : list Edge * list bool) (i : Z)
  : res (list Edge * list bool) :=
  let* ci := vget (snd st) i in
  if ci then Ok st
  else cover_vertex i (edges g) (fst st) (snd st).

Definition solve (fuel : nat) (g : MinEdgeCover) : res (list Edge) :=
  let* matching := findMaxMatching fuel g in
  let* covered0 := vector_make (n g) false in
  let* covered1 := foldM mark_covered matching covered0 in
  let* st := foldM (complete_step g) (upto (n g)) (matching, covered1) in
  Ok (fst st).

(** *** isEdgeCover *)

(** [for (int i = 0; i < n; i++) if (!covered[i]) return false; return true;] *)
Fixpoint all_covered (covered : list bool) (range : list Z) : res bool :=
  match range with
  | [] => Ok true
  | i :: range' =>
      let* ci := vget covered i in
      if ci then all_covered covered range' else Ok false
  end.

(** The static [isEdgeCover(n, cover)], for a vertex count [0 <= n] (see
    [vector_make] for the bit vector [covered]). *)
Definition isEdgeCover (n : Z) (cover : list Edge) : res bool :=
  let* covered0 := vector_make n false in
  let* covered := foldM mark_covered cover covered0 in
  all_covered covered (upto n).

End GraphHpp.

(** ** main.cpp *)

Module MainCpp.

(** [struct Edge] of main.cpp; [eu] and [ev] are its fields [u] and [v]. *)
Record Edge : Type := mkEdge { eu : Z; ev : Z }.

(** [Edge::operator<]: lexicographic order on [(u, v)]. *)
Definition Edge_lt (a b : Edge) : bool :=
  if negb (eu a =? eu b) then eu a <? eu b else ev a <? ev b.

(** [std::set<Edge>::insert]: the set is kept as its sorted sequence of
    keys; a key equivalent to one already present is not inserted. *)
Fixpoint set_insert (e : Edge) (s : list Edge) : list Edge :=
  match s with
  | [] => [e]
  | x :: s' =>
      if Edge_lt e x then e :: x :: s'
      else if Edge_lt x e then x :: set_insert e s'
      else x :: s'
  end.

Record Graph : Type := mkGraph {
  V : Z;
  adj : list (list Z);
  edges : list Edge
}.

(** [Graph(int V)]: [adj.resize(V)] on an empty vector. *)
Definition Graph_new (V : Z) : res Graph :=
  let* adj0 := vector_make V ([] : list Z) in
  Ok (mkGraph V adj0 []).

Definition addEdge (g : Graph) (u v : Z) : res Graph :=
  let* au := vget (adj g) u in
  let* a1 := vset (adj g) u (au ++ [v]) in
  let* av := vget a1 v in
  let* a2 := vset a1 v (av ++ [u]) in
  Ok (mkGraph (V g) a2 (edges g ++ [mkEdge (Z.min u v) (Z.max u v)])).

(** The way every graph of main.cpp is built ([createTestGraph1] to
    [createTestGraph3] and [readGraphFromFile]): [Graph g(V)] followed by one
    [addEdge] per pair. *)
Definition withEdges (V : Z) (pairs : list (Z * Z)) : res Graph :=
  let* g0 := Graph_new V in
  foldM (fun g p => addEdge g (fst p) (snd p)) pairs g0.

Definition createTestGraph1 : res Graph := withEdges 3 [(0, 1); (1, 2); (2, 0)].

Definition createTestGraph2 : res Graph :=
  withEdges 4 [(0, 1); (0, 2); (0, 3); (1, 2); (1, 3); (2, 3)].

Definition createTestGraph3 : res Graph :=
  withEdges 5 [(0, 1); (1, 2); (2, 3); (3, 4)].

(** [for (int i = 0; i < V; i++) if (adj[i].empty()) return true; return false;] *)
Fixpoint any_isolated (a : list (list Z)) (range : list Z) : res bool :=
  match range with
  | [] => Ok false
  | i :: range' =>
      let* ai := vget a i in
      match ai with
      | [] => Ok true
      | _ :: _ => any_isolated a range'
      end
  end.

Definition hasIsolatedVertices (g : Graph) : res bool :=
  any_isolated (adj g) (upto (V g)).

(** The body of [dfs]: [for (int to : adj[v]) { ... }].  [rec] is the
    recursive call [dfs(match[to], match, used)]; [match] and [used] are
    passed by reference in the source and threaded here. *)
Fixpoint dfs_loop (rec : Z -> list Z -> list bool -> res (bool * list Z * list bool))
    (v : Z) (tos : list Z) (match_ : list Z) (used : list bool)
  : res (bool * list Z * list bool) :=
  match tos with
  | [] => Ok (false, match_, used)
  | to :: tos' =>
      let* used_to := vget used to in
      if used_to then dfs_loop rec v tos' match_ used
      else
        let* used1 := vset used to true in
        let* mto := vget match_ to in
        if mto =? -1
        then
          let* m1 := vset match_ to v in
          let* m2 := vset m1 v to in
          Ok (true, m2, used1)
        else
          let* r := rec mto match_ used1 in
          if fst (fst r)
          then
            let* m1 := vset (snd (fst r)) to v in
            let* m2 := vset m1 v to in
            Ok (true, m2, snd r)
          else dfs_loop rec v tos' (snd (fst r)) (snd r)
  end.

Fixpoint dfs (fuel : nat) (g : Graph) (v : Z) (match_ : list Z) (used : list bool)
  : res (bool * list Z * list bool) :=
  match fuel with
  | O => Err OutOfFuel
  | S fuel' =>
      let* adj_v := vget (adj g) v in
      dfs_loop (dfs fuel' g) v adj_v match_ used
  end.

(** The body of [for (int v = 0; v < V; v++)] in [findMaxMatching]; the
    boolean that [dfs] returns is dropped. *)
Definition kuhn_step (fuel : nat) (g : Graph) (match_ : list Z) (v : Z)
  : res (list Z) :=
  let* mv := vget match_ v in
  if mv =? -1
  then
    let* used := vector_make (V g) false in
    let* r := dfs fuel g v match_ used in
    Ok (snd (fst r))
  else Ok match_.

Definition findMaxMatching (fuel : nat) (g : Graph) : res (list Z) :=
  let* match0 := vector_make (V g) (-1) in
  foldM (kuhn_step fuel g) (upto (V g)) match0.

(** Step 2 of [findMinEdgeCover]. *)
Definition add_matched (match_ : list Z) (st : list Edge * list bool) (v : Z)
  : res (list Edge * list bool) :=
  let* mv := vget match_ v in
  if negb (mv =? -1) && (v <? mv)
  then
    let* c1 := vset (snd st) v true in
    let* c2 := vset c1 mv true in
    Ok (set_insert (mkEdge v mv) (fst st), c2)
  else Ok st.

(** Step 3 of [findMinEdgeCover]. *)
Definition add_incident (g : Graph) (st : list Edge * list bool) (v : Z)
  : res (list Edge * list bool) :=
  let* cv := vget (snd st) v in
  if cv then Ok st
  else
    let* av := vget (adj g) v in
    match av with
    | [] => Ok st
    | _ :: _ =>
        let* u := vget av 0 in
        let* c1 := vset (snd st) v true in
        let* c2 := vset c1 u true in
        Ok (set_insert (mkEdge (Z.min v u) (Z.max v u)) (fst st), c2)
    end.

Definition findMinEdgeCover (fuel : nat) (g : Graph) : res (list Edge) :=
  let* isolated := hasIsolatedVertices g in
  if isolated then Ok []
  else
    let* match_ := findMaxMatching fuel g in
    let* covered0 := vector_make (V g) false in
    let* st1 := foldM (add_matched match_) (upto (V g)) ([], covered0) in
    let* st2 := foldM (add_incident g) (upto (V g)) st1 in
    Ok (fst st2).

End MainCpp.

(** ** Vocabulary of the specification *)

Definition INT_MAX : Z := 2 ^ 31 - 1.

Definition INT_MIN : Z := - 2 ^ 31.

(** [z] is a value of the C++ type [int]. *)
Definition is_int (z : Z) : Prop := INT_MIN <= z <= INT_MAX.

(** [i] is a vertex of a graph on [n] vertices. *)
Definition in_range (n i : Z) : Prop := 0 <= i < n.

(** The number of [false] entries of a vector of flags. *)
Fixpoint count_false (l : list bool) : nat :=
  match l with
  | [] => O
  | b :: l' => ((if b then 0 else 1) + count_false l')%nat
  end.

(** Every entry of the match array is [-1] or a vertex. *)
Definition match_in_range (n : Z) (match_ : list Z) : Prop :=
  Z.of_nat (length match_) = n /\
  forall i m, zlookup match_ i = Some m -> m = -1 \/ in_range n m.

(** The match array is a symmetric partial involution on [[0, n)]. *)
Definition symmetric_match (n : Z) (match_ : list Z) : Prop :=
  forall i m, in_range n i -> zlookup match_ i = Some m -> m <> -1 ->
    zlookup match_ m = Some i.

Module HppSpec.
Import GraphHpp.

(** Vertex [i] is an endpoint of edge [e]. *)
Definition touches (e : Edge) (i : Z) : Prop := eu e = i \/ ev e = i.

Definition edge_in_range (n : Z) (e : Edge) : Prop :=
  in_range n (eu e) /\ in_range n (ev e).

(** Every vertex in [[0, n)] is an endpoint of some edge of [C]. *)
Definition covers (n : Z) (C : list Edge) : Prop :=
  forall i, in_range n i -> exists e, e ∈ C /\ touches e i.

(** No two positions of [C] hold the same undirected edge. *)
Definition no_duplicate_edges (C : list Edge) : Prop :=
  forall (i j : nat) a b,
    C !! i = Some a -> C !! j = Some b -> i <> j -> Edge_eq a b = false.

(** No two positions of [M] hold edges with a common endpoint. *)
Definition vertex_disjoint (M : list Edge) : Prop :=
  forall (i j : nat) a b,
    M !! i = Some a -> M !! j = Some b -> i <> j ->
    forall x, touches a x -> ~ touches b x.

(** [M] is a matching of the graph with edge list [es]. *)
Definition is_matching (es : list Edge) (M : list Edge) : Prop :=
  (forall e, e ∈ M -> exists e', e' ∈ es /\ Edge_eq e e' = true) /\
  vertex_disjoint M.

(** [C] is an edge cover of the graph on [n] vertices with edge list [es]. *)
Definition is_edge_cover (n : Z) (es : list Edge) (C : list Edge) : Prop :=
  (forall e, e ∈ C -> exists e', e' ∈ es /\ Edge_eq e e' = true) /\
  covers n C.

(** The neighbours that the edge list [es] gives vertex [i], in the order
    in which the constructor appends them to [adj[i]]. *)
Definition neighbours_of (e : Edge) (i : Z) : list Z :=
  (if decide (i = eu e) then [ev e] else []) ++
  (if decide (i = ev e) then [eu e] else []).

Definition neighbours (es : list Edge) (i : Z) : list Z :=
  concat (map (fun e => neighbours_of e i) es).

(** A graph as the constructor leaves it. *)
Definition well_formed (g : MinEdgeCover) : Prop :=
  0 < n g <= PTRDIFF_MAX /\
  (forall e, e ∈ edges g -> edge_in_range (n g) e) /\
  Z.of_nat (length (adj g)) = n g /\
  (forall i, in_range (n g) i ->
     zlookup (adj g) i = Some (neighbours (edges g) i)) /\
  (forall i, in_range (n g) i -> exists e, e ∈ edges g /\ touches e i).

(** What the greedy loop maintains, [pre] being the edges already seen. *)
Definition greedy_inv (n : Z) (pre : list Edge) (st : greedy_state) : Prop :=
  match_in_range n (g_match st) /\
  Z.of_nat (length (g_used st)) = n /\
  (forall i, zlookup (g_used st) i = Some true <->
             exists e, e ∈ g_matching st /\ touches e i) /\
  (forall i, zlookup (g_used st) i = Some false ->
             zlookup (g_match st) i = Some (-1)) /\
  symmetric_match n (g_match st) /\
  (forall e, e ∈ g_matching st -> e ∈ pre) /\
  vertex_disjoint (g_matching st).

(** What one breadth-first phase maintains: every unmatched vertex has been
    marked visited, so no path end is ever recorded. *)
Definition bfs_inv (n : Z) (match_ : list Z) (st : bfs_state) : Prop :=
  Z.of_nat (length (parent st)) = n /\
  Z.of_nat (length (visited st)) = n /\
  (forall x, x ∈ q st -> in_range n x) /\
  (forall i, in_range n i -> zlookup match_ i = Some (-1) ->
             zlookup (visited st) i = Some true) /\
  pathEnd st = -1.

(** What the completion loop of [solve] maintains, [pre] being the vertices
    already handled. *)
Definition solve_inv (n : Z) (es : list Edge) (pre : list Z)
    (st : list Edge * list bool) : Prop :=
  Z.of_nat (length (snd st)) = n /\
  (forall e, e ∈ fst st -> e ∈ es) /\
  (forall i, zlookup (snd st) i = Some true <->
             exists e, e ∈ fst st /\ touches e i) /\
  no_duplicate_edges (fst st) /\
  (forall i, i ∈ pre -> zlookup (snd st) i = Some true).

(** The greedy seed is maximal: each edge already seen has a used endpoint. *)
Definition greedy_maximal (pre : list Edge) (st : greedy_state) : Prop :=
  forall e, e ∈ pre ->
    zlookup (g_used st) (eu e) = Some true \/
    zlookup (g_used st) (ev e) = Some true.

(** No edge joins a vertex to itself. *)
Definition loop_free (es : list Edge) : Prop :=
  forall e, e ∈ es -> eu e <> ev e.

(** What the completion loop of [solve] maintains on a loop-free graph,
    counted from the matching [M] and the flags [covered1] it starts with:
    each edge added covers exactly one more vertex. *)
Definition solve_count_inv (es M : list Edge) (covered1 : list bool)
    (st : list Edge * list bool) : Prop :=
  (length (fst st) + count_false (snd st) =
   length M + count_false covered1)%nat /\
  (forall e, e ∈ es ->
     zlookup (snd st) (eu e) = Some true \/ zlookup (snd st) (ev e) = Some true).

(** The work left in a breadth-first phase. *)
Definition bfs_measure (st : bfs_state) : nat :=
  (count_false (visited st) + length (q st))%nat.

End HppSpec.

Module MainSpec.
Import MainCpp.

(** A graph as [Graph(V)] and [addEdge] leave it. *)
Definition well_formed (g : Graph) : Prop :=
  0 <= V g <= PTRDIFF_MAX /\
  Z.of_nat (length (adj g)) = V g /\
  forall i l x, zlookup (adj g) i = Some l -> x ∈ l -> in_range (V g) x.

(** What [dfs] expects of, and leaves in, [match] and [used]. *)
Definition dfs_inv (nv : Z) (match_ : list Z) (used : list bool) : Prop :=
  match_in_range nv match_ /\ Z.of_nat (length used) = nv.

(** [dfs] returned, kept its arrays in shape and unmarked no vertex. *)
Definition dfs_returns (nv : Z) (used : list bool)
    (r : res (bool * list Z * list bool)) : Prop :=
  exists b match' used', r = Ok (b, match', used') /\
    dfs_inv nv match' used' /\ (count_false used' <= count_false used)%nat.

End MainSpec.

(** ** Example inputs *)

(** The path 0 - 1 - 2 - 3 with its middle edge listed first. *)
Definition path4 : list GraphHpp.Edge :=
  [GraphHpp.mkEdge 1 2; GraphHpp.mkEdge 0 1; GraphHpp.mkEdge 2 3].

(** The path 0 - 1 - 2. *)
Definition path3 : list GraphHpp.Edge :=
  [GraphHpp.mkEdge 0 1; GraphHpp.mkEdge 1 2].

(** The triangle of [createTestGraph1], as [addEdge] builds it. *)
Definition triangle : MainCpp.Graph :=
  MainCpp.mkGraph 3 [[1; 2]; [0; 2]; [1; 0]]
    [MainCpp.mkEdge 0 1; MainCpp.mkEdge 1 2; MainCpp.mkEdge 0 2].

(** ** Further vocabulary *)

Module HppNotions.
Import GraphHpp.

(** The same edge written the other way round. *)
Definition swap (e : Edge) : Edge := mkEdge (ev e) (eu e).

(** Edge [e] joins vertices [a] and [b], in either direction. *)
Definition joins (e : Edge) (a b : Z) : Prop :=
  (eu e = a /\ ev e = b) \/ (ev e = a /\ eu e = b).

(** The endpoints of the edges of [M], two per edge. *)
Definition endpoints (M : list Edge) : list Z :=
  concat (map (fun e => [eu e; ev e]) M).

(** The sum of the lengths of the adjacency lists. *)
Definition degree_sum (a : list (list Z)) : nat :=
  sum_list (map length a).

End HppNotions.

Module MainNotions.
Import MainCpp.

(** The edge that [addEdge(u, v)] stores: [Edge(min(u, v), max(u, v))]. *)
Definition normalise (p : Z * Z) : Edge :=
  mkEdge (Z.min (fst p) (snd p)) (Z.max (fst p) (snd p)).

Definition pair_in_range (nv : Z) (p : Z * Z) : Prop :=
  in_range nv (fst p) /\ in_range nv (snd p).

(** The pair [p] joins vertices [a] and [b], in either direction. *)
Definition pair_joins (p : Z * Z) (a b : Z) : Prop :=
  (fst p = a /\ snd p = b) \/ (snd p = a /\ fst p = b).

(** The neighbours that the calls [addEdge(u, v)], one per pair, give vertex
    [i], in the order in which they are appended to [adj[i]]. *)
Definition pair_neighbours_of (p : Z * Z) (i : Z) : list Z :=
  (if decide (i = fst p) then [snd p] else []) ++
  (if decide (i = snd p) then [fst p] else []).

Definition pair_neighbours (pairs : list (Z * Z)) (i : Z) : list Z :=
  concat (map (fun p => pair_neighbours_of p i) pairs).

(** Vertex [i] is an endpoint of edge [e]. *)
Definition touches (e : Edge) (i : Z) : Prop := eu e = i \/ ev e = i.

(** A sequence of edges strictly increasing for [Edge::operator<]. *)
Fixpoint strictly_sorted (l : list Edge) : Prop :=
  match l with
  | [] => True
  | a :: l' => (forall b, b ∈ l' -> Edge_lt a b = true) /\ strictly_sorted l'
  end.

(** [match[i]] is defined. *)
Definition matched (match_ : list Z) (i : Z) : Prop :=
  exists m, zlookup match_ i = Some m /\ m <> -1.

(** [used[i]] is set. *)
Definition marked (used : list bool) (i : Z) : Prop :=
  zlookup used i = Some true.

(** Every defined [match[i]] is a neighbour of [i]. *)
Definition match_adjacent (g : Graph) (match_ : list Z) : Prop :=
  forall i m, zlookup match_ i = Some m -> m <> -1 ->
    exists l, zlookup (adj g) i = Some l /\ m ∈ l.

(** A graph as [Graph(V)] and [addEdge] leave it, with its adjacency
    symmetric. *)
Definition symmetric_graph (g : Graph) : Prop :=
  MainSpec.well_formed g /\
  forall a l b, zlookup (adj g) a = Some l -> b ∈ l ->
    exists l', zlookup (adj g) b = Some l' /\ a ∈ l'.

(** What a call of [dfs] on vertex [v], or the rest [tos] of its loop, does
    to [match] and [used]. *)
Definition dfs_effect (g : Graph) (v : Z) (tos : list Z)
    (match_ : list Z) (used : list bool)
    (r : res (bool * list Z * list bool)) : Prop :=
  exists b match' used',
    r = Ok (b, match', used') /\
    MainSpec.dfs_inv (V g) match' used' /\
    (count_false used' <= count_false used)%nat /\
    match_adjacent g match' /\
    (forall i, marked used i -> marked used' i) /\
    (forall i, matched match_ i -> matched match' i) /\
    (b = false ->
       match' = match_ /\
       (forall to, to ∈ tos -> marked used' to) /\
       (forall i, marked used' i -> ~ marked used i -> matched match_ i)) /\
    (b = true -> exists to, to ∈ tos /\ zlookup match' v = Some to).

(** What both loops of [findMinEdgeCover] maintain: the set is strictly
    increasing, holds stored edges of the graph only, and every vertex
    flagged in [covered] is an endpoint of one of them. *)
Definition cover_inv (g : Graph) (st : list Edge * list bool) : Prop :=
  Z.of_nat (length (snd st)) = V g /\
  strictly_sorted (fst st) /\
  (forall e, e ∈ fst st -> e ∈ edges g) /\
  (forall i, marked (snd st) i -> exists e, e ∈ fst st /\ touches e i).

(** [c] colours the vertices so that neighbours get different colours. *)
Definition bipartite (g : Graph) (c : Z -> bool) : Prop :=
  forall a l b, zlookup (adj g) a = Some l -> b ∈ l -> c a <> c b.

(** Every defined [match[i]] points back: [match[match[i]] == i]. *)
Definition fully_symmetric (match_ : list Z) : Prop :=
  forall i m, zlookup match_ i = Some m -> m <> -1 -> zlookup match_ m = Some i.

(** What a call of [dfs] on [v] finds on entry in a bipartite graph: a
    symmetric [match], marks on the side opposite to [v] only, and the
    partner of [v], if it has one, marked. *)
Definition bip_pre (g : Graph) (c : Z -> bool) (v : Z)
    (match_ : list Z) (used : list bool) : Prop :=
  fully_symmetric match_ /\
  match_adjacent g match_ /\
  (forall i, marked used i -> c i <> c v) /\
  (forall p, zlookup match_ v = Some p -> p = -1 \/ marked used p).

(** The entries of [match] that a call of [dfs] on [v] leaves alone: those
    of marked vertices, and those of vertices on the side of [v], other than
    [v], that are unmatched or whose partner is marked. *)
Definition kept (c : Z -> bool) (v : Z) (match_ : list Z) (used : list bool)
    (i : Z) : Prop :=
  i <> v /\
  (marked used i \/
   (c i = c v /\ forall m, zlookup match_ i = Some m -> m = -1 \/ marked used m)).

(** What the call leaves: on failure [match] is untouched; on success [v]
    has a new partner and [match] is symmetric again except at the former
    partner of [v], which still points to [v]. *)
Definition bip_post (c : Z -> bool) (v : Z) (match_ : list Z) (used : list bool)
    (r : bool * list Z * list bool) : Prop :=
  let b := fst (fst r) in
  let match' := snd (fst r) in
  let used' := snd r in
  (forall i, marked used i -> marked used' i) /\
  (forall i, marked used' i -> marked used i \/ c i <> c v) /\
  (b = false -> match' = match_) /\
  (b = true ->
     (forall i m, zlookup match_ v <> Some i ->
        zlookup match' i = Some m -> m <> -1 -> zlookup match' m = Some i) /\
     (exists t, zlookup match' v = Some t /\ t <> -1 /\ ~ marked used t) /\
     (forall i, kept c v match_ used i -> zlookup match' i = zlookup match_ i)).

End MainNotions.

(** * Basic facts *)

Lemma bind_Ok {A B : Type} (c : res A) (k : A -> res B) (b : B) :
  bind c k = Ok b <-> exists a, c = Ok a /\ k a = Ok b.
Proof.
  destruct c as [a|e]; simpl; split.
  - intros H. exists a. split; [reflexivity | exact H].
  - intros (a' & Ha & Hk). injection Ha as ->. exact Hk.
  - discriminate.
  - intros (a' & Ha & _). discriminate.
Qed.

(** Splits a hypothesis [bind c k = Ok b] into its two halves. *)
Ltac bind_inv H :=
  let a := fresh "a" in
  let Ha := fresh "Ha" in
  apply bind_Ok in H; destruct H as (a & Ha & H).

(** The same, naming the intermediate result and its equation. *)
Ltac bind_inv_as H a Ha :=
  apply bind_Ok in H; destruct H as (a & Ha & H).

Section Vectors.
Context {A : Type}.
Implicit Types (l : list A) (i j : Z) (x y : A).

Lemma zlookup_Some_range l i x :
  zlookup l i = Some x -> 0 <= i < Z.of_nat (length l).
Proof.
  unfold zlookup. destruct (Z.ltb_spec i 0) as [Hneg | Hpos]; [discriminate | ].
  intros H. apply lookup_lt_Some in H. lia.
Qed.

Lemma zlookup_in_range l i :
  0 <= i < Z.of_nat (length l) -> exists x, zlookup l i = Some x.
Proof.
  intros [H0 H1]. unfold zlookup.
  destruct (Z.ltb_spec i 0) as [Hneg | _]; [lia | ].
  destruct (lookup_lt_is_Some_2 l (Z.to_nat i)) as [x Hx]; [lia | ].
  exists x. exact Hx.
Qed.

Lemma zlookup_None l i :
  zlookup l i = None <-> ~ (0 <= i < Z.of_nat (length l)).
Proof.
  split.
  - intros H Hr. destruct (zlookup_in_range l i Hr) as [x Hx]. congruence.
  - intros H. destruct (zlookup l i) as [x|] eqn:E; [ | reflexivity].
    apply zlookup_Some_range in E. contradiction.
Qed.

Lemma zlookup_insert l i j y :
  0 <= i < Z.of_nat (length l) ->
  zlookup (<[Z.to_nat i := y]> l) j = if decide (j = i) then Some y else zlookup l j.
Proof.
  intros Hi. unfold zlookup.
  destruct (decide (j = i)) as [-> | Hne].
  - destruct (Z.ltb_spec i 0); [lia | ].
    apply list_lookup_insert_eq. lia.
  - destruct (Z.ltb_spec j 0); [reflexivity | ].
    apply list_lookup_insert_ne. lia.
Qed.

Lemma zlookup_replicate (k : nat) x i :
  0 <= i < Z.of_nat k -> zlookup (replicate k x) i = Some x.
Proof.
  intros Hi. unfold zlookup. destruct (Z.ltb_spec i 0); [lia | ].
  apply lookup_replicate_2. lia.
Qed.

Lemma vget_Ok l i x : vget l i = Ok x <-> zlookup l i = Some x.
Proof.
  unfold vget. destruct (zlookup l i); split; intros H; congruence.
Qed.

Lemma vget_in_range l i :
  0 <= i < Z.of_nat (length l) -> exists x, vget l i = Ok x /\ zlookup l i = Some x.
Proof.
  intros Hi. destruct (zlookup_in_range l i Hi) as [x Hx].
  exists x. split; [ | exact Hx]. apply vget_Ok. exact Hx.
Qed.

Lemma vset_Ok l i y l' :
  vset l i y = Ok l' <->
  0 <= i < Z.of_nat (length l) /\ l' = <[Z.to_nat i := y]> l.
Proof.
  unfold vset. destruct (zlookup l i) as [x|] eqn:E.
  - apply zlookup_Some_range in E. split.
    + intros H. injection H as <-. split; [exact E | reflexivity].
    + intros [_ ->]. reflexivity.
  - apply zlookup_None in E. split; [discriminate | ]. intros [H _]. contradiction.
Qed.

Lemma vset_in_range l i y :
  0 <= i < Z.of_nat (length l) -> vset l i y = Ok (<[Z.to_nat i := y]> l).
Proof. intros Hi. apply vset_Ok. split; [exact Hi | reflexivity]. Qed.

Lemma vset_Err l i y e :
  vset l i y = Err e <-> e = OutOfBounds /\ ~ (0 <= i < Z.of_nat (length l)).
Proof.
  unfold vset. destruct (zlookup l i) as [x|] eqn:E.
  - split; [discriminate | ]. intros [_ H].
    apply zlookup_Some_range in E. contradiction.
  - apply zlookup_None in E. split.
    + intros H. injection H as <-. split; [reflexivity | exact E].
    + intros [-> _]. reflexivity.
Qed.

Lemma vector_make_Ok (count : Z) x :
  0 <= count <= PTRDIFF_MAX ->
  vector_make count x = Ok (replicate (Z.to_nat count) x).
Proof.
  intros Hc. unfold vector_make, size_t_of_int.
  assert (Hmod : count mod 2 ^ 64 = count).
  { apply Z.mod_small. unfold PTRDIFF_MAX in Hc. lia. }
  rewrite Hmod. destruct (Z.ltb_spec PTRDIFF_MAX count); [lia | reflexivity].
Qed.

Lemma vector_make_negative (count : Z) x :
  INT_MIN <= count < 0 -> vector_make count x = Err LengthError.
Proof.
  intros Hc. unfold INT_MIN in Hc. unfold vector_make, size_t_of_int.
  assert (Hmod : count mod 2 ^ 64 = count + 2 ^ 64).
  { symmetry. apply (Z.mod_unique count (2 ^ 64) (-1)); lia. }
  rewrite Hmod. unfold PTRDIFF_MAX.
  destruct (Z.ltb_spec (2 ^ 63 - 1) (count + 2 ^ 64)); [reflexivity | lia].
Qed.

Lemma vector_make_inv (count : Z) x l :
  vector_make count x = Ok l ->
  l = replicate (Z.to_nat (size_t_of_int count)) x /\
  0 <= size_t_of_int count <= PTRDIFF_MAX.
Proof.
  unfold vector_make. destruct (Z.ltb_spec PTRDIFF_MAX (size_t_of_int count)).
  - discriminate.
  - intros H'. injection H' as <-. split; [reflexivity | ].
    split; [ | assumption]. unfold size_t_of_int. apply Z.mod_pos_bound. lia.
Qed.

End Vectors.

Lemma elem_of_upto (n i : Z) : i ∈ upto n <-> in_range n i.
Proof. unfold upto, in_range. rewrite elem_of_seqZ. lia. Qed.

Section FoldM.
Context {A S : Type}.
Implicit Types (f : S -> A -> res S) (l : list A) (s : S).

(** A loop whose body keeps an invariant of the prefix already traversed
    and never fails under it, runs to completion. *)
Lemma foldM_total (P : list A -> S -> Prop) f l s :
  P [] s ->
  (forall pre a post s0, l = pre ++ a :: post -> P pre s0 ->
     exists s1, f s0 a = Ok s1 /\ P (pre ++ [a]) s1) ->
  exists s', foldM f l s = Ok s' /\ P l s'.
Proof.
  intros H0 Hstep.
  assert (Hgen : forall rest pre s0, l = pre ++ rest -> P pre s0 ->
            exists s', foldM f rest s0 = Ok s' /\ P l s').
  { induction rest as [ | a rest IH]; intros pre s0 Hl HP.
    - exists s0. rewrite app_nil_r in Hl. subst pre. split; [reflexivity | exact HP].
    - destruct (Hstep pre a rest s0 Hl HP) as (s1 & Hf & HP1).
      destruct (IH (pre ++ [a]) s1) as (s' & Hs' & HP').
      + rewrite <- app_assoc. exact Hl.
      + exact HP1.
      + exists s'. simpl. rewrite Hf. simpl. split; assumption. }
  apply (Hgen l [] s); [reflexivity | exact H0].
Qed.

(** The same for a loop known to have completed. *)
Lemma foldM_invariant (P : list A -> S -> Prop) f l s s' :
  foldM f l s = Ok s' ->
  P [] s ->
  (forall pre a post s0 s1, l = pre ++ a :: post -> P pre s0 ->
     f s0 a = Ok s1 -> P (pre ++ [a]) s1) ->
  P l s'.
Proof.
  intros Hrun H0 Hstep.
  assert (Hgen : forall rest pre s0, l = pre ++ rest -> P pre s0 ->
            foldM f rest s0 = Ok s' -> P l s').
  { induction rest as [ | a rest IH]; intros pre s0 Hl HP Hf.
    - simpl in Hf. injection Hf as <-. rewrite app_nil_r in Hl. subst pre. exact HP.
    - simpl in Hf. bind_inv Hf.
      apply (IH (pre ++ [a]) a0); [ | | exact Hf].
      + rewrite <- app_assoc. exact Hl.
      + eapply Hstep; eassumption. }
  apply (Hgen l [] s); [reflexivity | exact H0 | exact Hrun].
Qed.

End FoldM.

Section CountFalse.
Implicit Types (l : list bool) (i : Z).

Lemma count_false_le_length l : (count_false l <= length l)%nat.
Proof. induction l as [ | [ | ] l IH]; simpl; lia. Qed.

Lemma count_false_replicate_false (k : nat) : count_false (replicate k false) = k.
Proof. induction k as [ | k IH]; simpl; [reflexivity | rewrite IH; reflexivity]. Qed.

Lemma count_false_insert_nat l (k : nat) :
  (count_false (<[k := true]> l) <= count_false l)%nat /\
  (l !! k = Some false -> (count_false (<[k := true]> l) < count_false l)%nat).
Proof.
  revert k. induction l as [ | b l IH]; intros k.
  - simpl. split; [lia | discriminate].
  - destruct k as [ | k].
    + simpl. split.
      * destruct b; lia.
      * intros H. injection H as ->. lia.
    + simpl. destruct (IH k) as [Hle Hlt]. split.
      * lia.
      * intros H. specialize (Hlt H). lia.
Qed.

Lemma count_false_mark_le l i :
  (count_false (<[Z.to_nat i := true]> l) <= count_false l)%nat.
Proof. apply count_false_insert_nat. Qed.

Lemma count_false_mark_lt l i :
  zlookup l i = Some false ->
  (count_false (<[Z.to_nat i := true]> l) < count_false l)%nat.
Proof.
  unfold zlookup. destruct (i <? 0); [discriminate | ].
  apply count_false_insert_nat.
Qed.

Lemma count_false_mark_exact l i :
  zlookup l i = Some false ->
  (count_false (<[Z.to_nat i := true]> l) + 1 = count_false l)%nat.
Proof.
  unfold zlookup. destruct (i <? 0); [discriminate | ].
  generalize (Z.to_nat i). clear i. intros k. revert k.
  induction l as [ | b l IH]; intros k H; [discriminate | ].
  destruct k as [ | k]; simpl in *.
  - injection H as ->. lia.
  - specialize (IH k H). lia.
Qed.

Lemma mark_true_id l i :
  zlookup l i = Some true -> <[Z.to_nat i := true]> l = l.
Proof.
  unfold zlookup. destruct (i <? 0); [discriminate | ]. apply list_insert_id.
Qed.

Lemma count_false_all_true l :
  (forall i, 0 <= i < Z.of_nat (length l) -> zlookup l i = Some true) ->
  count_false l = O.
Proof.
  induction l as [ | b l IH]; intros H; [reflexivity | ].
  assert (Hb : b = true).
  { specialize (H 0). simpl in H. unfold zlookup in H. simpl in H.
    assert (Some b = Some true) by (apply H; lia). congruence. }
  subst b. simpl. apply IH. intros i Hi.
  specialize (H (i + 1)). unfold zlookup in *.
  destruct (Z.ltb_spec (i + 1) 0); [lia | ].
  destruct (Z.ltb_spec i 0); [lia | ].
  replace (Z.to_nat (i + 1)) with (S (Z.to_nat i)) in H by lia.
  simpl in H. apply H. simpl. lia.
Qed.

(** Two vectors of flags of the same length with the same [true] entries
    are equal. *)
Lemma flags_ext l1 l2 :
  length l1 = length l2 ->
  (forall i, zlookup l1 i = Some true <-> zlookup l2 i = Some true) ->
  l1 = l2.
Proof.
  intros Hlen Hiff. apply list_eq. intros k.
  specialize (Hiff (Z.of_nat k)). unfold zlookup in Hiff.
  destruct (Z.ltb_spec (Z.of_nat k) 0); [lia | ].
  rewrite Nat2Z.id in Hiff.
  destruct (l1 !! k) as [b1 | ] eqn:E1, (l2 !! k) as [b2 | ] eqn:E2.
  - destruct b1, b2; try reflexivity.
    + destruct Hiff as [Hiff _]. specialize (Hiff eq_refl). discriminate.
    + destruct Hiff as [_ Hiff]. specialize (Hiff eq_refl). discriminate.
  - apply lookup_lt_Some in E1. apply lookup_ge_None in E2. lia.
  - apply lookup_ge_None in E1. apply lookup_lt_Some in E2. lia.
  - reflexivity.
Qed.

End CountFalse.

(** * graph.hpp: the cover verifier *)

Module HppFacts.
Import GraphHpp HppSpec.

Lemma edge_in_range_dec (n : Z) (e : Edge) :
  edge_in_range n e \/ ~ edge_in_range n e.
Proof. unfold edge_in_range, in_range. lia. Qed.

Lemma edges_in_range_dec (n : Z) (C : list Edge) :
  (forall e, e ∈ C -> edge_in_range n e) \/
  (exists e, e ∈ C /\ ~ edge_in_range n e).
Proof.
  induction C as [ | a C IH].
  - left. intros e He. inversion He.
  - destruct (edge_in_range_dec n a) as [Ha | Ha].
    + destruct IH as [IH | (e & He & Hne)].
      * left. intros e He. apply elem_of_cons in He as [-> | He]; auto.
      * right. exists e. split; [right; exact He | exact Hne].
    + right. exists a. split; [left | exact Ha].
Qed.

(** Marking the endpoints of one edge. *)
Lemma mark_covered_Ok (covered : list bool) (e : Edge) :
  edge_in_range (Z.of_nat (length covered)) e ->
  exists c', mark_covered covered e = Ok c' /\
    length c' = length covered /\
    forall i, zlookup c' i = Some true <->
              zlookup covered i = Some true \/ touches e i.
Proof.
  intros [Hu Hv]. unfold in_range in Hu, Hv. unfold mark_covered.
  rewrite (vset_in_range covered (eu e) true Hu). simpl.
  rewrite vset_in_range by (rewrite length_insert; exact Hv).
  eexists. split; [reflexivity | ]. split.
  - rewrite !length_insert. reflexivity.
  - intros i. rewrite zlookup_insert by (rewrite length_insert; exact Hv).
    unfold touches. destruct (decide (i = ev e)) as [-> | Hne].
    + split; [intros _; right; right; reflexivity | reflexivity].
    + rewrite zlookup_insert by exact Hu.
      destruct (decide (i = eu e)) as [-> | Hne'].
      * split; [intros _; right; left; reflexivity | reflexivity].
      * split; [intros H; left; exact H | ].
        intros [H | [H | H]]; [exact H | congruence | congruence].
Qed.

Lemma mark_covered_Err (covered : list bool) (e : Edge) :
  ~ edge_in_range (Z.of_nat (length covered)) e ->
  mark_covered covered e = Err OutOfBounds.
Proof.
  intros Hne. unfold mark_covered.
  destruct (vset covered (eu e) true) as [c1 | err] eqn:E1; simpl.
  - apply vset_Ok in E1 as [Hu ->].
    apply vset_Err. split; [reflexivity | ].
    rewrite length_insert. intros Hv. apply Hne. split; assumption.
  - apply vset_Err in E1 as [-> _]. reflexivity.
Qed.

(** The first loop of [isEdgeCover] (and the marking loop of [solve]). *)
Lemma mark_all_Ok (C : list Edge) (covered0 : list bool) :
  (forall e, e ∈ C -> edge_in_range (Z.of_nat (length covered0)) e) ->
  exists c', foldM mark_covered C covered0 = Ok c' /\
    length c' = length covered0 /\
    forall i, zlookup c' i = Some true <->
              zlookup covered0 i = Some true \/ exists e, e ∈ C /\ touches e i.
Proof.
  revert covered0. induction C as [ | a C IH]; intros covered0 Hr.
  - exists covered0. split; [reflexivity | ]. split; [reflexivity | ].
    intros i. split; [intros H; left; exact H | ].
    intros [H | (e & He & _)]; [exact H | inversion He].
  - destruct (mark_covered_Ok covered0 a) as (c1 & H1 & Hlen1 & Hc1).
    { apply Hr. left. }
    destruct (IH c1) as (c' & H' & Hlen' & Hc').
    { intros e He. rewrite Hlen1. apply Hr. right. exact He. }
    exists c'. simpl. rewrite H1. simpl. split; [exact H' | ].
    split; [congruence | ].
    intros i. rewrite Hc', Hc1. split.
    + intros [[H | H] | (e & He & Ht)].
      * left. exact H.
      * right. exists a. split; [left | exact H].
      * right. exists e. split; [right; exact He | exact Ht].
    + intros [H | (e & He & Ht)].
      * left. left. exact H.
      * apply elem_of_cons in He as [-> | He].
        -- left. right. exact Ht.
        -- right. exists e. split; assumption.
Qed.

Lemma mark_all_Err (C : list Edge) (covered0 : list bool) :
  (exists e, e ∈ C /\ ~ edge_in_range (Z.of_nat (length covered0)) e) ->
  foldM mark_covered C covered0 = Err OutOfBounds.
Proof.
  revert covered0. induction C as [ | a C IH]; intros covered0 (e & He & Hne).
  - inversion He.
  - simpl. destruct (edge_in_range_dec (Z.of_nat (length covered0)) a) as [Ha | Ha].
    + destruct (mark_covered_Ok covered0 a Ha) as (c1 & H1 & Hlen1 & _).
      rewrite H1. simpl. apply IH. exists e. rewrite Hlen1. split; [ | exact Hne].
      apply elem_of_cons in He as [-> | He]; [contradiction | exact He].
    + rewrite (mark_covered_Err covered0 a Ha). reflexivity.
Qed.

(** The second loop of [isEdgeCover]. *)
Lemma all_covered_spec (covered : list bool) (range : list Z) :
  (forall i, i ∈ range -> in_range (Z.of_nat (length covered)) i) ->
  exists b, all_covered covered range = Ok b /\
    (b = true <-> forall i, i ∈ range -> zlookup covered i = Some true).
Proof.
  induction range as [ | i range IH]; intros Hr.
  - exists true. split; [reflexivity | ]. split; [ | reflexivity].
    intros _ i Hi. inversion Hi.
  - destruct (vget_in_range covered i) as (ci & Hget & Hci).
    { apply Hr. left. }
    simpl. rewrite Hget. simpl. destruct ci.
    + destruct IH as (b & Hb & Hiff).
      { intros j Hj. apply Hr. right. exact Hj. }
      exists b. split; [exact Hb | ]. rewrite Hiff. split.
      * intros H j Hj. apply elem_of_cons in Hj as [-> | Hj]; auto.
      * intros H j Hj. apply H. right. exact Hj.
    + exists false. split; [reflexivity | ]. split; [discriminate | ].
      intros H. specialize (H i (list_elem_of_here _ _)). congruence.
Qed.

Lemma isEdgeCover_spec (n : Z) (cover : list Edge) :
  0 <= n <= PTRDIFF_MAX ->
  (forall e, e ∈ cover -> edge_in_range n e) ->
  exists b, isEdgeCover n cover = Ok b /\ (b = true <-> covers n cover).
Proof.
  intros Hn Hr. unfold isEdgeCover.
  rewrite (vector_make_Ok n false Hn). simpl.
  assert (Hlen0 : Z.of_nat (length (replicate (Z.to_nat n) false)) = n).
  { rewrite length_replicate. lia. }
  destruct (mark_all_Ok cover (replicate (Z.to_nat n) false)) as (c & Hc & Hlen & Hmark).
  { rewrite Hlen0. exact Hr. }
  rewrite Hc. simpl.
  destruct (all_covered_spec c (upto n)) as (b & Hb & Hiff).
  { intros i Hi. rewrite Hlen, Hlen0. apply elem_of_upto. exact Hi. }
  exists b. split; [exact Hb | ]. rewrite Hiff. unfold covers. split.
  - intros H i Hi. specialize (H i (proj2 (elem_of_upto n i) Hi)).
    apply Hmark in H as [H | H]; [ | exact H].
    rewrite zlookup_replicate in H by (unfold in_range in Hi; lia). discriminate.
  - intros H i Hi. apply Hmark. right. apply H. apply elem_of_upto. exact Hi.
Qed.

Lemma INT_MAX_le_PTRDIFF_MAX : INT_MAX <= PTRDIFF_MAX.
Proof. unfold INT_MAX, PTRDIFF_MAX. lia. Qed.

(** C7.  For a vertex count [n] and a candidate whose endpoints all lie in
    [[0, n)], [isEdgeCover] returns a boolean, and it returns [true] exactly
    when every vertex in [[0, n)] is an endpoint of some candidate edge.  The
    function is a function of [n] and the candidate alone. *)
Theorem isEdgeCover_true_iff_covers (n : Z) (cover : list Edge) :
  0 <= n <= INT_MAX ->
  (forall e, e ∈ cover -> edge_in_range n e) ->
  (exists b, isEdgeCover n cover = Ok b) /\
  (isEdgeCover n cover = Ok true <-> covers n cover).
Proof.
  intros Hn Hr.
  destruct (isEdgeCover_spec n cover) as (b & Hb & Hiff).
  { pose proof INT_MAX_le_PTRDIFF_MAX. lia. }
  { exact Hr. }
  split; [exists b; exact Hb | ].
  rewrite Hb. rewrite <- Hiff. split; [intros H; congruence | intros ->; reflexivity].
Qed.

Lemma isEdgeCover_true_iff_covers_witness :
  (exists b, isEdgeCover 3 [mkEdge 0 1; mkEdge 1 2] = Ok b) /\
  (isEdgeCover 3 [mkEdge 0 1; mkEdge 1 2] = Ok true <->
   covers 3 [mkEdge 0 1; mkEdge 1 2]).
Proof.
  apply (isEdgeCover_true_iff_covers 3 [mkEdge 0 1; mkEdge 1 2]).
  - unfold INT_MAX. lia.
  - intros e He. unfold edge_in_range, in_range.
    repeat (apply elem_of_cons in He as [-> | He]; [simpl; lia | ]).
    inversion He.
Defined.

(** C10.  [isEdgeCover] writes [covered[e.u]] and [covered[e.v]] without a
    range check: for a vertex count [n] it runs out of bounds exactly when
    some candidate edge has an endpoint outside [[0, n)]; in particular every
    non-empty candidate is out of bounds when [n = 0]. *)
Theorem isEdgeCover_out_of_bounds_iff (n : Z) (cover : list Edge) :
  0 <= n <= INT_MAX ->
  (isEdgeCover n cover = Err OutOfBounds <->
   exists e, e ∈ cover /\ ~ edge_in_range n e) /\
  (n = 0 -> cover <> [] -> isEdgeCover n cover = Err OutOfBounds).
Proof.
  intros Hn.
  assert (Hn' : 0 <= n <= PTRDIFF_MAX).
  { pose proof INT_MAX_le_PTRDIFF_MAX. lia. }
  assert (Hbad : (exists e, e ∈ cover /\ ~ edge_in_range n e) ->
                 isEdgeCover n cover = Err OutOfBounds).
  { intros Hex. unfold isEdgeCover. rewrite (vector_make_Ok n false Hn'). simpl.
    rewrite mark_all_Err; [reflexivity | ].
    rewrite length_replicate, Z2Nat.id by lia. exact Hex. }
  split; [split | ].
  - intros Herr. destruct (edges_in_range_dec n cover) as [Hall | Hex]; [ | exact Hex].
    destruct (isEdgeCover_spec n cover Hn' Hall) as (b & Hb & _). congruence.
  - exact Hbad.
  - intros -> Hne. apply Hbad. destruct cover as [ | e cover]; [congruence | ].
    exists e. split; [left | ]. unfold edge_in_range, in_range. lia.
Qed.

Lemma isEdgeCover_out_of_bounds_iff_witness :
  (isEdgeCover 0 [mkEdge 0 0] = Err OutOfBounds <->
   exists e, e ∈ [mkEdge 0 0] /\ ~ edge_in_range 0 e) /\
  (0 = 0 -> [mkEdge 0 0] <> [] -> isEdgeCover 0 [mkEdge 0 0] = Err OutOfBounds).
Proof.
  apply (isEdgeCover_out_of_bounds_iff 0 [mkEdge 0 0]).
  unfold INT_MAX. lia.
Defined.

(** * graph.hpp: the constructor *)

Lemma neighbours_of_elem (e : Edge) (i x : Z) :
  x ∈ neighbours_of e i <-> (eu e = i /\ ev e = x) \/ (ev e = i /\ eu e = x).
Proof.
  unfold neighbours_of.
  destruct (decide (i = eu e)) as [H1 | H1], (decide (i = ev e)) as [H2 | H2];
    simpl; rewrite ?elem_of_cons, ?elem_of_nil; intuition congruence.
Qed.

Lemma neighbours_elem (es : list Edge) (i x : Z) :
  x ∈ neighbours es i <->
  exists e, e ∈ es /\ ((eu e = i /\ ev e = x) \/ (ev e = i /\ eu e = x)).
Proof.
  unfold neighbours. induction es as [ | a es IH]; simpl.
  - rewrite elem_of_nil. split; [tauto | ]. intros (e & He & _). inversion He.
  - rewrite elem_of_app, IH, neighbours_of_elem. split.
    + intros [H | (e & He & H)].
      * exists a. split; [left | exact H].
      * exists e. split; [right; exact He | exact H].
    + intros (e & He & H). apply elem_of_cons in He as [-> | He].
      * left. exact H.
      * right. exists e. split; assumption.
Qed.

Lemma neighbours_app (es1 es2 : list Edge) (i : Z) :
  neighbours (es1 ++ es2) i = neighbours es1 i ++ neighbours es2 i.
Proof. unfold neighbours. rewrite map_app, concat_app. reflexivity. Qed.

Lemma neighbours_nil_iff (es : list Edge) (i : Z) :
  neighbours es i = [] <-> forall e, e ∈ es -> ~ touches e i.
Proof.
  split.
  - intros Hnil e He [Ht | Ht].
    + assert (Hx : ev e ∈ neighbours es i).
      { apply neighbours_elem. exists e. split; [exact He | left; split; [exact Ht | reflexivity]]. }
      rewrite Hnil in Hx. inversion Hx.
    + assert (Hx : eu e ∈ neighbours es i).
      { apply neighbours_elem. exists e. split; [exact He | right; split; [exact Ht | reflexivity]]. }
      rewrite Hnil in Hx. inversion Hx.
  - intros Hno. destruct (neighbours es i) as [ | x l] eqn:E; [reflexivity | ].
    assert (Hx : x ∈ neighbours es i) by (rewrite E; left).
    apply neighbours_elem in Hx as (e & He & [[Hu _] | [Hv _]]).
    + exfalso. apply (Hno e He). left. exact Hu.
    + exfalso. apply (Hno e He). right. exact Hv.
Qed.

Lemma add_adjacency_Ok (vertices : Z) (a : list (list Z)) (e : Edge) :
  Z.of_nat (length a) = vertices ->
  edge_in_range vertices e ->
  exists a', add_adjacency vertices a e = Ok a' /\
    length a' = length a /\
    forall i l, zlookup a i = Some l ->
                zlookup a' i = Some (l ++ neighbours_of e i).
Proof.
  intros Hlen [Hu Hv]. unfold in_range in Hu, Hv. unfold add_adjacency.
  destruct (Z.ltb_spec (eu e) 0); [lia | ].
  destruct (Z.geb_spec (eu e) vertices); [lia | ].
  destruct (Z.ltb_spec (ev e) 0); [lia | ].
  destruct (Z.geb_spec (ev e) vertices); [lia | ]. simpl.
  destruct (vget_in_range a (eu e)) as (au & Hau & Hzu); [lia | ].
  rewrite Hau. simpl. rewrite vset_in_range by lia. simpl.
  destruct (vget_in_range (<[Z.to_nat (eu e) := au ++ [ev e]]> a) (ev e))
    as (av & Hav & Hzv); [rewrite length_insert; lia | ].
  rewrite Hav. simpl. rewrite vset_in_range by (rewrite length_insert; lia).
  eexists. split; [reflexivity | ]. split; [rewrite !length_insert; reflexivity | ].
  intros i l Hl. rewrite zlookup_insert in Hzv by lia.
  rewrite zlookup_insert by (rewrite length_insert; lia).
  rewrite zlookup_insert by lia. unfold neighbours_of.
  destruct (decide (i = ev e)) as [-> | Hiv].
  - destruct (decide (ev e = eu e)) as [Heq | Hne].
    + injection Hzv as <-. rewrite Heq in Hl. rewrite Hzu in Hl. injection Hl as <-.
      rewrite <- app_assoc. reflexivity.
    + rewrite Hzv in Hl. injection Hl as <-. reflexivity.
  - destruct (decide (i = eu e)) as [-> | Hiu].
    + rewrite Hzu in Hl. injection Hl as <-. rewrite app_nil_r. reflexivity.
    + rewrite Hl, app_nil_r. reflexivity.
Qed.

Lemma add_adjacency_Err (vertices : Z) (a : list (list Z)) (e : Edge) :
  ~ edge_in_range vertices e ->
  add_adjacency vertices a e = Err (InvalidArgument "Invalid vertex index").
Proof.
  intros Hne. unfold add_adjacency, edge_in_range, in_range in *.
  destruct (Z.ltb_spec (eu e) 0); [reflexivity | ].
  destruct (Z.geb_spec (eu e) vertices); [reflexivity | ].
  destruct (Z.ltb_spec (ev e) 0); [reflexivity | ].
  destruct (Z.geb_spec (ev e) vertices); [reflexivity | ]. lia.
Qed.

(** The loop that builds the adjacency lists. *)
Lemma build_adjacency (vertices : Z) (es : list Edge) (a : list (list Z)) :
  Z.of_nat (length a) = vertices ->
  ((forall e, e ∈ es -> edge_in_range vertices e) /\
   exists a', foldM (add_adjacency vertices) es a = Ok a' /\
     length a' = length a /\
     forall i l, zlookup a i = Some l ->
                 zlookup a' i = Some (l ++ neighbours es i)) \/
  ((exists e, e ∈ es /\ ~ edge_in_range vertices e) /\
   foldM (add_adjacency vertices) es a = Err (InvalidArgument "Invalid vertex index")).
Proof.
  revert a. induction es as [ | e es IH]; intros a Hlen.
  - left. split; [intros e He; inversion He | ].
    exists a. split; [reflexivity | ]. split; [reflexivity | ].
    intros i l Hl. unfold neighbours. simpl. rewrite app_nil_r. exact Hl.
  - destruct (edge_in_range_dec vertices e) as [He | He].
    + destruct (add_adjacency_Ok vertices a e Hlen He) as (a1 & H1 & Hlen1 & Hadj1).
      destruct (IH a1) as [(Hall & a' & H' & Hlen' & Hadj') | (Hex & Herr)].
      * congruence.
      * left. split.
        { intros x Hx. apply elem_of_cons in Hx as [-> | Hx]; auto. }
        exists a'. simpl. rewrite H1. simpl. split; [exact H' | ].
        split; [congruence | ].
        intros i l Hl. rewrite (Hadj' i _ (Hadj1 i l Hl)).
        change (e :: es) with ([e] ++ es). rewrite neighbours_app.
        unfold neighbours at 2. simpl. rewrite app_nil_r, app_assoc. reflexivity.
      * right. split.
        { destruct Hex as (x & Hx & Hne). exists x. split; [right; exact Hx | exact Hne]. }
        simpl. rewrite H1. simpl. exact Herr.
    + right. split; [exists e; split; [left | exact He] | ].
      simpl. rewrite (add_adjacency_Err vertices a e He). reflexivity.
Qed.

(** The loop that looks for an isolated vertex. *)
Lemma check_isolated (a : list (list Z)) (range : list Z) :
  (forall i, i ∈ range -> in_range (Z.of_nat (length a)) i) ->
  ((forall i, i ∈ range -> zlookup a i <> Some []) /\
   foldM (check_not_isolated a) range tt = Ok tt) \/
  ((exists i, i ∈ range /\ zlookup a i = Some []) /\
   foldM (check_not_isolated a) range tt =
     Err (InvalidArgument "Graph contains isolated vertices - edge cover impossible")).
Proof.
  induction range as [ | i range IH]; intros Hr.
  - left. split; [intros i Hi; inversion Hi | reflexivity].
  - destruct (vget_in_range a i) as (ai & Hget & Hai); [apply Hr; left | ].
    assert (Hstep : check_not_isolated a tt i =
              match ai with
              | [] => Err (InvalidArgument
                        "Graph contains isolated vertices - edge cover impossible")
              | _ :: _ => Ok tt
              end).
    { unfold check_not_isolated. rewrite Hget. reflexivity. }
    simpl foldM. rewrite Hstep.
    destruct ai as [ | x ai].
    + right. split; [exists i; split; [left | exact Hai] | reflexivity].
    + simpl. destruct IH as [(Hall & Hok) | (Hex & Herr)].
      * intros j Hj. apply Hr. right. exact Hj.
      * left. split; [ | exact Hok].
        intros j Hj. apply elem_of_cons in Hj as [-> | Hj]; [congruence | auto].
      * right. split; [ | exact Herr].
        destruct Hex as (j & Hj & Hnil). exists j. split; [right; exact Hj | exact Hnil].
Qed.

Lemma construct_positive (vertices : Z) (edgeList : list Edge) :
  0 < vertices <= PTRDIFF_MAX ->
  ((forall e, e ∈ edgeList -> edge_in_range vertices e) /\
   (forall i, in_range vertices i -> exists e, e ∈ edgeList /\ touches e i) /\
   exists g, construct vertices edgeList = Ok g /\
     well_formed g /\ n g = vertices /\ edges g = edgeList) \/
  ((exists e, e ∈ edgeList /\ ~ edge_in_range vertices e) /\
   construct vertices edgeList = Err (InvalidArgument "Invalid vertex index")) \/
  ((forall e, e ∈ edgeList -> edge_in_range vertices e) /\
   (exists i, in_range vertices i /\ forall e, e ∈ edgeList -> ~ touches e i) /\
   construct vertices edgeList =
     Err (InvalidArgument "Graph contains isolated vertices - edge cover impossible")).
Proof.
  intros Hv. unfold construct.
  rewrite (vector_make_Ok vertices ([] : list Z)) by lia. simpl.
  destruct (Z.leb_spec vertices 0); [lia | ].
  set (adj0 := replicate (Z.to_nat vertices) ([] : list Z)).
  assert (Hlen0 : Z.of_nat (length adj0) = vertices).
  { unfold adj0. rewrite length_replicate. lia. }
  destruct (build_adjacency vertices edgeList adj0 Hlen0)
    as [(Hall & adj1 & Hadj1 & Hlen1 & Hnb) | (Hex & Herr)].
  - rewrite Hadj1. simpl.
    assert (Hadj : forall i, in_range vertices i ->
              zlookup adj1 i = Some (neighbours edgeList i)).
    { intros i Hi. apply (Hnb i []). unfold adj0.
      apply zlookup_replicate. unfold in_range in Hi. lia. }
    destruct (check_isolated adj1 (upto vertices)) as [(Hno & Hok) | (Hiso & Herr)].
    + intros i Hi. rewrite Hlen1, Hlen0. apply elem_of_upto. exact Hi.
    + left. split; [exact Hall | ].
      assert (Htouch : forall i, in_range vertices i ->
                exists e, e ∈ edgeList /\ touches e i).
      { intros i Hi. specialize (Hno i (proj2 (elem_of_upto _ _) Hi)).
        rewrite (Hadj i Hi) in Hno.
        destruct (neighbours edgeList i) as [ | x l] eqn:E; [congruence | ].
        assert (Hx : x ∈ neighbours edgeList i) by (rewrite E; left).
        apply neighbours_elem in Hx as (e & He & [[Hu _] | [Hv' _]]).
        - exists e. split; [exact He | left; exact Hu].
        - exists e. split; [exact He | right; exact Hv']. }
      split; [exact Htouch | ].
      rewrite Hok. simpl. eexists. split; [reflexivity | ].
      split; [ | split; reflexivity].
      unfold well_formed. simpl.
      split; [lia | ]. split; [exact Hall | ]. split; [lia | ].
      split; [exact Hadj | exact Htouch].
    + right. right. split; [exact Hall | ]. split.
      * destruct Hiso as (i & Hi & Hnil). apply elem_of_upto in Hi.
        exists i. split; [exact Hi | ]. apply neighbours_nil_iff.
        rewrite (Hadj i Hi) in Hnil. congruence.
      * rewrite Herr. reflexivity.
  - right. left. split; [exact Hex | ]. rewrite Herr. reflexivity.
Qed.

Lemma construct_zero (edgeList : list Edge) :
  construct 0 edgeList = Err (InvalidArgument "Number of vertices must be positive").
Proof. reflexivity. Qed.

Lemma add_adjacency_length (vertices : Z) (a a' : list (list Z)) (e : Edge) :
  add_adjacency vertices a e = Ok a' -> length a' = length a.
Proof.
  unfold add_adjacency.
  destruct ((eu e <? 0) || (eu e >=? vertices) || (ev e <? 0) || (ev e >=? vertices));
    [discriminate | ].
  intros H. bind_inv H. bind_inv H. bind_inv H.
  apply vset_Ok in Ha0 as [_ ->]. apply vset_Ok in H as [_ ->].
  rewrite !length_insert. reflexivity.
Qed.

Lemma check_isolated_reads (a : list (list Z)) (range : list Z) (r : unit) :
  foldM (check_not_isolated a) range tt = Ok r ->
  forall i, i ∈ range -> 0 <= i < Z.of_nat (length a).
Proof.
  induction range as [ | j range IH]; intros Hrun i Hi; [inversion Hi | ].
  simpl in Hrun. bind_inv Hrun. destruct a0.
  apply elem_of_cons in Hi as [-> | Hi]; [ | exact (IH Hrun i Hi)].
  unfold check_not_isolated in Ha. bind_inv Ha.
  apply vget_Ok in Ha0. eapply zlookup_Some_range. exact Ha0.
Qed.

(** A graph that the constructor returned is well formed. *)
Lemma construct_Ok (vertices : Z) (edgeList : list Edge) (g : MinEdgeCover) :
  construct vertices edgeList = Ok g ->
  well_formed g /\ n g = vertices /\ edges g = edgeList.
Proof.
  intros Hc.
  assert (Hv : 0 < vertices <= PTRDIFF_MAX).
  { unfold construct in Hc. bind_inv Hc.
    destruct (Z.leb_spec vertices 0); [discriminate | ].
    bind_inv Hc. bind_inv Hc.
    apply vector_make_inv in Ha as [-> Hs].
    assert (Hlen : length a0 = Z.to_nat (size_t_of_int vertices)).
    { rewrite <- (length_replicate (Z.to_nat (size_t_of_int vertices)) ([] : list Z)).
      eapply (foldM_invariant (fun _ a' => length a' = length _)).
      - exact Ha0.
      - reflexivity.
      - intros pre e post s0 s1 _ Hs0 Hstep.
        rewrite (add_adjacency_length _ _ _ _ Hstep). exact Hs0. }
    assert (Hlast : 0 <= vertices - 1 < Z.of_nat (length a0)).
    { eapply check_isolated_reads; [exact Ha1 | ]. apply elem_of_upto.
      unfold in_range. lia. }
    assert (Hle : size_t_of_int vertices <= vertices).
    { unfold size_t_of_int. apply Z.mod_le; lia. }
    lia. }
  destruct (construct_positive vertices edgeList Hv)
    as [(_ & _ & g' & Hg' & Hwf) | [(_ & Herr) | (_ & _ & Herr)]];
    [ | congruence | congruence].
  rewrite Hg' in Hc. injection Hc as <-. exact Hwf.
Qed.

(** X4.  The constructor on a vertex count that is a non-negative [int]:
    it throws [std::invalid_argument] exactly when the count is zero, an
    edge has an endpoint outside [[0, vertices)], or a vertex has no incident
    edge; otherwise it returns a graph. *)
Lemma construct_invalid_argument_iff (vertices : Z) (edgeList : list Edge) :
  0 <= vertices <= INT_MAX ->
  ((exists what, construct vertices edgeList = Err (InvalidArgument what)) <->
   vertices = 0 \/
   (exists e, e ∈ edgeList /\ ~ edge_in_range vertices e) \/
   (exists i, in_range vertices i /\ forall e, e ∈ edgeList -> ~ touches e i)) /\
  ((exists g, construct vertices edgeList = Ok g) \/
   (exists what, construct vertices edgeList = Err (InvalidArgument what))).
Proof.
  intros Hv. pose proof INT_MAX_le_PTRDIFF_MAX as Hmax.
  destruct (decide (vertices = 0)) as [-> | Hnz].
  - rewrite construct_zero. split; [ | right; eexists; reflexivity].
    split; [intros _; left; reflexivity | intros _; eexists; reflexivity].
  - destruct (construct_positive vertices edgeList)
      as [(Hall & Htouch & g & Hg & _) | [(Hex & Herr) | (Hall & Hiso & Herr)]];
      [lia | | | ].
    + split; [ | left; exists g; exact Hg]. rewrite Hg. split.
      * intros (what & Hw). discriminate.
      * intros [H0 | [(e & He & Hne) | (i & Hi & Hno)]].
        -- contradiction.
        -- exfalso. apply Hne. apply Hall. exact He.
        -- exfalso. destruct (Htouch i Hi) as (e & He & Ht). exact (Hno e He Ht).
    + split; [ | right; eexists; exact Herr]. split.
      * intros _. right. left. exact Hex.
      * intros _. eexists. exact Herr.
    + split; [ | right; eexists; exact Herr]. split.
      * intros _. right. right. exact Hiso.
      * intros _. eexists. exact Herr.
Qed.

(** C5.  A negative vertex count never reaches the test [vertices <= 0]:
    the member initialiser [adj(vertices)] runs first and throws the length
    error of [std::vector], so construction fails, but not with
    [std::invalid_argument]. *)
Theorem construct_negative_length_error (vertices : Z) (edgeList : list Edge) :
  INT_MIN <= vertices < 0 ->
  construct vertices edgeList = Err LengthError.
Proof.
  intros Hv. unfold construct.
  rewrite (vector_make_negative vertices ([] : list Z) Hv). reflexivity.
Qed.

Lemma construct_negative_length_error_witness :
  construct (-1) [] = Err LengthError.
Proof.
  apply (construct_negative_length_error (-1) []). unfold INT_MIN. lia.
Defined.

(** * graph.hpp: the matching engine *)

Lemma vertex_disjoint_nil : vertex_disjoint [].
Proof. intros i j a b Ha. rewrite lookup_nil in Ha. discriminate. Qed.

Lemma vertex_disjoint_snoc (M : list Edge) (e : Edge) :
  vertex_disjoint M ->
  (forall e' x, e' ∈ M -> touches e' x -> ~ touches e x) ->
  vertex_disjoint (M ++ [e]).
Proof.
  intros HM Hnew i j a b Ha Hb Hij x Hax Hbx.
  apply lookup_snoc_Some in Ha as [[Hi Ha] | [Hi <-]];
    apply lookup_snoc_Some in Hb as [[Hj Hb] | [Hj <-]].
  - exact (HM i j a b Ha Hb Hij x Hax Hbx).
  - apply (Hnew a x); [eapply list_elem_of_lookup_2; exact Ha | exact Hax | exact Hbx].
  - apply (Hnew b x); [eapply list_elem_of_lookup_2; exact Hb | exact Hbx | exact Hax].
  - lia.
Qed.

Lemma Edge_eq_touches (a b : Edge) :
  Edge_eq a b = true -> touches a (eu b) /\ touches b (eu a).
Proof.
  unfold Edge_eq, touches. intros H.
  apply orb_true_iff in H as [H | H]; apply andb_true_iff in H as [H1 H2];
    apply Z.eqb_eq in H1, H2; lia.
Qed.

Lemma vertex_disjoint_no_duplicate (M : list Edge) :
  vertex_disjoint M -> no_duplicate_edges M.
Proof.
  intros HM i j a b Ha Hb Hij.
  destruct (Edge_eq a b) eqn:E; [ | reflexivity].
  apply Edge_eq_touches in E as [Ht _].
  exfalso. apply (HM i j a b Ha Hb Hij (eu b) Ht). left. reflexivity.
Qed.

Lemma greedy_step_spec (n : Z) (pre : list Edge) (st : greedy_state) (e : Edge) :
  edge_in_range n e ->
  greedy_inv n pre st ->
  exists st', greedy_step st e = Ok st' /\ greedy_inv n (pre ++ [e]) st'.
Proof.
  intros [Hu Hv] ((Hml & Hmr) & Hul & Hused & Hfree & Hsym & Hsub & Hdis).
  unfold in_range in Hu, Hv. unfold greedy_step.
  assert (Hkeep : greedy_inv n (pre ++ [e]) st).
  { repeat split; try assumption; try apply Hused.
    intros x Hx. apply elem_of_app. left. apply Hsub. exact Hx. }
  destruct (vget_in_range (g_used st) (eu e)) as (bu & Hgu & Hzu); [lia | ].
  rewrite Hgu. simpl. destruct bu; [exists st; split; [reflexivity | exact Hkeep] | ].
  destruct (vget_in_range (g_used st) (ev e)) as (bv & Hgv & Hzv); [lia | ].
  rewrite Hgv. simpl. destruct bv; [exists st; split; [reflexivity | exact Hkeep] | ].
  rewrite (vset_in_range (g_match st) (eu e)) by lia. simpl.
  rewrite vset_in_range by (rewrite length_insert; lia). simpl.
  rewrite (vset_in_range (g_used st) (ev e)) by lia. simpl.
  rewrite vset_in_range by (rewrite length_insert; lia). simpl.
  eexists. split; [reflexivity | ].
  assert (Hm2 : forall i, zlookup (<[Z.to_nat (ev e) := eu e]>
                    (<[Z.to_nat (eu e) := ev e]> (g_match st))) i =
                  if decide (i = ev e) then Some (eu e)
                  else if decide (i = eu e) then Some (ev e)
                  else zlookup (g_match st) i).
  { intros i. rewrite zlookup_insert by (rewrite length_insert; lia).
    destruct (decide (i = ev e)); [reflexivity | ].
    rewrite zlookup_insert by lia. reflexivity. }
  assert (Hu2 : forall i, zlookup (<[Z.to_nat (eu e) := true]>
                    (<[Z.to_nat (ev e) := true]> (g_used st))) i =
                  if decide (i = eu e) then Some true
                  else if decide (i = ev e) then Some true
                  else zlookup (g_used st) i).
  { intros i. rewrite zlookup_insert by (rewrite length_insert; lia).
    destruct (decide (i = eu e)); [reflexivity | ].
    rewrite zlookup_insert by lia. reflexivity. }
  assert (Hfu : zlookup (g_match st) (eu e) = Some (-1)) by (apply Hfree; exact Hzu).
  assert (Hfv : zlookup (g_match st) (ev e) = Some (-1)) by (apply Hfree; exact Hzv).
  unfold greedy_inv. simpl. repeat split.
  - rewrite !length_insert. exact Hml.
  - intros i m. rewrite Hm2.
    destruct (decide (i = ev e)); [intros H; injection H as <-; right; split; lia | ].
    destruct (decide (i = eu e)); [intros H; injection H as <-; right; split; lia | ].
    apply Hmr.
  - rewrite !length_insert. exact Hul.
  - rewrite Hu2. intros H.
    destruct (decide (i = eu e)) as [-> | Hiu].
    { exists e. split; [apply elem_of_app; right; left | left; reflexivity]. }
    destruct (decide (i = ev e)) as [-> | Hiv].
    { exists e. split; [apply elem_of_app; right; left | right; reflexivity]. }
    apply Hused in H as (x & Hx & Ht).
    exists x. split; [apply elem_of_app; left; exact Hx | exact Ht].
  - rewrite Hu2. intros (x & Hx & Ht).
    destruct (decide (i = eu e)); [reflexivity | ].
    destruct (decide (i = ev e)); [reflexivity | ].
    apply elem_of_app in Hx as [Hx | Hx].
    + apply Hused. exists x. split; assumption.
    + apply list_elem_of_singleton in Hx as ->. unfold touches in Ht. lia.
  - intros i. rewrite Hu2, Hm2.
    destruct (decide (i = eu e)); [discriminate | ].
    destruct (decide (i = ev e)); [discriminate | ].
    apply Hfree.
  - intros i m Hi. rewrite Hm2.
    destruct (decide (i = ev e)) as [-> | Hiv].
    { intros H _. injection H as <-. rewrite Hm2.
      destruct (decide (eu e = ev e)) as [Heq | Hne]; [congruence | ].
      destruct (decide (eu e = eu e)); [reflexivity | congruence]. }
    destruct (decide (i = eu e)) as [-> | Hiu].
    { intros H _. injection H as <-. rewrite Hm2.
      destruct (decide (ev e = ev e)); [reflexivity | congruence]. }
    intros Hm Hne. specialize (Hsym i m Hi Hm Hne). rewrite Hm2.
    unfold in_range in Hi.
    destruct (decide (m = ev e)) as [-> | ?]; [rewrite Hsym in Hfv; injection Hfv; lia | ].
    destruct (decide (m = eu e)) as [-> | ?]; [rewrite Hsym in Hfu; injection Hfu; lia | ].
    exact Hsym.
  - intros x Hx. apply elem_of_app in Hx as [Hx | Hx].
    + apply elem_of_app. left. apply Hsub. exact Hx.
    + apply elem_of_app. right. exact Hx.
  - apply vertex_disjoint_snoc; [exact Hdis | ].
    intros e' x He' Htx Hex.
    assert (Hx : zlookup (g_used st) x = Some true).
    { apply Hused. exists e'. split; assumption. }
    destruct Hex as [<- | <-]; congruence.
Qed.

(** The greedy seed always succeeds on a well-formed graph. *)
Lemma greedy_spec (g : MinEdgeCover) :
  well_formed g ->
  exists st, greedy g = Ok st /\ greedy_inv (n g) (edges g) st.
Proof.
  intros (Hn & Hedges & _). unfold greedy.
  rewrite (vector_make_Ok (n g) (-1)) by lia. simpl.
  rewrite (vector_make_Ok (n g) false) by lia. simpl.
  apply (foldM_total (greedy_inv (n g))).
  - unfold greedy_inv, match_in_range, symmetric_match. simpl.
    rewrite !length_replicate. repeat split; try lia.
    + intros i m Hm. left.
      pose proof (zlookup_Some_range _ _ _ Hm) as Hr.
      rewrite length_replicate in Hr. rewrite zlookup_replicate in Hm by lia. congruence.
    + intros Hi. pose proof (zlookup_Some_range _ _ _ Hi) as Hr.
      rewrite length_replicate in Hr. rewrite zlookup_replicate in Hi by lia. discriminate.
    + intros (e & He & _). inversion He.
    + intros i Hi. pose proof (zlookup_Some_range _ _ _ Hi) as Hr.
      rewrite length_replicate in Hr. apply zlookup_replicate. lia.
    + intros i m Hi Hm Hne. unfold in_range in Hi.
      rewrite zlookup_replicate in Hm by lia. congruence.
    + intros e He. inversion He.
    + apply vertex_disjoint_nil.
  - intros pre e post st Hl Hinv. apply greedy_step_spec; [ | exact Hinv].
    apply Hedges. rewrite Hl. apply elem_of_app. right. left.
Qed.

(** The loop that seeds the queue with the unmatched vertices. *)
Lemma bfs_init_spec (g : MinEdgeCover) (match_ : list Z) :
  0 <= n g <= PTRDIFF_MAX ->
  match_in_range (n g) match_ ->
  exists st, bfs_init g match_ = Ok st /\
    bfs_inv (n g) match_ st /\ (length (q st) <= Z.to_nat (n g))%nat.
Proof.
  intros Hn [Hml Hmr]. unfold bfs_init.
  rewrite (vector_make_Ok (n g) (-1)) by lia. simpl.
  rewrite (vector_make_Ok (n g) false) by lia. simpl.
  destruct (foldM_total
    (fun pre st =>
       Z.of_nat (length (parent st)) = n g /\
       Z.of_nat (length (visited st)) = n g /\
       (forall x, x ∈ q st -> in_range (n g) x) /\
       (forall i, i ∈ pre -> zlookup match_ i = Some (-1) ->
                  zlookup (visited st) i = Some true) /\
       pathEnd st = -1 /\
       (length (q st) <= length pre)%nat)
    (bfs_root match_) (upto (n g))
    (mkBfs (replicate (Z.to_nat (n g)) (-1)) (replicate (Z.to_nat (n g)) false) [] (-1)))
    as (st & Hst & Hp & Hv & Hq & Hroots & Hend & Hlen).
  - simpl. rewrite !length_replicate. repeat split; try lia.
    + inversion H.
    + inversion H.
    + intros i Hi. inversion Hi.
  - intros pre i post st Hl (Hp & Hv & Hq & Hroots & Hend & Hlen).
    assert (Hi : in_range (n g) i).
    { apply elem_of_upto. rewrite Hl. apply elem_of_app. right. left. }
    unfold in_range in Hi. unfold bfs_root.
    destruct (vget_in_range match_ i) as (mi & Hget & Hmi); [lia | ].
    rewrite Hget. simpl. destruct (Z.eqb_spec mi (-1)) as [-> | Hne].
    + rewrite vset_in_range by lia. simpl. eexists. split; [reflexivity | ].
      simpl. rewrite length_insert, !length_app. simpl.
      split; [exact Hp | ]. split; [exact Hv | ]. split.
      { intros x Hx. apply elem_of_app in Hx as [Hx | Hx]; [auto | ].
        apply list_elem_of_singleton in Hx as ->. exact Hi. }
      split; [ | split; [exact Hend | lia]].
      intros j Hj Hmj. rewrite zlookup_insert by lia.
      destruct (decide (j = i)); [reflexivity | ].
      apply elem_of_app in Hj as [Hj | Hj]; [auto | ].
      apply list_elem_of_singleton in Hj. contradiction.
    + exists st. split; [reflexivity | ]. rewrite length_app. simpl.
      split; [exact Hp | ]. split; [exact Hv | ]. split; [exact Hq | ].
      split; [ | split; [exact Hend | lia]].
      intros j Hj Hmj. apply elem_of_app in Hj as [Hj | Hj]; [auto | ].
      apply list_elem_of_singleton in Hj as ->. congruence.
  - exists st. split; [exact Hst | ]. split.
    + unfold bfs_inv. repeat split; try assumption; try apply Hq; try assumption.
      intros i Hi. apply Hroots. apply elem_of_upto. exact Hi.
    + unfold upto in Hlen. rewrite length_seqZ in Hlen. exact Hlen.
Qed.

(** The scan of one adjacency list: it never records a path end, because an
    unvisited neighbour is a matched vertex, and it does not add work. *)
Lemma bfs_neighbours_spec (nv : Z) (match_ : list Z) (u : Z) (vs : list Z)
    (st : bfs_state) :
  match_in_range nv match_ ->
  (forall v, v ∈ vs -> in_range nv v) ->
  bfs_inv nv match_ st ->
  exists st', bfs_neighbours match_ u vs st = Ok st' /\
    bfs_inv nv match_ st' /\ (bfs_measure st' <= bfs_measure st)%nat.
Proof.
  intros [Hml Hmr]. revert st.
  induction vs as [ | v vs IH]; intros st Hvs (Hp & Hv & Hq & Hroots & Hend).
  - exists st. split; [reflexivity | ]. split; [ | lia].
    unfold bfs_inv. auto.
  - assert (Hvr : in_range nv v) by (apply Hvs; left).
    assert (Hvs' : forall w, w ∈ vs -> in_range nv w) by (intros w Hw; apply Hvs; right; exact Hw).
    unfold in_range in Hvr. simpl.
    destruct (vget_in_range (visited st) v) as (seen & Hget & Hseen); [lia | ].
    rewrite Hget. simpl. destruct seen.
    { apply IH; [exact Hvs' | unfold bfs_inv; auto]. }
    rewrite vset_in_range by lia. simpl.
    rewrite vset_in_range by lia. simpl.
    destruct (vget_in_range match_ v) as (mv & Hgm & Hmv); [lia | ].
    rewrite Hgm. simpl.
    destruct (Z.eqb_spec mv (-1)) as [-> | Hne].
    { specialize (Hroots v Hvr Hmv). congruence. }
    destruct (Hmr v mv Hmv) as [? | Hmvr]; [contradiction | ].
    unfold in_range in Hmvr.
    rewrite vset_in_range by (rewrite length_insert; lia). simpl.
    rewrite vset_in_range by (rewrite length_insert; lia). simpl.
    match goal with |- context [bfs_neighbours _ _ _ ?s] => set (st1 := s) end.
    destruct (IH st1) as (st' & Hst' & Hinv' & Hmeas').
    + exact Hvs'.
    + unfold bfs_inv, st1. simpl. rewrite !length_insert.
      split; [exact Hp | ]. split; [exact Hv | ]. split.
      { intros x Hx. apply elem_of_app in Hx as [Hx | Hx]; [auto | ].
        apply list_elem_of_singleton in Hx as ->. exact Hmvr. }
      split; [ | exact Hend].
      intros i Hi Hmi. rewrite zlookup_insert by (rewrite length_insert; lia).
      destruct (decide (i = mv)); [reflexivity | ].
      rewrite zlookup_insert by lia.
      destruct (decide (i = v)); [reflexivity | auto].
    + exists st'. split; [exact Hst' | ]. split; [exact Hinv' | ].
      etransitivity; [exact Hmeas' | ].
      unfold bfs_measure, st1. simpl. rewrite length_app. simpl.
      pose proof (count_false_mark_lt (visited st) v Hseen) as Hlt.
      pose proof (count_false_mark_le (<[Z.to_nat v := true]> (visited st)) mv) as Hle.
      lia.
Qed.

Lemma adjacency_in_range (g : MinEdgeCover) (u : Z) :
  well_formed g -> in_range (n g) u ->
  exists l, vget (adj g) u = Ok l /\ forall v, v ∈ l -> in_range (n g) v.
Proof.
  intros (Hn & Hedges & Hlen & Hadj & _) Hu.
  exists (neighbours (edges g) u). split; [apply vget_Ok; apply Hadj; exact Hu | ].
  intros v Hv. apply neighbours_elem in Hv as (e & He & Hcase).
  destruct (Hedges e He) as [Heu Hev].
  destruct Hcase as [[_ <-] | [_ <-]]; assumption.
Qed.

(** The breadth-first loop stops within its budget and finds no path end. *)
Lemma bfs_while_spec (g : MinEdgeCover) (match_ : list Z) (fuel : nat)
    (st : bfs_state) :
  well_formed g ->
  match_in_range (n g) match_ ->
  bfs_inv (n g) match_ st ->
  (bfs_measure st < fuel)%nat ->
  exists st', bfs_while fuel g match_ st = Ok st' /\ pathEnd st' = -1.
Proof.
  intros Hwf Hm. revert st.
  induction fuel as [ | fuel IH]; intros st Hinv Hfuel; [lia | ].
  destruct Hinv as (Hp & Hv & Hq & Hroots & Hend).
  simpl. destruct (q st) as [ | u q'] eqn:Eq.
  - exists st. split; [reflexivity | exact Hend].
  - rewrite Hend. simpl.
    assert (Hu : in_range (n g) u) by (apply Hq; left).
    destruct (adjacency_in_range g u Hwf Hu) as (l & Hl & Hlr).
    rewrite Hl. simpl.
    destruct (bfs_neighbours_spec (n g) match_ u l
                (mkBfs (parent st) (visited st) q' (-1)) Hm Hlr)
      as (st1 & Hst1 & Hinv1 & Hmeas1).
    { unfold bfs_inv. simpl. repeat split; try assumption; try apply Hq; try lia.
      - right. exact H.
      - right. exact H. }
    rewrite Hst1. simpl. apply IH; [exact Hinv1 | ].
    unfold bfs_measure in *. simpl in Hmeas1. rewrite Eq in Hfuel. simpl in Hfuel. lia.
Qed.

(** The improvement loop runs one phase, finds nothing and returns the
    matching it was given. *)
Lemma improve_spec (g : MinEdgeCover) (fuel0 fuel : nat) (match_ : list Z)
    (matching : list Edge) :
  well_formed g ->
  match_in_range (n g) match_ ->
  2 * n g < Z.of_nat fuel0 ->
  (2 <= fuel)%nat ->
  improve fuel0 fuel g true match_ matching = Ok matching.
Proof.
  intros Hwf Hm Hfuel0 Hfuel.
  destruct fuel as [ | [ | fuel]]; [lia | lia | ].
  pose proof Hwf as (Hn & _).
  destruct (bfs_init_spec g match_) as (st0 & Hst0 & Hinv0 & Hq0); [lia | exact Hm | ].
  destruct (bfs_while_spec g match_ fuel0 st0 Hwf Hm Hinv0) as (st & Hst & Hend).
  { unfold bfs_measure.
    pose proof (count_false_le_length (visited st0)) as Hc.
    destruct Hinv0 as (_ & Hv & _). lia. }
  simpl. rewrite Hst0. simpl. rewrite Hst. simpl. rewrite Hend. reflexivity.
Qed.

(** On a well-formed graph [findMaxMatching] returns within its budget, and
    what it returns is the greedy seed. *)
Lemma findMaxMatching_spec (g : MinEdgeCover) (fuel : nat) :
  well_formed g ->
  2 * n g < Z.of_nat fuel ->
  exists st, greedy g = Ok st /\ greedy_inv (n g) (edges g) st /\
    findMaxMatching fuel g = Ok (g_matching st).
Proof.
  intros Hwf Hfuel. pose proof Hwf as (Hn & _).
  destruct (greedy_spec g Hwf) as (st & Hst & Hinv).
  exists st. split; [exact Hst | ]. split; [exact Hinv | ].
  unfold findMaxMatching. rewrite Hst. simpl.
  apply improve_spec; [exact Hwf | apply Hinv | exact Hfuel | lia].
Qed.

(** The parent-chain walk is never entered (see [improve_spec]).  Entered
    on a chain that ends at a root, it would leave the vector: after the last
    pair is flipped, [v] is the root's parent [-1] and the loop test reads
    [parent[-1]]. *)
Example augment_walk_leaves_the_vector :
  augment 3 [-1; 0] [-1; -1] 1 = Err OutOfBounds.
Proof. reflexivity. Qed.

(** * graph.hpp: the cover composer *)

Lemma Edge_eq_sym (a b : Edge) : Edge_eq a b = Edge_eq b a.
Proof.
  unfold Edge_eq.
  rewrite (Z.eqb_sym (eu a) (eu b)), (Z.eqb_sym (ev a) (ev b)),
          (Z.eqb_sym (eu a) (ev b)), (Z.eqb_sym (ev a) (eu b)).
  destruct (eu b =? eu a), (ev b =? ev a), (ev b =? eu a), (eu b =? ev a); reflexivity.
Qed.

Lemma Edge_eq_same_endpoints (a b : Edge) (x : Z) :
  Edge_eq a b = true -> touches a x -> touches b x.
Proof.
  unfold Edge_eq, touches. intros H.
  apply orb_true_iff in H as [H | H]; apply andb_true_iff in H as [H1 H2];
    apply Z.eqb_eq in H1, H2; lia.
Qed.

Lemma no_duplicate_snoc (C : list Edge) (e : Edge) :
  no_duplicate_edges C ->
  (forall a, a ∈ C -> Edge_eq a e = false) ->
  no_duplicate_edges (C ++ [e]).
Proof.
  intros HC Hnew i j a b Ha Hb Hij.
  apply lookup_snoc_Some in Ha as [[Hi Ha] | [Hi <-]];
    apply lookup_snoc_Some in Hb as [[Hj Hb] | [Hj <-]].
  - exact (HC i j a b Ha Hb Hij).
  - apply Hnew. eapply list_elem_of_lookup_2. exact Ha.
  - rewrite Edge_eq_sym. apply Hnew. eapply list_elem_of_lookup_2. exact Hb.
  - lia.
Qed.

(** The search for an edge incident to an uncovered vertex finds the first
    one in the edge list and marks its endpoints. *)
Lemma cover_vertex_spec (i : Z) (es : list Edge) (result : list Edge)
    (covered : list bool) :
  in_range (Z.of_nat (length covered)) i ->
  (forall e, e ∈ es -> edge_in_range (Z.of_nat (length covered)) e) ->
  (exists e, e ∈ es /\ touches e i) ->
  exists e c', e ∈ es /\ touches e i /\
    cover_vertex i es result covered = Ok (result ++ [e], c') /\
    length c' = length covered /\
    forall j, zlookup c' j = Some true <->
              zlookup covered j = Some true \/ touches e j.
Proof.
  intros Hi. unfold in_range in Hi.
  induction es as [ | a es IH]; intros Hes (e & He & Ht); [inversion He | ].
  simpl. destruct ((eu a =? i) || (ev a =? i)) eqn:E.
  - destruct (Hes a) as [Hau Hav]; [left | ]. unfold in_range in Hau, Hav.
    rewrite vset_in_range by lia. simpl.
    rewrite vset_in_range by (rewrite length_insert; lia). simpl.
    rewrite vset_in_range by (rewrite !length_insert; lia). simpl.
    assert (Hta : touches a i).
    { unfold touches. apply orb_true_iff in E as [E | E]; apply Z.eqb_eq in E; lia. }
    exists a. eexists. split; [left | ]. split; [exact Hta | ].
    split; [reflexivity | ]. split; [rewrite !length_insert; reflexivity | ].
    intros j. rewrite zlookup_insert by (rewrite !length_insert; lia).
    rewrite zlookup_insert by (rewrite !length_insert; lia).
    rewrite zlookup_insert by lia. unfold touches in *.
    destruct (decide (j = ev a)); [split; [intros _; right; lia | reflexivity] | ].
    destruct (decide (j = eu a)); [split; [intros _; right; lia | reflexivity] | ].
    destruct (decide (j = i)); [lia | ].
    split; [intros H; left; exact H | intros [H | H]; [exact H | lia]].
  - destruct IH as (e' & c' & He' & Ht' & Hrun & Hrest).
    + intros x Hx. apply Hes. right. exact Hx.
    + exists e. split; [ | exact Ht].
      apply elem_of_cons in He as [-> | He]; [ | exact He].
      apply orb_false_iff in E as [E1 E2]. apply Z.eqb_neq in E1, E2.
      unfold touches in Ht. lia.
    + exists e', c'. split; [right; exact He' | ]. split; [exact Ht' | ].
      split; [exact Hrun | exact Hrest].
Qed.

Lemma complete_step_spec (g : MinEdgeCover) (pre : list Z)
    (st : list Edge * list bool) (i : Z) :
  well_formed g -> in_range (n g) i ->
  solve_inv (n g) (edges g) pre st ->
  exists st', complete_step g st i = Ok st' /\
    solve_inv (n g) (edges g) (pre ++ [i]) st'.
Proof.
  intros (Hn & Hedges & _ & _ & Htouch) Hi (Hlen & Hsub & Hcov & Hnodup & Hpre).
  unfold complete_step.
  destruct (vget_in_range (snd st) i) as (ci & Hget & Hci).
  { unfold in_range in Hi. lia. }
  rewrite Hget. simpl. destruct ci.
  - exists st. split; [reflexivity | ].
    unfold solve_inv. repeat split; try assumption; try apply Hcov.
    intros j Hj. apply elem_of_app in Hj as [Hj | Hj]; [auto | ].
    apply list_elem_of_singleton in Hj as ->. exact Hci.
  - destruct (cover_vertex_spec i (edges g) (fst st) (snd st))
      as (e & c' & He & Ht & Hrun & Hlen' & Hc').
    + rewrite Hlen. exact Hi.
    + rewrite Hlen. exact Hedges.
    + apply Htouch. exact Hi.
    + exists (fst st ++ [e], c'). split; [exact Hrun | ].
      unfold solve_inv. simpl. split; [lia | ]. split.
      { intros x Hx. apply elem_of_app in Hx as [Hx | Hx]; [auto | ].
        apply list_elem_of_singleton in Hx as ->. exact He. }
      split.
      { intros j. rewrite Hc', Hcov. split.
        - intros [(x & Hx & Hxj) | Hej].
          + exists x. split; [apply elem_of_app; left; exact Hx | exact Hxj].
          + exists e. split; [apply elem_of_app; right; left | exact Hej].
        - intros (x & Hx & Hxj). apply elem_of_app in Hx as [Hx | Hx].
          + left. exists x. split; assumption.
          + apply list_elem_of_singleton in Hx as ->. right. exact Hxj. }
      split.
      { apply no_duplicate_snoc; [exact Hnodup | ].
        intros a Ha. destruct (Edge_eq a e) eqn:E; [ | reflexivity].
        exfalso. rewrite Edge_eq_sym in E.
        pose proof (Edge_eq_same_endpoints e a i E Ht) as Hai.
        assert (Hx : zlookup (snd st) i = Some true).
        { apply Hcov. exists a. split; assumption. }
        congruence. }
      intros j Hj. apply Hc'. apply elem_of_app in Hj as [Hj | Hj].
      * left. apply Hpre. exact Hj.
      * apply list_elem_of_singleton in Hj as ->. right. exact Ht.
Qed.

(** The run of [solve] on a well-formed graph, stage by stage: the greedy
    seed [gs], the flags [c1] after marking the matching, and the state [st]
    after the completion loop.  The result does not depend on the budget. *)
Lemma solve_run (g : MinEdgeCover) :
  well_formed g ->
  exists gs c1 st,
    greedy g = Ok gs /\ greedy_inv (n g) (edges g) gs /\
    foldM mark_covered (g_matching gs) (replicate (Z.to_nat (n g)) false) = Ok c1 /\
    (forall i, zlookup c1 i = Some true <->
               exists e, e ∈ g_matching gs /\ touches e i) /\
    solve_inv (n g) (edges g) [] (g_matching gs, c1) /\
    foldM (complete_step g) (upto (n g)) (g_matching gs, c1) = Ok st /\
    solve_inv (n g) (edges g) (upto (n g)) st /\
    (forall fuel, 2 * n g < Z.of_nat fuel -> solve fuel g = Ok (fst st)).
Proof.
  intros Hwf. pose proof Hwf as (Hn & Hedges & _).
  destruct (greedy_spec g Hwf) as (gs & Hgs & Hginv).
  pose proof Hginv as (Hm & _ & _ & _ & _ & Hsub & Hdis).
  set (covered0 := replicate (Z.to_nat (n g)) false).
  assert (Hlen0 : Z.of_nat (length covered0) = n g).
  { unfold covered0. rewrite length_replicate. lia. }
  destruct (mark_all_Ok (g_matching gs) covered0) as (c1 & Hc1 & Hlen1 & Hmark).
  { intros e He. rewrite Hlen0. apply Hedges. apply Hsub. exact He. }
  assert (Hmark' : forall i, zlookup c1 i = Some true <->
            exists e, e ∈ g_matching gs /\ touches e i).
  { intros i. rewrite Hmark. split; [ | intros H; right; exact H].
    intros [H | H]; [ | exact H].
    pose proof (zlookup_Some_range _ _ _ H) as Hr.
    unfold covered0 in H, Hr. rewrite length_replicate in Hr.
    rewrite zlookup_replicate in H by lia. discriminate. }
  assert (Hinit : solve_inv (n g) (edges g) [] (g_matching gs, c1)).
  { unfold solve_inv. simpl. split; [lia | ]. split; [exact Hsub | ].
    split; [exact Hmark' | ].
    split; [apply vertex_disjoint_no_duplicate; exact Hdis | ].
    intros i Hi. inversion Hi. }
  destruct (foldM_total (solve_inv (n g) (edges g)) (complete_step g)
              (upto (n g)) (g_matching gs, c1)) as (st & Hst & Hfinal).
  - exact Hinit.
  - intros pre i post st0 Hl Hinv. apply complete_step_spec; [exact Hwf | | exact Hinv].
    apply elem_of_upto. rewrite Hl. apply elem_of_app. right. left.
  - exists gs, c1, st. repeat (split; [assumption | ]).
    intros fuel Hfuel.
    destruct (findMaxMatching_spec g fuel Hwf Hfuel) as (gs' & Hgs' & _ & Hfind).
    rewrite Hgs in Hgs'. injection Hgs' as <-.
    unfold solve. rewrite Hfind. simpl.
    rewrite (vector_make_Ok (n g) false) by lia. simpl.
    fold covered0. rewrite Hc1. simpl. rewrite Hst. reflexivity.
Qed.

(** [solve] on a well-formed graph: it returns within its budget, and the
    edges it returns are edges of the graph, touch every vertex and are
    pairwise different as undirected edges. *)
Lemma solve_spec (g : MinEdgeCover) :
  well_formed g ->
  exists cover,
    (forall fuel, 2 * n g < Z.of_nat fuel -> solve fuel g = Ok cover) /\
    (forall e, e ∈ cover -> e ∈ edges g) /\
    covers (n g) cover /\
    no_duplicate_edges cover.
Proof.
  intros Hwf.
  destruct (solve_run g Hwf)
    as (gs & c1 & st & _ & _ & _ & _ & _ & _ & Hfinal & Hsolve).
  destruct Hfinal as (_ & Hsub & Hcov & Hnodup & Hall).
  exists (fst st). split; [exact Hsolve | ]. split; [exact Hsub | ].
  split; [ | exact Hnodup].
  intros i Hi. apply Hcov. apply Hall. apply elem_of_upto. exact Hi.
Qed.

(** * graph.hpp: the size of the cover *)

Lemma greedy_step_maximal (pre : list Edge) (st st' : greedy_state) (e : Edge) :
  greedy_step st e = Ok st' ->
  greedy_maximal pre st -> greedy_maximal (pre ++ [e]) st'.
Proof.
  intros H Hmax. unfold greedy_step in H.
  bind_inv_as H bu Hbu. apply vget_Ok in Hbu. destruct bu.
  { injection H as <-. intros x Hx. apply elem_of_app in Hx as [Hx | Hx]; [auto | ].
    apply list_elem_of_singleton in Hx as ->. left. exact Hbu. }
  bind_inv_as H bv Hbv. apply vget_Ok in Hbv. destruct bv.
  { injection H as <-. intros x Hx. apply elem_of_app in Hx as [Hx | Hx]; [auto | ].
    apply list_elem_of_singleton in Hx as ->. right. exact Hbv. }
  bind_inv_as H m1 Hm1. bind_inv_as H m2 Hm2.
  bind_inv_as H u1 Hu1. bind_inv_as H u2 Hu2'. injection H as <-.
  apply vset_Ok in Hu1 as [Hv ->]. apply vset_Ok in Hu2' as [Hu ->].
  rewrite length_insert in Hu.
  assert (Hu2 : forall i, zlookup (g_used st) i = Some true \/ i = eu e \/ i = ev e ->
            zlookup (<[Z.to_nat (eu e) := true]>
                       (<[Z.to_nat (ev e) := true]> (g_used st))) i = Some true).
  { intros i Hi. rewrite zlookup_insert by (rewrite length_insert; lia).
    destruct (decide (i = eu e)); [reflexivity | ].
    rewrite zlookup_insert by lia.
    destruct (decide (i = ev e)); [reflexivity | ].
    destruct Hi as [Hi | [Hi | Hi]]; [exact Hi | contradiction | contradiction]. }
  intros x Hx. simpl. apply elem_of_app in Hx as [Hx | Hx].
  - destruct (Hmax x Hx) as [H | H]; [left | right]; apply Hu2; left; exact H.
  - apply list_elem_of_singleton in Hx as ->. left. apply Hu2. right. left. reflexivity.
Qed.

Lemma greedy_is_maximal (g : MinEdgeCover) (st : greedy_state) :
  greedy g = Ok st -> greedy_maximal (edges g) st.
Proof.
  unfold greedy. intros H. bind_inv_as H match0 Hm0. bind_inv_as H used0 Hu0.
  apply (foldM_invariant greedy_maximal _ _ _ _ H).
  - intros e He. inversion He.
  - intros pre e post s0 s1 _ Hmax Hstep.
    exact (greedy_step_maximal pre s0 s1 e Hstep Hmax).
Qed.

Lemma vertex_disjoint_cons_inv (a : Edge) (M : list Edge) :
  vertex_disjoint (a :: M) ->
  vertex_disjoint M /\
  forall e x, e ∈ M -> touches a x -> ~ touches e x.
Proof.
  intros H. split.
  - intros i j x y Hx Hy Hij. apply (H (S i) (S j) x y Hx Hy). lia.
  - intros e x He. apply list_elem_of_lookup_1 in He as [k Hk].
    apply (H O (S k) a e eq_refl Hk). lia.
Qed.

(** Marking a loop-free, vertex-disjoint set of edges on vertices not yet
    covered covers two new vertices per edge. *)
Lemma mark_all_count (M : list Edge) (covered c' : list bool) :
  (forall e, e ∈ M -> edge_in_range (Z.of_nat (length covered)) e) ->
  loop_free M -> vertex_disjoint M ->
  (forall e, e ∈ M -> zlookup covered (eu e) = Some false /\
                      zlookup covered (ev e) = Some false) ->
  foldM mark_covered M covered = Ok c' ->
  (count_false c' + 2 * length M = count_false covered)%nat.
Proof.
  revert covered. induction M as [ | a M IH]; intros covered Hr Hloop Hdis Hfree Hrun.
  - simpl in Hrun. injection Hrun as <-. simpl. lia.
  - simpl in Hrun. bind_inv_as Hrun c2 Hc2. unfold mark_covered in Hc2.
    bind_inv_as Hc2 c1 Hc1.
    apply vset_Ok in Hc1 as [Hu ->]. apply vset_Ok in Hc2 as [Hv ->].
    rewrite length_insert in Hv.
    destruct (Hfree a) as [Hfu Hfv]; [left | ].
    assert (Hne : eu a <> ev a) by (apply Hloop; left).
    destruct (vertex_disjoint_cons_inv a M Hdis) as [Hdis' Hother].
    pose proof (count_false_mark_exact covered (eu a) Hfu) as Hn1.
    assert (Hfv' : zlookup (<[Z.to_nat (eu a) := true]> covered) (ev a) = Some false).
    { rewrite zlookup_insert by lia.
      destruct (decide (ev a = eu a)); [congruence | exact Hfv]. }
    pose proof (count_false_mark_exact _ (ev a) Hfv') as Hn2.
    specialize (IH (<[Z.to_nat (ev a) := true]> (<[Z.to_nat (eu a) := true]> covered))).
    rewrite !length_insert in IH. simpl length.
    enough ((count_false c' + 2 * length M)%nat =
            count_false (<[Z.to_nat (ev a) := true]>
                           (<[Z.to_nat (eu a) := true]> covered))) by lia.
    apply IH.
    + intros e He. apply Hr. right. exact He.
    + intros e He. apply Hloop. right. exact He.
    + exact Hdis'.
    + intros e He. destruct (Hfree e) as [Heu Hev]; [right; exact He | ].
      assert (H1 : ~ touches e (eu a)) by (apply (Hother e _ He); left; reflexivity).
      assert (H2 : ~ touches e (ev a)) by (apply (Hother e _ He); right; reflexivity).
      unfold touches in H1, H2.
      rewrite !zlookup_insert by (rewrite ?length_insert; lia).
      destruct (decide (eu e = ev a)); [tauto | ].
      destruct (decide (eu e = eu a)); [tauto | ].
      destruct (decide (ev e = ev a)); [tauto | ].
      destruct (decide (ev e = eu a)); [tauto | ].
      split; assumption.
    + exact Hrun.
Qed.

(** On a loop-free graph in which every edge has a covered endpoint, each
    edge the completion loop adds covers exactly one new vertex. *)
Lemma complete_step_count (g : MinEdgeCover) (M : list Edge)
    (covered1 : list bool) (pre : list Z) (st st' : list Edge * list bool) (i : Z) :
  well_formed g -> loop_free (edges g) -> in_range (n g) i ->
  solve_inv (n g) (edges g) pre st ->
  solve_count_inv (edges g) M covered1 st ->
  complete_step g st i = Ok st' ->
  solve_count_inv (edges g) M covered1 st'.
Proof.
  intros (Hn & Hedges & _ & _ & Htouch) Hloop Hi (Hlen & _) [Hcount Hhalf] H.
  unfold complete_step in H. bind_inv_as H ci Ha. apply vget_Ok in Ha.
  destruct ci; [injection H as <-; split; assumption | ].
  destruct (cover_vertex_spec i (edges g) (fst st) (snd st))
    as (e & c' & He & Ht & Hrun & Hlen' & Hc').
  { rewrite Hlen. exact Hi. }
  { rewrite Hlen. exact Hedges. }
  { apply Htouch. exact Hi. }
  rewrite Hrun in H. injection H as <-. simpl.
  assert (Hc : c' = <[Z.to_nat i := true]> (snd st)).
  { apply flags_ext; [rewrite length_insert; exact Hlen' | ].
    intros j. rewrite Hc'.
    rewrite zlookup_insert by (unfold in_range in Hi; lia).
    pose proof (Hloop e He) as Hne.
    destruct (decide (j = i)) as [-> | Hji].
    - split; [reflexivity | intros _; right; exact Ht].
    - split; [ | intros Hj; left; exact Hj].
      intros [Hj | Hj]; [exact Hj | ].
      unfold touches in Ht, Hj.
      destruct (Hhalf e He) as [Hx | Hx]; destruct Ht as [Ht | Ht];
        destruct Hj as [Hj | Hj]; try congruence; try lia. }
  split.
  - simpl fst. simpl snd. rewrite length_app. simpl. rewrite Hc.
    pose proof (count_false_mark_exact (snd st) i Ha). lia.
  - intros x Hx. destruct (Hhalf x Hx) as [H | H]; [left | right];
      apply Hc'; left; exact H.
Qed.

(** On a graph without self-loops the cover has [n - |M|] edges, [M] being
    the matching that [findMaxMatching] returned: the greedy seed, which is
    maximal but need not be maximum. *)
Lemma solve_cardinality (vertices : Z) (edgeList : list Edge)
    (g : MinEdgeCover) (fuel : nat) :
  construct vertices edgeList = Ok g ->
  loop_free (edges g) ->
  2 * n g < Z.of_nat fuel ->
  exists matching cover,
    findMaxMatching fuel g = Ok matching /\
    solve fuel g = Ok cover /\
    Z.of_nat (length cover) = n g - Z.of_nat (length matching).
Proof.
  intros Hc Hloop Hfuel. apply construct_Ok in Hc as (Hwf & _ & _).
  pose proof Hwf as (Hn & Hedges & _).
  destruct (solve_run g Hwf)
    as (gs & c1 & st & Hgs & Hginv & Hc1 & Hmark & Hinit & Hst & Hfinal & Hsolve).
  destruct (findMaxMatching_spec g fuel Hwf Hfuel) as (gs' & Hgs' & _ & Hfind).
  rewrite Hgs in Hgs'. injection Hgs' as <-.
  exists (g_matching gs), (fst st).
  split; [exact Hfind | ]. split; [apply Hsolve; exact Hfuel | ].
  pose proof Hginv as (_ & _ & Hused & _ & _ & Hsub & Hdis).
  assert (Hcount1 : (count_false c1 + 2 * length (g_matching gs) = Z.to_nat (n g))%nat).
  { rewrite <- (count_false_replicate_false (Z.to_nat (n g))).
    apply (mark_all_count (g_matching gs) _ c1); [ | | exact Hdis | | exact Hc1].
    - intros e He. rewrite length_replicate, Z2Nat.id by lia.
      apply Hedges. apply Hsub. exact He.
    - intros e He. apply Hloop. apply Hsub. exact He.
    - intros e He. destruct (Hedges e (Hsub e He)) as [Hu Hv].
      unfold in_range in Hu, Hv. split; apply zlookup_replicate; lia. }
  assert (Hcount : solve_inv (n g) (edges g) (upto (n g)) st /\
                   solve_count_inv (edges g) (g_matching gs) c1 st).
  { apply (foldM_invariant
             (fun pre s => solve_inv (n g) (edges g) pre s /\
                           solve_count_inv (edges g) (g_matching gs) c1 s)
             _ _ _ _ Hst).
    - split; [exact Hinit | ]. split; [reflexivity | ].
      intros e He. simpl.
      destruct (greedy_is_maximal g gs Hgs e He) as [H | H]; [left | right];
        apply Hmark; apply Hused; exact H.
    - intros pre i post s0 s1 Hl [Hinv0 Hcnt0] Hstep.
      assert (Hi : in_range (n g) i).
      { apply elem_of_upto. rewrite Hl. apply elem_of_app. right. left. }
      split.
      + destruct (complete_step_spec g pre s0 i Hwf Hi Hinv0) as (s1' & Hs1' & Hinv1).
        rewrite Hstep in Hs1'. injection Hs1' as <-. exact Hinv1.
      + exact (complete_step_count g _ c1 pre s0 s1 i Hwf Hloop Hi Hinv0 Hcnt0 Hstep). }
  destruct Hcount as [(Hlen & _ & _ & _ & Hall) [Hsum _]].
  assert (Hzero : count_false (snd st) = O).
  { apply count_false_all_true. intros i Hi. apply Hall. apply elem_of_upto.
    unfold in_range. lia. }
  lia.
Qed.

(** A self-loop is accepted by the constructor and enters the matching as
    a pair, so the count above does not extend to graphs with loops. *)
Example solve_self_loop :
  construct 1 [mkEdge 0 0] = Ok (mkMinEdgeCover 1 [mkEdge 0 0] [[0; 0]]) /\
  findMaxMatching 3 (mkMinEdgeCover 1 [mkEdge 0 0] [[0; 0]]) = Ok [mkEdge 0 0] /\
  solve 3 (mkMinEdgeCover 1 [mkEdge 0 0] [[0; 0]]) = Ok [mkEdge 0 0].
Proof. repeat split. Qed.

(** * graph.hpp: the claims about [solve] *)

(** C3.  On every graph the constructor returned, [solve] returns a set of
    edges that [isEdgeCover] accepts: every vertex in [[0, n)] is an endpoint
    of one of the returned edges. *)
Theorem solve_is_edge_cover (vertices : Z) (edgeList : list Edge)
    (g : MinEdgeCover) (fuel : nat) :
  construct vertices edgeList = Ok g ->
  2 * n g < Z.of_nat fuel ->
  exists cover, solve fuel g = Ok cover /\
    isEdgeCover (n g) cover = Ok true /\ covers (n g) cover.
Proof.
  intros Hc Hfuel. apply construct_Ok in Hc as (Hwf & _ & _).
  destruct (solve_spec g Hwf) as (cover & Hsolve & Hsub & Hcov & _).
  exists cover. split; [apply Hsolve; exact Hfuel | ]. split; [ | exact Hcov].
  pose proof Hwf as (Hn & Hedges & _).
  destruct (isEdgeCover_spec (n g) cover) as (b & Hb & Hiff); [lia | | ].
  - intros e He. apply Hedges. apply Hsub. exact He.
  - rewrite Hb. f_equal. apply Hiff. exact Hcov.
Qed.

Lemma solve_is_edge_cover_witness :
  exists cover,
    solve 7 (mkMinEdgeCover 3 path3 [[1]; [0; 2]; [1]]) = Ok cover /\
    isEdgeCover 3 cover = Ok true /\ covers 3 cover.
Proof.
  apply (solve_is_edge_cover 3 path3 (mkMinEdgeCover 3 path3 [[1]; [0; 2]; [1]]) 7).
  - reflexivity.
  - simpl. lia.
Defined.

(** C6.  Once the constructor has returned a graph, [solve] raises nothing:
    it returns the same cover for every budget above [2 n], hence all its
    vector accesses are in bounds and its loops stop.  [isEdgeCover] returns
    a boolean on that cover, and on a candidate of the caller it returns a
    boolean exactly when every endpoint of the candidate lies in [[0, n)]:
    with an endpoint outside that range its unchecked write
    [covered[e.u] = true] leaves the vector. *)
Theorem solve_and_isEdgeCover_total (vertices : Z) (edgeList : list Edge)
    (g : MinEdgeCover) :
  construct vertices edgeList = Ok g ->
  exists cover b,
    (forall fuel, 2 * n g < Z.of_nat fuel -> solve fuel g = Ok cover) /\
    isEdgeCover (n g) cover = Ok b /\
    (forall candidate,
       (exists b', isEdgeCover (n g) candidate = Ok b') <->
       (forall e, e ∈ candidate -> edge_in_range (n g) e)) /\
    (forall candidate e, e ∈ candidate -> ~ edge_in_range (n g) e ->
       isEdgeCover (n g) candidate = Err OutOfBounds).
Proof.
  intros Hc. apply construct_Ok in Hc as (Hwf & _ & _).
  pose proof Hwf as (Hn & Hedges & _).
  assert (Hn' : 0 <= n g <= PTRDIFF_MAX) by lia.
  destruct (solve_spec g Hwf) as (cover & Hsolve & Hsub & _ & _).
  assert (Hgood : forall candidate,
            (forall e, e ∈ candidate -> edge_in_range (n g) e) ->
            exists b', isEdgeCover (n g) candidate = Ok b').
  { intros candidate Hcand.
    destruct (isEdgeCover_spec (n g) candidate Hn' Hcand) as (b & Hb & _).
    exists b. exact Hb. }
  assert (Hbad : forall candidate e, e ∈ candidate -> ~ edge_in_range (n g) e ->
            isEdgeCover (n g) candidate = Err OutOfBounds).
  { intros candidate e He Hne. unfold isEdgeCover.
    rewrite (vector_make_Ok (n g) false Hn'). simpl.
    rewrite mark_all_Err; [reflexivity | ].
    rewrite length_replicate, Z2Nat.id by lia. exists e. split; assumption. }
  destruct (Hgood cover) as (b & Hb).
  { intros e He. apply Hedges. apply Hsub. exact He. }
  exists cover, b. split; [exact Hsolve | ]. split; [exact Hb | ].
  split; [ | exact Hbad].
  intros candidate. split; [ | apply Hgood].
  intros (b' & Hb').
  destruct (edges_in_range_dec (n g) candidate) as [Hall | (e & He & Hne)];
    [exact Hall | ].
  rewrite (Hbad candidate e He Hne) in Hb'. discriminate.
Qed.

Lemma solve_and_isEdgeCover_total_witness :
  exists cover b,
    (forall fuel, 2 * 3 < Z.of_nat fuel ->
       solve fuel (mkMinEdgeCover 3 path3 [[1]; [0; 2]; [1]]) = Ok cover) /\
    isEdgeCover 3 cover = Ok b /\
    (forall candidate,
       (exists b', isEdgeCover 3 candidate = Ok b') <->
       (forall e, e ∈ candidate -> edge_in_range 3 e)) /\
    (forall candidate e, e ∈ candidate -> ~ edge_in_range 3 e ->
       isEdgeCover 3 candidate = Err OutOfBounds).
Proof.
  apply (solve_and_isEdgeCover_total 3 path3
           (mkMinEdgeCover 3 path3 [[1]; [0; 2]; [1]])).
  reflexivity.
Defined.

(** The constructor validates the edges of the graph only: the static
    [isEdgeCover] takes its candidate from the caller, and on the graph with
    the single edge [(0, 1)] the candidate [(0, 2)] makes it write
    [covered[2]] in a vector of two elements, so it returns no boolean. *)
Lemma isEdgeCover_fails_on_constructed_graph :
  construct 2 [mkEdge 0 1] = Ok (mkMinEdgeCover 2 [mkEdge 0 1] [[1]; [0]]) /\
  isEdgeCover (n (mkMinEdgeCover 2 [mkEdge 0 1] [[1]; [0]])) [mkEdge 0 2]
    = Err OutOfBounds /\
  ~ (forall candidate, exists b,
       isEdgeCover (n (mkMinEdgeCover 2 [mkEdge 0 1] [[1]; [0]])) candidate
         = Ok b).
Proof.
  split; [reflexivity | ]. split; [reflexivity | ].
  intros H. destruct (H [mkEdge 0 2]) as (b & Hb). discriminate Hb.
Qed.

(** C8.  On every graph the constructor returned, no two positions of the
    sequence that [solve] returns hold the same undirected edge. *)
Theorem solve_no_duplicate_edges (vertices : Z) (edgeList : list Edge)
    (g : MinEdgeCover) (fuel : nat) :
  construct vertices edgeList = Ok g ->
  2 * n g < Z.of_nat fuel ->
  exists cover, solve fuel g = Ok cover /\ no_duplicate_edges cover.
Proof.
  intros Hc Hfuel. apply construct_Ok in Hc as (Hwf & _ & _).
  destruct (solve_spec g Hwf) as (cover & Hsolve & _ & _ & Hnodup).
  exists cover. split; [apply Hsolve; exact Hfuel | exact Hnodup].
Qed.

Lemma solve_no_duplicate_edges_witness :
  exists cover,
    solve 9 (mkMinEdgeCover 4 path4 [[1]; [2; 0]; [1; 3]; [2]]) = Ok cover /\
    no_duplicate_edges cover.
Proof.
  apply (solve_no_duplicate_edges 4 path4
           (mkMinEdgeCover 4 path4 [[1]; [2; 0]; [1; 3]; [2]]) 9).
  - reflexivity.
  - simpl. lia.
Defined.

End HppFacts.

(** * main.cpp: construction and the depth-first search *)

Module MainFacts.
Import MainCpp MainSpec.

Lemma addEdge_well_formed (g g' : Graph) (u v : Z) :
  well_formed g -> addEdge g u v = Ok g' -> well_formed g' /\ V g' = V g.
Proof.
  intros (HV & Hlen & Hadj) H. unfold addEdge in H.
  bind_inv H. bind_inv H. bind_inv H. bind_inv H. injection H as <-.
  apply vget_Ok in Ha. pose proof (zlookup_Some_range _ _ _ Ha) as Hu.
  apply vset_Ok in Ha0 as [_ ->].
  apply vget_Ok in Ha1. pose proof (zlookup_Some_range _ _ _ Ha1) as Hv.
  rewrite length_insert in Hv.
  apply vset_Ok in Ha2 as [_ ->].
  rewrite zlookup_insert in Ha1 by lia.
  split; [ | reflexivity]. unfold well_formed. simpl.
  split; [exact HV | ]. split; [rewrite !length_insert; exact Hlen | ].
  intros i l x. rewrite zlookup_insert by (rewrite length_insert; lia).
  assert (Hur : in_range (V g) u) by (unfold in_range; lia).
  assert (Hvr : in_range (V g) v) by (unfold in_range; lia).
  destruct (decide (i = v)) as [-> | Hiv].
  - intros Hl Hx. injection Hl as <-. apply elem_of_app in Hx as [Hx | Hx].
    + destruct (decide (v = u)) as [-> | Hne].
      * injection Ha1 as <-. apply elem_of_app in Hx as [Hx | Hx].
        -- exact (Hadj u a x Ha Hx).
        -- apply list_elem_of_singleton in Hx as ->. exact Hvr.
      * exact (Hadj v a1 x Ha1 Hx).
    + apply list_elem_of_singleton in Hx as ->. exact Hur.
  - rewrite zlookup_insert by lia.
    destruct (decide (i = u)) as [-> | Hiu].
    + intros Hl Hx. injection Hl as <-. apply elem_of_app in Hx as [Hx | Hx].
      * exact (Hadj u a x Ha Hx).
      * apply list_elem_of_singleton in Hx as ->. exact Hvr.
    + apply Hadj.
Qed.

(** Every graph built by [Graph g(V)] and a sequence of [addEdge] is well
    formed. *)
Lemma withEdges_well_formed (V0 : Z) (pairs : list (Z * Z)) (g : Graph) :
  is_int V0 ->
  withEdges V0 pairs = Ok g -> well_formed g /\ V g = V0.
Proof.
  intros Hint H. unfold withEdges in H. bind_inv H.
  unfold Graph_new in Ha. bind_inv Ha. injection Ha as <-.
  assert (HV : 0 <= V0 <= PTRDIFF_MAX).
  { destruct (Z.lt_ge_cases V0 0) as [Hneg | Hpos].
    - rewrite vector_make_negative in Ha0; [discriminate | ].
      unfold is_int in Hint. lia.
    - unfold is_int, INT_MAX in Hint. unfold PTRDIFF_MAX. lia. }
  rewrite vector_make_Ok in Ha0 by exact HV. injection Ha0 as <-.
  apply (foldM_invariant (fun _ g' => well_formed g' /\ V g' = V0)
           _ pairs _ g H).
  - split; [ | reflexivity]. unfold well_formed. simpl.
    split; [exact HV | ]. split; [rewrite length_replicate; lia | ].
    intros i l x Hl Hx. pose proof (zlookup_Some_range _ _ _ Hl) as Hr.
    rewrite length_replicate in Hr. rewrite zlookup_replicate in Hl by lia.
    injection Hl as <-. inversion Hx.
  - intros pre p post g0 g1 _ [Hwf0 HV0] Hstep.
    destruct (addEdge_well_formed g0 g1 _ _ Hwf0 Hstep) as [Hwf1 HV1].
    split; [exact Hwf1 | congruence].
Qed.

Lemma dfs_returns_weaken (nv : Z) (used used0 : list bool)
    (r : res (bool * list Z * list bool)) :
  (count_false used <= count_false used0)%nat ->
  dfs_returns nv used r -> dfs_returns nv used0 r.
Proof.
  intros Hle (b & m' & u' & Hr & Hinv & Hc).
  exists b, m', u'. split; [exact Hr | ]. split; [exact Hinv | lia].
Qed.

Lemma match_in_range_insert (nv : Z) (match_ : list Z) (i x : Z) :
  match_in_range nv match_ -> in_range nv i -> in_range nv x ->
  match_in_range nv (<[Z.to_nat i := x]> match_).
Proof.
  intros [Hlen Hr] Hi Hx. unfold in_range in Hi. split.
  - rewrite length_insert. exact Hlen.
  - intros j m. rewrite zlookup_insert by lia.
    destruct (decide (j = i)); [intros H; injection H as <-; right; exact Hx | apply Hr].
Qed.

(** The loop of [dfs], given that the recursive call returns whenever fewer
    than [bound] vertices are unmarked. *)
Lemma dfs_loop_returns (nv : Z) (bound : nat)
    (rec : Z -> list Z -> list bool -> res (bool * list Z * list bool))
    (v : Z) (tos : list Z) :
  (forall w m u, in_range nv w -> dfs_inv nv m u -> (count_false u < bound)%nat ->
     dfs_returns nv u (rec w m u)) ->
  in_range nv v ->
  (forall to, to ∈ tos -> in_range nv to) ->
  forall match_ used, dfs_inv nv match_ used ->
    (count_false used <= bound)%nat ->
    dfs_returns nv used (dfs_loop rec v tos match_ used).
Proof.
  intros Hrec Hv. induction tos as [ | to tos IH]; intros Htos match_ used Hinv Hbound.
  - exists false, match_, used. split; [reflexivity | ]. split; [exact Hinv | lia].
  - assert (Hto : in_range nv to) by (apply Htos; left).
    assert (Htos' : forall t, t ∈ tos -> in_range nv t) by (intros t Ht; apply Htos; right; exact Ht).
    destruct Hinv as [Hm Hul]. pose proof Hm as [Hml Hmr].
    unfold in_range in Hto, Hv. simpl.
    destruct (vget_in_range used to) as (b & Hget & Hb); [lia | ].
    rewrite Hget. simpl. destruct b.
    { apply IH; [exact Htos' | split; assumption | exact Hbound]. }
    rewrite vset_in_range by lia. simpl.
    destruct (vget_in_range match_ to) as (mto & Hgm & Hmto); [lia | ].
    rewrite Hgm. simpl.
    pose proof (count_false_mark_lt used to Hb) as Hlt.
    set (used1 := <[Z.to_nat to := true]> used) in *.
    assert (Hul1 : Z.of_nat (length used1) = nv).
    { unfold used1. rewrite length_insert. exact Hul. }
    destruct (Z.eqb_spec mto (-1)) as [-> | Hne].
    + rewrite vset_in_range by lia. simpl.
      rewrite vset_in_range by (rewrite length_insert; lia). simpl.
      eexists _, _, _. split; [reflexivity | ]. split; [ | lia].
      split; [ | exact Hul1].
      apply match_in_range_insert; [ | unfold in_range; lia | unfold in_range; lia].
      apply match_in_range_insert; [exact Hm | unfold in_range; lia | unfold in_range; lia].
    + destruct (Hmr to mto Hmto) as [? | Hmtor]; [contradiction | ].
      destruct (Hrec mto match_ used1 Hmtor) as (b & m1 & u2 & Hr & [Hm1 Hul2] & Hc);
        [split; assumption | lia | ].
      rewrite Hr. simpl. pose proof Hm1 as [Hml1 _]. destruct b.
      * rewrite vset_in_range by lia. simpl.
        rewrite vset_in_range by (rewrite length_insert; lia). simpl.
        eexists _, _, _. split; [reflexivity | ]. split; [ | lia].
        split; [ | exact Hul2].
        apply match_in_range_insert; [ | unfold in_range; lia | unfold in_range; lia].
        apply match_in_range_insert; [exact Hm1 | unfold in_range; lia | unfold in_range; lia].
      * apply (dfs_returns_weaken nv u2); [lia | ].
        apply IH; [exact Htos' | split; assumption | lia].
Qed.

(** [dfs] returns as soon as its budget exceeds the number of unmarked
    vertices: each recursive call is preceded by marking one more vertex. *)
Lemma dfs_returns_within (g : Graph) (fuel : nat) :
  well_formed g ->
  forall v match_ used, in_range (V g) v -> dfs_inv (V g) match_ used ->
    (count_false used < fuel)%nat ->
    dfs_returns (V g) used (dfs fuel g v match_ used).
Proof.
  intros (HV & Hlen & Hadj).
  induction fuel as [ | fuel IH]; intros v match_ used Hv Hinv Hfuel; [lia | ].
  simpl. unfold in_range in Hv.
  destruct (vget_in_range (adj g) v) as (l & Hget & Hl); [lia | ].
  rewrite Hget. simpl.
  apply (dfs_loop_returns (V g) fuel); try assumption.
  - intros to Hto. exact (Hadj v l to Hl Hto).
  - lia.
Qed.

(** [findMaxMatching] of main.cpp returns within a budget above [V]. *)
Lemma findMaxMatching_returns (g : Graph) (fuel : nat) :
  well_formed g ->
  V g < Z.of_nat fuel ->
  exists match_, findMaxMatching fuel g = Ok match_ /\ match_in_range (V g) match_.
Proof.
  intros Hwf Hfuel. pose proof Hwf as (HV & _). unfold findMaxMatching.
  rewrite (vector_make_Ok (V g) (-1)) by exact HV. simpl.
  apply (foldM_total (fun _ m => match_in_range (V g) m)).
  - split; [rewrite length_replicate; lia | ].
    intros i m Hm. left. pose proof (zlookup_Some_range _ _ _ Hm) as Hr.
    rewrite length_replicate in Hr. rewrite zlookup_replicate in Hm by lia. congruence.
  - intros pre v post m Hl Hm.
    assert (Hv : in_range (V g) v).
    { apply elem_of_upto. rewrite Hl. apply elem_of_app. right. left. }
    pose proof Hm as [Hml _]. unfold in_range in Hv. unfold kuhn_step.
    destruct (vget_in_range m v) as (mv & Hget & _); [lia | ].
    rewrite Hget. simpl. destruct (mv =? -1); [ | exists m; split; [reflexivity | exact Hm]].
    rewrite (vector_make_Ok (V g) false) by exact HV. simpl.
    destruct (dfs_returns_within g fuel Hwf v m (replicate (Z.to_nat (V g)) false))
      as (b & m' & u' & Hr & [Hm' _] & _).
    + exact Hv.
    + split; [exact Hm | rewrite length_replicate; lia].
    + rewrite count_false_replicate_false. lia.
    + rewrite Hr. simpl. exists m'. split; [reflexivity | exact Hm'].
Qed.

End MainFacts.

(** * The claims about the matching engines *)

Section Engines.
Import HppSpec.

Local Abbreviation e01 := (GraphHpp.mkEdge 0 1).
Local Abbreviation e12 := (GraphHpp.mkEdge 1 2).
Local Abbreviation e23 := (GraphHpp.mkEdge 2 3).
Local Abbreviation path4_graph :=
  (GraphHpp.mkMinEdgeCover 4 path4 [[1]; [2; 0]; [1; 3]; [2]]).

(** C9.  Both engines terminate on the graphs their classes construct.  In
    graph.hpp [findMaxMatching] returns for every budget above [2 n], and its
    improvement loop needs only two tests of [improved]: a single phase.  In
    main.cpp [findMaxMatching] returns for every budget above [V], and [dfs]
    returns from any state as soon as the budget exceeds the number of
    vertices not yet marked in [used]. *)
Theorem matching_engines_terminate
    (vertices : Z) (edgeList : list GraphHpp.Edge) (g : GraphHpp.MinEdgeCover)
    (V0 : Z) (pairs : list (Z * Z)) (g' : MainCpp.Graph) (fuel fuel' : nat) :
  GraphHpp.construct vertices edgeList = Ok g ->
  2 * GraphHpp.n g < Z.of_nat fuel ->
  is_int V0 ->
  MainCpp.withEdges V0 pairs = Ok g' ->
  V0 < Z.of_nat fuel' ->
  (exists matching, GraphHpp.findMaxMatching fuel g = Ok matching) /\
  (forall match_ matching, match_in_range (GraphHpp.n g) match_ ->
     GraphHpp.improve fuel 2 g true match_ matching = Ok matching) /\
  (exists match_, MainCpp.findMaxMatching fuel' g' = Ok match_) /\
  (forall v match_ used,
     in_range V0 v -> MainSpec.dfs_inv V0 match_ used ->
     exists r, MainCpp.dfs (S (count_false used)) g' v match_ used = Ok r).
Proof.
  intros Hc Hfuel Hint Hw Hfuel'.
  apply HppFacts.construct_Ok in Hc as (Hwf & _ & _).
  apply MainFacts.withEdges_well_formed in Hw as (Hwf' & HV); [ | exact Hint].
  split; [ | split; [ | split]].
  - destruct (HppFacts.findMaxMatching_spec g fuel Hwf Hfuel) as (st & _ & _ & Hfind).
    eexists. exact Hfind.
  - intros match_ matching Hm.
    apply HppFacts.improve_spec; [exact Hwf | exact Hm | exact Hfuel | lia].
  - destruct (MainFacts.findMaxMatching_returns g' fuel' Hwf') as (m & Hm & _).
    + rewrite HV. exact Hfuel'.
    + exists m. exact Hm.
  - intros v match_ used Hv Hinv. rewrite <- HV in Hv, Hinv.
    destruct (MainFacts.dfs_returns_within g' (S (count_false used)) Hwf' v match_ used)
      as (b & m' & u' & Hr & _); [exact Hv | exact Hinv | lia | ].
    eexists. exact Hr.
Qed.

Lemma matching_engines_terminate_witness :
  (exists matching,
     GraphHpp.findMaxMatching 9 path4_graph = Ok matching) /\
  (forall match_ matching, match_in_range 4 match_ ->
     GraphHpp.improve 9 2 path4_graph true match_ matching = Ok matching) /\
  (exists match_, MainCpp.findMaxMatching 4 triangle = Ok match_) /\
  (forall v match_ used,
     in_range 3 v -> MainSpec.dfs_inv 3 match_ used ->
     exists r, MainCpp.dfs (S (count_false used)) triangle v match_ used = Ok r).
Proof.
  apply (matching_engines_terminate 4 path4 path4_graph
           3 [(0, 1); (1, 2); (2, 0)] triangle 9 4).
  - reflexivity.
  - simpl. lia.
  - unfold is_int, INT_MIN, INT_MAX. lia.
  - reflexivity.
  - lia.
Defined.

(** Case analysis on the positions of a short concrete list. *)
Ltac positions H1 H2 :=
  repeat match type of H1 with
         | (_ :: _) !! ?i = Some _ => destruct i as [ | i]; simpl in H1
         | [] !! _ = Some _ => rewrite lookup_nil in H1
         end;
  repeat match type of H2 with
         | (_ :: _) !! ?j = Some _ => destruct j as [ | j]; simpl in H2
         | [] !! _ = Some _ => rewrite lookup_nil in H2
         end;
  try discriminate; try lia.

Lemma matching_01_23 : is_matching path4 [e01; e23].
Proof.
  split.
  - intros e He. exists e. split; [ | unfold GraphHpp.Edge_eq; lia].
    unfold path4. apply elem_of_cons in He as [-> | He]; [right; left | ].
    apply list_elem_of_singleton in He as ->. right. right. left.
  - intros i j a b Ha Hb Hij x Hax Hbx.
    positions Ha Hb; injection Ha as <-; injection Hb as <-;
      unfold touches in *; simpl in *; lia.
Qed.

Lemma edge_cover_01_23 : is_edge_cover 4 path4 [e01; e23].
Proof.
  split; [apply matching_01_23 | ].
  intros i Hi. unfold in_range in Hi.
  destruct (decide (i <= 1)).
  - exists e01. split; [left | unfold touches; simpl; lia].
  - exists e23. split; [right; left | unfold touches; simpl; lia].
Qed.

(** C2, at the path 0 - 1 - 2 - 3 given as the edges (1,2), (0,1), (2,3):
    the constructor accepts it, [findMaxMatching] of graph.hpp returns the
    one-edge matching {(1,2)} whatever its budget, and {(0,1), (2,3)} is a
    matching of the same graph with two edges. *)
Theorem findMaxMatching_path4_not_maximum :
  GraphHpp.construct 4 path4 = Ok path4_graph /\
  (forall fuel, 8 < Z.of_nat fuel ->
     GraphHpp.findMaxMatching fuel path4_graph = Ok [e12]) /\
  is_matching path4 [e01; e23] /\
  (length [e12] < length [e01; e23])%nat.
Proof.
  split; [reflexivity | ]. split; [ | split; [apply matching_01_23 | simpl; lia]].
  intros fuel Hfuel.
  assert (Hwf : well_formed path4_graph).
  { apply (HppFacts.construct_Ok 4 path4). reflexivity. }
  destruct (HppFacts.findMaxMatching_spec path4_graph fuel Hwf) as (st & Hst & _ & Hfind).
  - simpl. lia.
  - rewrite Hfind. f_equal.
    assert (Hgreedy : GraphHpp.greedy path4_graph =
                      Ok (GraphHpp.mkGreedy [-1; 2; 1; -1]
                            [false; true; true; false] [e12])) by reflexivity.
    rewrite Hgreedy in Hst. injection Hst as <-. reflexivity.
Qed.

(** C1, at the same input: [solve] returns the three edges (1,2), (0,1),
    (2,3) whatever its budget, while the two edges (0,1), (2,3) are an edge
    cover of the graph, and a matching of it, so that the minimum is
    [2 = n - 2] and not 3. *)
Theorem solve_path4_not_minimum :
  GraphHpp.construct 4 path4 = Ok path4_graph /\
  (forall fuel, 8 < Z.of_nat fuel ->
     GraphHpp.solve fuel path4_graph = Ok [e12; e01; e23]) /\
  is_edge_cover 4 path4 [e01; e23] /\
  is_matching path4 [e01; e23] /\
  (length [e01; e23] < length [e12; e01; e23])%nat /\
  Z.of_nat (length [e12; e01; e23]) <> 4 - Z.of_nat (length [e01; e23]).
Proof.
  split; [reflexivity | ].
  split; [ | split; [apply edge_cover_01_23 | split; [apply matching_01_23 | simpl; lia]]].
  intros fuel Hfuel.
  assert (Hwf : well_formed path4_graph).
  { apply (HppFacts.construct_Ok 4 path4). reflexivity. }
  destruct (HppFacts.solve_spec path4_graph Hwf) as (cover & Hsolve & _).
  rewrite (Hsolve fuel) by (simpl; lia).
  specialize (Hsolve 9%nat ltac:(simpl; lia)).
  assert (H9 : GraphHpp.solve 9 path4_graph = Ok [e12; e01; e23]) by reflexivity.
  congruence.
Qed.

(** C4, at the triangle of [createTestGraph1]: [findMaxMatching] of main.cpp
    returns [match = [2; 2; 1]], in which [match[0] = 2] but [match[2] = 1]; the
    pairs read off it, (0,2) and (1,2), share vertex 2, and they are what
    [findMinEdgeCover] returns. *)
Theorem kuhn_triangle_not_a_matching :
  MainCpp.createTestGraph1 = Ok triangle /\
  MainCpp.findMaxMatching 4 triangle = Ok [2; 2; 1] /\
  ~ symmetric_match 3 [2; 2; 1] /\
  MainCpp.findMinEdgeCover 4 triangle =
    Ok [MainCpp.mkEdge 0 2; MainCpp.mkEdge 1 2].
Proof.
  split; [reflexivity | ]. split; [reflexivity | ]. split; [ | reflexivity].
  intros Hsym. specialize (Hsym 0 2).
  assert (H : zlookup [2; 2; 1] 2 = Some 0).
  { apply Hsym; [unfold in_range; lia | reflexivity | lia]. }
  discriminate H.
Qed.

(** main.cpp misses the minimum as well.  On two triangles joined by an
    edge, [findMinEdgeCover] returns four edges, while the three edges (0,1),
    (2,3), (4,5) of the graph touch all six vertices. *)
Example findMinEdgeCover_two_triangles_not_minimum :
  (let* g := MainCpp.withEdges 6
               [(0, 1); (1, 2); (2, 0); (3, 4); (4, 5); (5, 3); (2, 3)] in
   MainCpp.findMinEdgeCover 7 g) =
    Ok [MainCpp.mkEdge 0 2; MainCpp.mkEdge 1 2;
        MainCpp.mkEdge 3 5; MainCpp.mkEdge 4 5] /\
  forall i, in_range 6 i ->
    exists e, e ∈ [MainCpp.mkEdge 0 1; MainCpp.mkEdge 2 3; MainCpp.mkEdge 4 5] /\
              (MainCpp.eu e = i \/ MainCpp.ev e = i).
Proof.
  split; [reflexivity | ].
  intros i Hi. unfold in_range in Hi.
  destruct (decide (i <= 1)); [ | destruct (decide (i <= 3))].
  - exists (MainCpp.mkEdge 0 1). split; [left | simpl; lia].
  - exists (MainCpp.mkEdge 2 3). split; [right; left | simpl; lia].
  - exists (MainCpp.mkEdge 4 5). split; [right; right; left | simpl; lia].
Qed.

(** The engine of graph.hpp, by contrast, returns a matching of the graph,
    and the match array behind it is symmetric. *)
Lemma findMaxMatching_hpp_is_matching (vertices : Z)
    (edgeList : list GraphHpp.Edge) (g : GraphHpp.MinEdgeCover) (fuel : nat) :
  GraphHpp.construct vertices edgeList = Ok g ->
  2 * GraphHpp.n g < Z.of_nat fuel ->
  exists st, GraphHpp.greedy g = Ok st /\
    GraphHpp.findMaxMatching fuel g = Ok (GraphHpp.g_matching st) /\
    symmetric_match (GraphHpp.n g) (GraphHpp.g_match st) /\
    is_matching (GraphHpp.edges g) (GraphHpp.g_matching st).
Proof.
  intros Hc Hfuel. apply HppFacts.construct_Ok in Hc as (Hwf & _ & _).
  destruct (HppFacts.findMaxMatching_spec g fuel Hwf Hfuel)
    as (st & Hst & Hinv & Hfind).
  destruct Hinv as (_ & _ & _ & _ & Hsym & Hsub & Hdis).
  exists st. split; [exact Hst | ]. split; [exact Hfind | ]. split; [exact Hsym | ].
  split; [ | exact Hdis].
  intros e He. exists e. split; [apply Hsub; exact He | ].
  unfold GraphHpp.Edge_eq. rewrite !Z.eqb_refl. reflexivity.
Qed.

End Engines.

(** * graph.hpp: further properties *)

Module HppProperties.
Import GraphHpp HppSpec HppNotions HppFacts.

(** X1.  [Edge::operator==] is an equivalence relation: two edges are equal
    exactly when they are the same pair or the same pair reversed. *)
Theorem Edge_eq_equivalence :
  (forall a b, Edge_eq a b = true <-> a = b \/ a = swap b) /\
  (forall a, Edge_eq a a = true) /\
  (forall a b, Edge_eq a b = Edge_eq b a) /\
  (forall a b c, Edge_eq a b = true -> Edge_eq b c = true -> Edge_eq a c = true).
Proof.
  assert (Hiff : forall a b, Edge_eq a b = true <-> a = b \/ a = swap b).
  { intros [au av] [bu bv]. unfold Edge_eq, swap. simpl.
    rewrite orb_true_iff, !andb_true_iff, !Z.eqb_eq. split.
    - intros [[-> ->] | [-> ->]]; [left | right]; reflexivity.
    - intros [H | H]; injection H as -> ->; [left | right]; split; reflexivity. }
  split; [exact Hiff | ]. split; [ | split].
  - intros a. apply Hiff. left. reflexivity.
  - apply Edge_eq_sym.
  - intros a b c Hab Hbc. apply Hiff in Hab, Hbc. apply Hiff.
    destruct Hab as [-> | ->], Hbc as [-> | ->]; unfold swap; simpl.
    + left. reflexivity.
    + right. reflexivity.
    + right. reflexivity.
    + left. destruct c. reflexivity.
Qed.

Lemma adj_is_neighbours (g : MinEdgeCover) :
  well_formed g -> adj g = map (neighbours (edges g)) (upto (n g)).
Proof.
  intros (Hn & _ & Hlen & Hadj & _).
  apply (list_eq_same_length _ _ (Z.to_nat (n g))).
  - rewrite length_map. unfold upto. rewrite length_seqZ. reflexivity.
  - lia.
  - intros k x y Hk Hx Hy.
    rewrite list_lookup_fmap in Hy.
    destruct (upto (n g) !! k) as [i | ] eqn:Ei; [ | discriminate].
    simpl in Hy. injection Hy as <-.
    apply lookup_seqZ in Ei as [-> _].
    specialize (Hadj (Z.of_nat k)). unfold zlookup, in_range in Hadj.
    destruct (Z.ltb_spec (Z.of_nat k) 0); [lia | ].
    rewrite Z.add_0_l, Nat2Z.id in *. rewrite Hadj in Hx by lia. congruence.
Qed.

(** X2.  The graph that the constructor returns stores the vertex count and
    the edge list unchanged, and its adjacency lists are those of the edge
    list: [v] is in [adj[u]] exactly when some edge joins [u] and [v].  The
    adjacency is therefore symmetric. *)
Theorem construct_adjacency (vertices : Z) (edgeList : list Edge)
    (g : MinEdgeCover) :
  construct vertices edgeList = Ok g ->
  n g = vertices /\ edges g = edgeList /\
  Z.of_nat (length (adj g)) = vertices /\
  forall a, in_range vertices a ->
    exists l, zlookup (adj g) a = Some l /\
      (forall b, b ∈ l <-> exists e, e ∈ edgeList /\ joins e a b) /\
      (forall b, b ∈ l -> exists l', zlookup (adj g) b = Some l' /\ a ∈ l').
Proof.
  intros Hc. apply construct_Ok in Hc as (Hwf & <- & <-).
  pose proof Hwf as (Hn & Hedges & Hlen & Hadj & _).
  split; [reflexivity | ]. split; [reflexivity | ]. split; [exact Hlen | ].
  intros a Ha. exists (neighbours (edges g) a).
  split; [apply Hadj; exact Ha | ]. split.
  - intros b. apply neighbours_elem.
  - intros b Hb. apply neighbours_elem in Hb as (e & He & Hj).
    assert (Hbr : in_range (n g) b).
    { destruct (Hedges e He) as [Hu Hv].
      destruct Hj as [[_ <-] | [_ <-]]; assumption. }
    exists (neighbours (edges g) b). split; [apply Hadj; exact Hbr | ].
    apply neighbours_elem. exists e. split; [exact He | ].
    destruct Hj as [[H1 H2] | [H1 H2]]; [right | left]; split; assumption.
Qed.

Lemma construct_adjacency_witness :
  n (mkMinEdgeCover 3 path3 [[1]; [0; 2]; [1]]) = 3 /\
  edges (mkMinEdgeCover 3 path3 [[1]; [0; 2]; [1]]) = path3 /\
  Z.of_nat (length (adj (mkMinEdgeCover 3 path3 [[1]; [0; 2]; [1]]))) = 3 /\
  forall a, in_range 3 a ->
    exists l, zlookup (adj (mkMinEdgeCover 3 path3 [[1]; [0; 2]; [1]])) a = Some l /\
      (forall b, b ∈ l <-> exists e, e ∈ path3 /\ joins e a b) /\
      (forall b, b ∈ l ->
         exists l', zlookup (adj (mkMinEdgeCover 3 path3 [[1]; [0; 2]; [1]])) b = Some l' /\
                    a ∈ l').
Proof.
  apply (construct_adjacency 3 path3 (mkMinEdgeCover 3 path3 [[1]; [0; 2]; [1]])).
  reflexivity.
Defined.

Lemma sum_indicator (a : Z) (m k : Z) :
  0 <= k ->
  sum_list (map (fun i => if decide (i = a) then 1%nat else 0%nat) (seqZ m k)) =
  if decide (m <= a < m + k) then 1%nat else 0%nat.
Proof.
  intros Hk. revert m. pattern k. apply natlike_ind; [ | | exact Hk].
  - intros m. simpl. destruct (decide (m <= a < m + 0)); [lia | reflexivity].
  - intros x Hx IH m. rewrite seqZ_cons by lia. simpl.
    replace (Z.pred (Z.succ x)) with x by lia. rewrite IH.
    destruct (decide (m = a)) as [-> | Hne].
    + destruct (decide (Z.succ a <= a < Z.succ a + x)); [lia | ].
      destruct (decide (a <= a < a + Z.succ x)); [reflexivity | lia].
    + destruct (decide (Z.succ m <= a < Z.succ m + x)),
               (decide (m <= a < m + Z.succ x)); try reflexivity; lia.
Qed.

Lemma sum_list_map_add {A : Type} (f h : A -> nat) (l : list A) :
  sum_list (map (fun i => (f i + h i)%nat) l) =
  (sum_list (map f l) + sum_list (map h l))%nat.
Proof. induction l as [ | i l IH]; simpl; [reflexivity | rewrite IH; lia]. Qed.

Lemma degree_sum_neighbours (nv : Z) (es : list Edge) :
  0 <= nv ->
  (forall e, e ∈ es -> edge_in_range nv e) ->
  sum_list (map length (map (neighbours es) (upto nv))) = (2 * length es)%nat.
Proof.
  intros Hnv. rewrite map_map. induction es as [ | e es IH]; intros Hr.
  - unfold neighbours. simpl. induction (upto nv); simpl; [reflexivity | assumption].
  - rewrite (map_ext _ (fun i => (length (neighbours_of e i) +
                                  length (neighbours es i))%nat)).
    2: { intros i. change (neighbours (e :: es) i)
           with (neighbours_of e i ++ neighbours es i). apply length_app. }
    rewrite sum_list_map_add, IH by (intros x Hx; apply Hr; right; exact Hx).
    rewrite (map_ext _ (fun i => ((if decide (i = eu e) then 1 else 0) +
                                  (if decide (i = ev e) then 1 else 0))%nat)).
    2: { intros i. unfold neighbours_of. rewrite length_app.
         destruct (decide (i = eu e)), (decide (i = ev e)); reflexivity. }
    rewrite sum_list_map_add. unfold upto. rewrite !sum_indicator by exact Hnv.
    destruct (Hr e) as [Hu Hv]; [left | ]. unfold in_range in Hu, Hv.
    destruct (decide (0 <= eu e < 0 + nv)); [ | lia].
    destruct (decide (0 <= ev e < 0 + nv)); [ | lia].
    simpl length. lia.
Qed.

(** X3.  In the graph that the constructor returns the lengths of the
    adjacency lists add up to twice the number of edges, self-loops and
    repeated edges included. *)
Theorem construct_degree_sum (vertices : Z) (edgeList : list Edge)
    (g : MinEdgeCover) :
  construct vertices edgeList = Ok g ->
  degree_sum (adj g) = (2 * length edgeList)%nat.
Proof.
  intros Hc. apply construct_Ok in Hc as (Hwf & _ & <-).
  pose proof Hwf as (Hn & Hedges & _).
  unfold degree_sum. rewrite (adj_is_neighbours g Hwf).
  apply degree_sum_neighbours; [lia | exact Hedges].
Qed.

Lemma construct_degree_sum_witness :
  degree_sum (adj (mkMinEdgeCover 3 path3 [[1]; [0; 2]; [1]])) =
  (2 * length path3)%nat.
Proof.
  apply (construct_degree_sum 3 path3 (mkMinEdgeCover 3 path3 [[1]; [0; 2]; [1]])).
  reflexivity.
Defined.

Lemma construct_invalid_argument_iff_witness :
  ((exists what, construct 3 [mkEdge 0 1] = Err (InvalidArgument what)) <->
   3 = 0 \/
   (exists e, e ∈ [mkEdge 0 1] /\ ~ edge_in_range 3 e) \/
   (exists i, in_range 3 i /\ forall e, e ∈ [mkEdge 0 1] -> ~ touches e i)) /\
  ((exists g, construct 3 [mkEdge 0 1] = Ok g) \/
   (exists what, construct 3 [mkEdge 0 1] = Err (InvalidArgument what))).
Proof.
  apply (construct_invalid_argument_iff 3 [mkEdge 0 1]). unfold INT_MAX. lia.
Defined.

(** ** The matching engine *)

(** X5.  On every graph the constructor returned [findMaxMatching] returns a
    maximal matching: its edges are edges of the graph, no two of them share
    a vertex, and every edge of the graph shares a vertex with one of them. *)
Theorem findMaxMatching_maximal_matching (vertices : Z) (edgeList : list Edge)
    (g : MinEdgeCover) (fuel : nat) :
  construct vertices edgeList = Ok g ->
  2 * n g < Z.of_nat fuel ->
  exists M, findMaxMatching fuel g = Ok M /\
    (forall e, e ∈ M -> e ∈ edgeList) /\
    vertex_disjoint M /\
    (forall e, e ∈ edgeList ->
       exists e' x, e' ∈ M /\ touches e x /\ touches e' x).
Proof.
  intros Hc Hfuel. apply construct_Ok in Hc as (Hwf & _ & <-).
  destruct (findMaxMatching_spec g fuel Hwf Hfuel) as (gs & Hgs & Hinv & Hfind).
  destruct Hinv as (_ & _ & Hused & _ & _ & Hsub & Hdis).
  exists (g_matching gs). split; [exact Hfind | ]. split; [exact Hsub | ].
  split; [exact Hdis | ].
  intros e He. destruct (greedy_is_maximal g gs Hgs e He) as [H | H];
    apply Hused in H as (e' & He' & Ht).
  - exists e', (eu e). split; [exact He' | ]. split; [left; reflexivity | exact Ht].
  - exists e', (ev e). split; [exact He' | ]. split; [right; reflexivity | exact Ht].
Qed.

Lemma findMaxMatching_maximal_matching_witness :
  exists M,
    findMaxMatching 9 (mkMinEdgeCover 4 path4 [[1]; [2; 0]; [1; 3]; [2]]) = Ok M /\
    (forall e, e ∈ M -> e ∈ path4) /\
    vertex_disjoint M /\
    (forall e, e ∈ path4 ->
       exists e' x, e' ∈ M /\ touches e x /\ touches e' x).
Proof.
  apply (findMaxMatching_maximal_matching 4 path4
           (mkMinEdgeCover 4 path4 [[1]; [2; 0]; [1; 3]; [2]]) 9).
  - reflexivity.
  - simpl. lia.
Defined.

Lemma greedy_step_matching (st st' : greedy_state) (e : Edge) :
  greedy_step st e = Ok st' ->
  (g_matching st' = g_matching st /\
   (zlookup (g_used st) (eu e) = Some true \/
    zlookup (g_used st) (ev e) = Some true)) \/
  g_matching st' = g_matching st ++ [e].
Proof.
  intros H. unfold greedy_step in H.
  bind_inv_as H bu Hbu. apply vget_Ok in Hbu. destruct bu.
  { injection H as <-. left. split; [reflexivity | left; exact Hbu]. }
  bind_inv_as H bv Hbv. apply vget_Ok in Hbv. destruct bv.
  { injection H as <-. left. split; [reflexivity | right; exact Hbv]. }
  bind_inv_as H m1 Hm1. bind_inv_as H m2 Hm2.
  bind_inv_as H u1 Hu1. bind_inv_as H u2 Hu2. injection H as <-.
  right. reflexivity.
Qed.

(** The greedy loop keeps the input order and takes the first edge. *)
Lemma greedy_input_order (g : MinEdgeCover) (gs : greedy_state) :
  greedy g = Ok gs ->
  g_matching gs `sublist_of` edges g /\
  forall e0 rest, edges g = e0 :: rest -> exists M', g_matching gs = e0 :: M'.
Proof.
  unfold greedy. intros H. bind_inv_as H match0 Hm0. bind_inv_as H used0 Hu0.
  apply vector_make_inv in Hu0 as [-> _].
  enough (Hall : g_matching gs `sublist_of` edges g /\
            (edges g = [] -> g_matching gs = [] /\
               forall i, zlookup (g_used gs) i <> Some true) /\
            (forall e0 rest, edges g = e0 :: rest ->
               exists M', g_matching gs = e0 :: M')).
  { destruct Hall as (Hsub & _ & Hhead). split; assumption. }
  apply (foldM_invariant
           (fun pre st =>
              g_matching st `sublist_of` pre /\
              (pre = [] -> g_matching st = [] /\
                 forall i, zlookup (g_used st) i <> Some true) /\
              (forall e0 rest, pre = e0 :: rest ->
                 exists M', g_matching st = e0 :: M')) _ _ _ _ H).
  - simpl. split; [constructor | ]. split.
    + intros _. split; [reflexivity | ]. intros i Hi.
      pose proof (zlookup_Some_range _ _ _ Hi) as Hr.
      rewrite length_replicate in Hr. rewrite zlookup_replicate in Hi by lia.
      discriminate.
    + intros e0 rest Hnil. discriminate.
  - intros pre e post s0 s1 _ (Hsub & Hfirst & Hhead) Hstep.
    destruct (greedy_step_matching s0 s1 e Hstep) as [[Heq Hused] | Heq]; rewrite Heq.
    + split; [apply sublist_inserts_r; exact Hsub | ]. split.
      * intros Hnil. destruct pre; discriminate.
      * intros e0 rest Hpre. destruct pre as [ | p pre].
        -- exfalso. destruct (Hfirst eq_refl) as [_ Hfree].
           destruct Hused as [Hu | Hu]; exact (Hfree _ Hu).
        -- simpl in Hpre. injection Hpre as <- _. apply (Hhead p pre). reflexivity.
    + split; [apply sublist_app; [exact Hsub | reflexivity] | ]. split.
      * intros Hnil. destruct pre; discriminate.
      * intros e0 rest Hpre. destruct pre as [ | p pre].
        -- simpl in Hpre. injection Hpre as <- _.
           destruct (Hfirst eq_refl) as [-> _]. exists []. reflexivity.
        -- simpl in Hpre. injection Hpre as <- _.
           destruct (Hhead p pre eq_refl) as (M' & ->).
           exists (M' ++ [e]). reflexivity.
Qed.

Lemma constructed_edges_nonempty (g : MinEdgeCover) :
  well_formed g -> exists e0 rest, edges g = e0 :: rest.
Proof.
  intros (Hn & _ & _ & _ & Htouch).
  destruct (Htouch 0) as (e & He & _); [unfold in_range; lia | ].
  destruct (edges g) as [ | e0 rest]; [inversion He | ].
  exists e0, rest. reflexivity.
Qed.

(** X6.  The matching that [findMaxMatching] returns is a subsequence of the
    input edge list, in input order, and begins with the first input edge. *)
Theorem findMaxMatching_input_order (vertices : Z) (edgeList : list Edge)
    (g : MinEdgeCover) (fuel : nat) :
  construct vertices edgeList = Ok g ->
  2 * n g < Z.of_nat fuel ->
  exists M e0 rest M',
    findMaxMatching fuel g = Ok M /\
    M `sublist_of` edgeList /\
    edgeList = e0 :: rest /\ M = e0 :: M'.
Proof.
  intros Hc Hfuel. apply construct_Ok in Hc as (Hwf & _ & <-).
  destruct (findMaxMatching_spec g fuel Hwf Hfuel) as (gs & Hgs & _ & Hfind).
  destruct (greedy_input_order g gs Hgs) as [Hsub Hhead].
  destruct (constructed_edges_nonempty g Hwf) as (e0 & rest & Hes).
  destruct (Hhead e0 rest Hes) as (M' & HM).
  exists (g_matching gs), e0, rest, M'.
  split; [exact Hfind | ]. split; [exact Hsub | ]. split; assumption.
Qed.

Lemma findMaxMatching_input_order_witness :
  exists M e0 rest M',
    findMaxMatching 9 (mkMinEdgeCover 4 path4 [[1]; [2; 0]; [1; 3]; [2]]) = Ok M /\
    M `sublist_of` path4 /\
    path4 = e0 :: rest /\ M = e0 :: M'.
Proof.
  apply (findMaxMatching_input_order 4 path4
           (mkMinEdgeCover 4 path4 [[1]; [2; 0]; [1; 3]; [2]]) 9).
  - reflexivity.
  - simpl. lia.
Defined.

Lemma elem_of_endpoints (M : list Edge) (x : Z) :
  x ∈ endpoints M <-> exists e, e ∈ M /\ touches e x.
Proof.
  unfold endpoints, touches. induction M as [ | a M IH]; simpl.
  - rewrite elem_of_nil. split; [tauto | ]. intros (e & He & _). inversion He.
  - rewrite !elem_of_cons, IH. split.
    + intros [-> | [-> | (e & He & Ht)]].
      * exists a. split; [left | left]; reflexivity.
      * exists a. split; [left | right]; reflexivity.
      * exists e. split; [right; exact He | exact Ht].
    + intros (e & He & Ht). apply elem_of_cons in He as [-> | He].
      * destruct Ht as [<- | <-]; [left | right; left]; reflexivity.
      * right. right. exists e. split; assumption.
Qed.

Lemma length_endpoints (M : list Edge) : length (endpoints M) = (2 * length M)%nat.
Proof.
  unfold endpoints. induction M as [ | a M IH]; simpl; [reflexivity | ].
  rewrite IH. lia.
Qed.

(** One vertex per edge of [M'], chosen among those in [K]. *)
Lemma choose_endpoints (M' : list Edge) (K : list Z) :
  (forall e, e ∈ M' -> exists x, touches e x /\ x ∈ K) ->
  exists xs, Forall2 (fun e x => touches e x /\ x ∈ K) M' xs.
Proof.
  induction M' as [ | a M' IH]; intros H.
  - exists []. constructor.
  - destruct (H a) as (x & Hx); [left | ].
    destruct IH as (xs & Hxs); [intros e He; apply H; right; exact He | ].
    exists (x :: xs). constructor; assumption.
Qed.

(** X7.  The matching that [findMaxMatching] returns has at least half as
    many edges as any matching of the graph. *)
Theorem findMaxMatching_half_of_any_matching (vertices : Z)
    (edgeList : list Edge) (g : MinEdgeCover) (fuel : nat) (M' : list Edge) :
  construct vertices edgeList = Ok g ->
  2 * n g < Z.of_nat fuel ->
  is_matching edgeList M' ->
  exists M, findMaxMatching fuel g = Ok M /\ (length M' <= 2 * length M)%nat.
Proof.
  intros Hc Hfuel [Hin Hdis']. apply construct_Ok in Hc as (Hwf & _ & <-).
  destruct (findMaxMatching_spec g fuel Hwf Hfuel) as (gs & Hgs & Hinv & Hfind).
  destruct Hinv as (_ & _ & Hused & _).
  exists (g_matching gs). split; [exact Hfind | ].
  destruct (choose_endpoints M' (endpoints (g_matching gs))) as (xs & Hxs).
  { intros e' He'. destruct (Hin e' He') as (e & He & Heq).
    rewrite Edge_eq_sym in Heq.
    destruct (greedy_is_maximal g gs Hgs e He) as [H | H].
    - exists (eu e). split.
      + apply (Edge_eq_same_endpoints e e'); [exact Heq | left; reflexivity].
      + apply elem_of_endpoints. apply Hused. exact H.
    - exists (ev e). split.
      + apply (Edge_eq_same_endpoints e e'); [exact Heq | right; reflexivity].
      + apply elem_of_endpoints. apply Hused. exact H. }
  rewrite (Forall2_length _ _ _ Hxs), <- length_endpoints.
  apply submseteq_length. apply NoDup_submseteq.
  - apply NoDup_alt. intros i j x Hi Hj.
    destruct (decide (i = j)) as [ | Hne]; [assumption | exfalso].
    destruct (Forall2_lookup_r _ _ _ _ _ Hxs Hi) as (a & Ha & Hax & _).
    destruct (Forall2_lookup_r _ _ _ _ _ Hxs Hj) as (b & Hb & Hbx & _).
    exact (Hdis' i j a b Ha Hb Hne x Hax Hbx).
  - intros x Hx. apply list_elem_of_lookup_1 in Hx as [i Hi].
    destruct (Forall2_lookup_r _ _ _ _ _ Hxs Hi) as (a & _ & _ & HK). exact HK.
Qed.

Lemma findMaxMatching_half_of_any_matching_witness :
  exists M,
    findMaxMatching 9 (mkMinEdgeCover 4 path4 [[1]; [2; 0]; [1; 3]; [2]]) = Ok M /\
    (length [mkEdge 0 1; mkEdge 2 3] <= 2 * length M)%nat.
Proof.
  apply (findMaxMatching_half_of_any_matching 4 path4
           (mkMinEdgeCover 4 path4 [[1]; [2; 0]; [1; 3]; [2]]) 9
           [mkEdge 0 1; mkEdge 2 3]).
  - reflexivity.
  - simpl. lia.
  - apply matching_01_23.
Defined.

(** ** The cover composer *)

Lemma cover_vertex_result (i : Z) (es result : list Edge) (covered : list bool)
    (r : list Edge * list bool) :
  cover_vertex i es result covered = Ok r ->
  fst r = result \/ exists e, e ∈ es /\ fst r = result ++ [e].
Proof.
  induction es as [ | a es IH]; simpl; intros H.
  - injection H as <-. left. reflexivity.
  - destruct ((eu a =? i) || (ev a =? i)).
    + bind_inv_as H c1 Hc1. bind_inv_as H c2 Hc2. bind_inv_as H c3 Hc3.
      injection H as <-. right. exists a. split; [left | reflexivity].
    + destruct (IH H) as [Hr | (e & He & Hr)]; [left; exact Hr | ].
      right. exists e. split; [right; exact He | exact Hr].
Qed.

Lemma complete_step_result (g : MinEdgeCover) (st st' : list Edge * list bool)
    (i : Z) :
  complete_step g st i = Ok st' ->
  fst st' = fst st \/ exists e, e ∈ edges g /\ fst st' = fst st ++ [e].
Proof.
  unfold complete_step. intros H. bind_inv_as H ci Hci. destruct ci.
  - injection H as <-. left. reflexivity.
  - exact (cover_vertex_result _ _ _ _ _ H).
Qed.

(** The run of [solve], with the matching as a prefix of the cover. *)
Lemma solve_prefix (g : MinEdgeCover) :
  well_formed g ->
  exists gs cover,
    greedy g = Ok gs /\
    (forall fuel, 2 * n g < Z.of_nat fuel ->
       findMaxMatching fuel g = Ok (g_matching gs) /\ solve fuel g = Ok cover) /\
    g_matching gs `prefix_of` cover /\
    (forall e, e ∈ cover -> e ∈ edges g).
Proof.
  intros Hwf.
  destruct (solve_run g Hwf)
    as (gs & c1 & st & Hgs & _ & _ & _ & _ & Hst & Hfinal & Hsolve).
  exists gs, (fst st). split; [exact Hgs | ]. split; [ | split].
  - intros fuel Hfuel. split; [ | apply Hsolve; exact Hfuel].
    destruct (findMaxMatching_spec g fuel Hwf Hfuel) as (gs' & Hgs' & _ & Hfind).
    rewrite Hgs in Hgs'. injection Hgs' as <-. exact Hfind.
  - apply (foldM_invariant (fun _ s => g_matching gs `prefix_of` fst s) _ _ _ _ Hst).
    + simpl. reflexivity.
    + intros pre i post s0 s1 _ Hpre Hstep.
      destruct (complete_step_result g s0 s1 i Hstep) as [-> | (e & _ & ->)];
        [exact Hpre | apply prefix_app_r; exact Hpre].
  - destruct Hfinal as (_ & Hsub & _). exact Hsub.
Qed.

(** X8.  The sequence that [solve] returns begins with the matching that
    [findMaxMatching] returned, and every edge in it is one of the input
    edges, in the orientation in which it was given. *)
Theorem solve_extends_matching (vertices : Z) (edgeList : list Edge)
    (g : MinEdgeCover) (fuel : nat) :
  construct vertices edgeList = Ok g ->
  2 * n g < Z.of_nat fuel ->
  exists M cover,
    findMaxMatching fuel g = Ok M /\ solve fuel g = Ok cover /\
    M `prefix_of` cover /\
    (forall e, e ∈ cover -> e ∈ edgeList).
Proof.
  intros Hc Hfuel. apply construct_Ok in Hc as (Hwf & _ & <-).
  destruct (solve_prefix g Hwf) as (gs & cover & _ & Hrun & Hpre & Hsub).
  destruct (Hrun fuel Hfuel) as [Hfind Hsolve].
  exists (g_matching gs), cover. repeat (split; [assumption | ]). exact Hsub.
Qed.

Lemma solve_extends_matching_witness :
  exists M cover,
    findMaxMatching 9 (mkMinEdgeCover 4 path4 [[1]; [2; 0]; [1; 3]; [2]]) = Ok M /\
    solve 9 (mkMinEdgeCover 4 path4 [[1]; [2; 0]; [1; 3]; [2]]) = Ok cover /\
    M `prefix_of` cover /\
    (forall e, e ∈ cover -> e ∈ path4).
Proof.
  apply (solve_extends_matching 4 path4
           (mkMinEdgeCover 4 path4 [[1]; [2; 0]; [1; 3]; [2]]) 9).
  - reflexivity.
  - simpl. lia.
Defined.

(** X9.  On a graph without self-loops the cover that [solve] returns has
    exactly [n - |M|] edges, [M] being the matching that [findMaxMatching]
    returned; [M] is not empty, so the cover has between [n / 2] and [n - 1]
    edges. *)
Theorem solve_size (vertices : Z) (edgeList : list Edge)
    (g : MinEdgeCover) (fuel : nat) :
  construct vertices edgeList = Ok g ->
  loop_free edgeList ->
  2 * n g < Z.of_nat fuel ->
  exists M cover,
    findMaxMatching fuel g = Ok M /\ solve fuel g = Ok cover /\
    Z.of_nat (length cover) = vertices - Z.of_nat (length M) /\
    (1 <= length M)%nat /\
    vertices <= 2 * Z.of_nat (length cover) /\
    Z.of_nat (length cover) <= vertices - 1.
Proof.
  intros Hc Hloop Hfuel.
  destruct (solve_cardinality vertices edgeList g fuel Hc)
    as (M & cover & Hfind & Hsolve & Hsize); [ | exact Hfuel | ].
  { apply construct_Ok in Hc as (_ & _ & ->). exact Hloop. }
  apply construct_Ok in Hc as (Hwf & <- & <-).
  destruct (solve_prefix g Hwf) as (gs & cover' & Hgs & Hrun & Hpre & _).
  destruct (Hrun fuel Hfuel) as [Hfind' Hsolve'].
  rewrite Hfind in Hfind'. injection Hfind' as ->.
  rewrite Hsolve in Hsolve'. injection Hsolve' as ->.
  destruct (constructed_edges_nonempty g Hwf) as (e0 & rest & Hes).
  destruct (greedy_input_order g gs Hgs) as [_ Hhead].
  destruct (Hhead e0 rest Hes) as (M' & HM).
  pose proof (prefix_length _ _ Hpre) as Hle.
  exists (g_matching gs), cover'.
  split; [exact Hfind | ]. split; [exact Hsolve | ]. split; [exact Hsize | ].
  rewrite HM in *. simpl length in *. lia.
Qed.

Lemma solve_size_witness :
  exists M cover,
    findMaxMatching 7 (mkMinEdgeCover 3 path3 [[1]; [0; 2]; [1]]) = Ok M /\
    solve 7 (mkMinEdgeCover 3 path3 [[1]; [0; 2]; [1]]) = Ok cover /\
    Z.of_nat (length cover) = 3 - Z.of_nat (length M) /\
    (1 <= length M)%nat /\
    3 <= 2 * Z.of_nat (length cover) /\
    Z.of_nat (length cover) <= 3 - 1.
Proof.
  apply (solve_size 3 path3 (mkMinEdgeCover 3 path3 [[1]; [0; 2]; [1]]) 7).
  - reflexivity.
  - intros e He. unfold path3 in He.
    repeat (apply elem_of_cons in He as [-> | He]; [simpl; lia | ]).
    inversion He.
  - simpl. lia.
Defined.

(** ** The verifier *)

Lemma isEdgeCover_out_of_range (n : Z) (cover : list Edge) :
  0 <= n <= PTRDIFF_MAX ->
  (exists e, e ∈ cover /\ ~ edge_in_range n e) ->
  isEdgeCover n cover = Err OutOfBounds.
Proof.
  intros Hn Hex. unfold isEdgeCover. rewrite (vector_make_Ok n false Hn). simpl.
  rewrite mark_all_Err; [reflexivity | ].
  rewrite length_replicate, Z2Nat.id by lia. exact Hex.
Qed.

(** X10.  [isEdgeCover] depends only on which edges the candidate contains:
    two candidates with the same elements, in any order and with any
    repetitions, get the same answer, out-of-bounds failure included. *)
Theorem isEdgeCover_same_edges (n : Z) (c c' : list Edge) :
  0 <= n <= INT_MAX ->
  (forall e, e ∈ c <-> e ∈ c') ->
  isEdgeCover n c = isEdgeCover n c'.
Proof.
  intros Hn Hsame.
  assert (Hn' : 0 <= n <= PTRDIFF_MAX).
  { pose proof INT_MAX_le_PTRDIFF_MAX. lia. }
  destruct (edges_in_range_dec n c) as [Hall | (e & He & Hbad)].
  - assert (Hall' : forall e, e ∈ c' -> edge_in_range n e).
    { intros e He. apply Hall. apply Hsame. exact He. }
    destruct (isEdgeCover_spec n c Hn' Hall) as (b & Hb & Hiff).
    destruct (isEdgeCover_spec n c' Hn' Hall') as (b' & Hb' & Hiff').
    rewrite Hb, Hb'. f_equal.
    assert (Hcov : covers n c <-> covers n c').
    { unfold covers. split; intros H i Hi; destruct (H i Hi) as (e & He & Ht);
        exists e; (split; [apply Hsame; exact He | exact Ht]). }
    destruct b, b'; try reflexivity.
    + assert (false = true) by (apply Hiff'; apply Hcov; apply Hiff; reflexivity).
      discriminate.
    + assert (false = true) by (apply Hiff; apply Hcov; apply Hiff'; reflexivity).
      discriminate.
  - rewrite (isEdgeCover_out_of_range n c Hn').
    + symmetry. apply (isEdgeCover_out_of_range n c' Hn').
      exists e. split; [apply Hsame; exact He | exact Hbad].
    + exists e. split; assumption.
Qed.

Lemma isEdgeCover_same_edges_witness :
  isEdgeCover 3 [mkEdge 0 1; mkEdge 1 2] =
  isEdgeCover 3 [mkEdge 1 2; mkEdge 0 1; mkEdge 1 2].
Proof.
  apply (isEdgeCover_same_edges 3).
  - unfold INT_MAX. lia.
  - intros e. rewrite !elem_of_cons, !elem_of_nil. tauto.
Defined.

(** X11.  A candidate that [isEdgeCover] accepts stays accepted when edges
    with endpoints in [[0, n)] are added to it. *)
Theorem isEdgeCover_monotone (n : Z) (c c' : list Edge) :
  0 <= n <= INT_MAX ->
  (forall e, e ∈ c -> e ∈ c') ->
  (forall e, e ∈ c' -> edge_in_range n e) ->
  isEdgeCover n c = Ok true ->
  isEdgeCover n c' = Ok true.
Proof.
  intros Hn Hsub Hall' Hc.
  assert (Hn' : 0 <= n <= PTRDIFF_MAX).
  { pose proof INT_MAX_le_PTRDIFF_MAX. lia. }
  assert (Hall : forall e, e ∈ c -> edge_in_range n e).
  { intros e He. apply Hall'. apply Hsub. exact He. }
  destruct (isEdgeCover_spec n c Hn' Hall) as (b & Hb & Hiff).
  destruct (isEdgeCover_spec n c' Hn' Hall') as (b' & Hb' & Hiff').
  rewrite Hb in Hc. injection Hc as ->.
  rewrite Hb'. f_equal. apply Hiff'.
  intros i Hi. destruct (proj1 Hiff eq_refl i Hi) as (e & He & Ht).
  exists e. split; [apply Hsub; exact He | exact Ht].
Qed.

Lemma isEdgeCover_monotone_witness :
  isEdgeCover 3 [mkEdge 0 1; mkEdge 1 2; mkEdge 2 0] = Ok true.
Proof.
  apply (isEdgeCover_monotone 3 [mkEdge 0 1; mkEdge 1 2]).
  - unfold INT_MAX. lia.
  - intros e. rewrite !elem_of_cons, !elem_of_nil. tauto.
  - intros e He. unfold edge_in_range, in_range.
    repeat (apply elem_of_cons in He as [-> | He]; [simpl; lia | ]).
    inversion He.
  - reflexivity.
Defined.

(** ** The parent-chain walk *)

(** X12.  The walk [while (parent[v] != -1)] fails whenever the parent of
    [v] is a root: it pairs [v] with its parent [u], moves to [parent[u]],
    which is [-1], and then reads [parent[-1]]. *)
Theorem augment_at_root_out_of_bounds (fuel : nat) (parent match_ : list Z)
    (v u : Z) :
  zlookup parent v = Some u ->
  u <> -1 ->
  zlookup parent u = Some (-1) ->
  augment (S (S fuel)) parent match_ v = Err OutOfBounds.
Proof.
  intros Hv Hu Hroot. simpl.
  rewrite (proj2 (vget_Ok parent v u) Hv). simpl.
  destruct (Z.eqb_spec u (-1)) as [ | _]; [contradiction | ].
  rewrite (proj2 (vget_Ok parent u (-1)) Hroot). simpl.
  destruct (vset match_ v u) as [m1 | err] eqn:E1; simpl.
  - destruct (vset m1 u v) as [m2 | err] eqn:E2; simpl.
    + reflexivity.
    + apply vset_Err in E2 as [-> _]. reflexivity.
  - apply vset_Err in E1 as [-> _]. reflexivity.
Qed.

Lemma augment_at_root_out_of_bounds_witness :
  augment 2 [-1; 0] [-1; -1] 1 = Err OutOfBounds.
Proof.
  apply (augment_at_root_out_of_bounds 0 [-1; 0] [-1; -1] 1 0).
  - reflexivity.
  - lia.
  - reflexivity.
Defined.

End HppProperties.

(** * main.cpp: further properties *)

Module MainProperties.
Import MainCpp MainSpec MainNotions MainFacts.

(** X13.  [Edge::operator<] is a strict total order on edges: irreflexive,
    transitive, and any two different edges are ordered one way. *)
Theorem Edge_lt_strict_total_order :
  (forall a, Edge_lt a a = false) /\
  (forall a b c, Edge_lt a b = true -> Edge_lt b c = true -> Edge_lt a c = true) /\
  (forall a b, Edge_lt a b = true -> Edge_lt b a = false) /\
  (forall a b, Edge_lt a b = false -> Edge_lt b a = false -> a = b).
Proof.
  assert (Hlt : forall a b, Edge_lt a b = true <->
            eu a < eu b \/ (eu a = eu b /\ ev a < ev b)).
  { intros a b. unfold Edge_lt. destruct (Z.eqb_spec (eu a) (eu b)); simpl.
    - rewrite Z.ltb_lt. lia.
    - rewrite Z.ltb_lt. lia. }
  assert (Hnlt : forall a b, Edge_lt a b = false <->
            ~ (eu a < eu b \/ (eu a = eu b /\ ev a < ev b))).
  { intros a b. rewrite <- Hlt. destruct (Edge_lt a b); split; congruence. }
  split; [ | split; [ | split]].
  - intros a. apply Hnlt. lia.
  - intros a b c Hab Hbc. apply Hlt in Hab, Hbc. apply Hlt. lia.
  - intros a b Hab. apply Hlt in Hab. apply Hnlt. lia.
  - intros [au av] [bu bv] Hab Hba. apply Hnlt in Hab, Hba. simpl in *.
    f_equal; lia.
Qed.

Lemma Edge_lt_cases (a b : Edge) :
  (Edge_lt a b = true /\ Edge_lt b a = false) \/
  (Edge_lt a b = false /\ Edge_lt b a = true) \/
  (Edge_lt a b = false /\ Edge_lt b a = false /\ a = b).
Proof.
  destruct a as [au av], b as [bu bv]. unfold Edge_lt. simpl.
  destruct (Z.eqb_spec au bu), (Z.eqb_spec bu au); simpl; try lia;
    repeat match goal with
           | |- context [?x <? ?y] => destruct (Z.ltb_spec x y)
           end;
    first [ lia
          | left; split; reflexivity
          | right; left; split; reflexivity
          | right; right; repeat split; f_equal; lia ].
Qed.

Lemma Edge_lt_trans (a b c : Edge) :
  Edge_lt a b = true -> Edge_lt b c = true -> Edge_lt a c = true.
Proof.
  destruct a as [au av], b as [bu bv], c as [cu cv]. unfold Edge_lt. simpl.
  destruct (Z.eqb_spec au bu), (Z.eqb_spec bu cu), (Z.eqb_spec au cu); simpl;
    rewrite ?Z.ltb_lt; lia.
Qed.

(** ** Building a graph *)

Lemma pair_neighbours_of_elem (p : Z * Z) (i x : Z) :
  x ∈ pair_neighbours_of p i <-> pair_joins p i x.
Proof.
  unfold pair_neighbours_of, pair_joins.
  destruct (decide (i = fst p)) as [H1 | H1], (decide (i = snd p)) as [H2 | H2];
    simpl; rewrite ?elem_of_cons, ?elem_of_nil; intuition congruence.
Qed.

Lemma pair_neighbours_elem (pairs : list (Z * Z)) (i x : Z) :
  x ∈ pair_neighbours pairs i <-> exists p, p ∈ pairs /\ pair_joins p i x.
Proof.
  unfold pair_neighbours. induction pairs as [ | a pairs IH]; simpl.
  - rewrite elem_of_nil. split; [tauto | ]. intros (e & He & _). inversion He.
  - rewrite elem_of_app, IH, pair_neighbours_of_elem. split.
    + intros [H | (e & He & H)].
      * exists a. split; [left | exact H].
      * exists e. split; [right; exact He | exact H].
    + intros (e & He & H). apply elem_of_cons in He as [-> | He].
      * left. exact H.
      * right. exists e. split; assumption.
Qed.

Lemma pair_neighbours_snoc (pairs : list (Z * Z)) (p : Z * Z) (i : Z) :
  pair_neighbours (pairs ++ [p]) i = pair_neighbours pairs i ++ pair_neighbours_of p i.
Proof.
  unfold pair_neighbours. rewrite map_app, concat_app. simpl.
  rewrite app_nil_r. reflexivity.
Qed.

(** [addEdge] on endpoints in range appends to the two adjacency lists and
    stores the normalised edge. *)
Lemma addEdge_Ok (g : Graph) (u v : Z) :
  in_range (Z.of_nat (length (adj g))) u ->
  in_range (Z.of_nat (length (adj g))) v ->
  exists g', addEdge g u v = Ok g' /\
    V g' = V g /\ length (adj g') = length (adj g) /\
    edges g' = edges g ++ [normalise (u, v)] /\
    forall i l, zlookup (adj g) i = Some l ->
                zlookup (adj g') i = Some (l ++ pair_neighbours_of (u, v) i).
Proof.
  intros Hu Hv. unfold in_range in Hu, Hv. unfold addEdge.
  destruct (vget_in_range (adj g) u) as (au & Hau & Hzu); [lia | ].
  rewrite Hau. simpl. rewrite vset_in_range by lia. simpl.
  destruct (vget_in_range (<[Z.to_nat u := au ++ [v]]> (adj g)) v)
    as (av & Hav & Hzv); [rewrite length_insert; lia | ].
  rewrite Hav. simpl. rewrite vset_in_range by (rewrite length_insert; lia).
  eexists. split; [reflexivity | ]. simpl.
  split; [reflexivity | ]. split; [rewrite !length_insert; reflexivity | ].
  split; [reflexivity | ].
  intros i l Hl. rewrite zlookup_insert in Hzv by lia.
  rewrite zlookup_insert by (rewrite length_insert; lia).
  rewrite zlookup_insert by lia. unfold pair_neighbours_of. simpl.
  destruct (decide (i = v)) as [-> | Hiv].
  - destruct (decide (v = u)) as [Heq | Hne].
    + injection Hzv as <-. rewrite Heq in Hl. rewrite Hzu in Hl. injection Hl as <-.
      rewrite <- app_assoc. reflexivity.
    + rewrite Hzv in Hl. injection Hl as <-. reflexivity.
  - destruct (decide (i = u)) as [-> | Hiu].
    + rewrite Hzu in Hl. injection Hl as <-. rewrite app_nil_r. reflexivity.
    + rewrite Hl, app_nil_r. reflexivity.
Qed.

(** [addEdge] performs no validation: an endpoint outside the adjacency
    vector is an out-of-bounds access. *)
Lemma addEdge_Err (g : Graph) (u v : Z) :
  ~ (in_range (Z.of_nat (length (adj g))) u /\
     in_range (Z.of_nat (length (adj g))) v) ->
  addEdge g u v = Err OutOfBounds.
Proof.
  intros Hbad. unfold in_range in Hbad. unfold addEdge.
  destruct (vget (adj g) u) as [au | err] eqn:Eu; simpl.
  - apply vget_Ok in Eu. pose proof (zlookup_Some_range _ _ _ Eu) as Hu.
    rewrite vset_in_range by lia. simpl.
    destruct (vget _ v) as [av | err] eqn:Ev; simpl.
    + apply vget_Ok in Ev. pose proof (zlookup_Some_range _ _ _ Ev) as Hv.
      rewrite length_insert in Hv. lia.
    + unfold vget in Ev. destruct (zlookup _ v); [discriminate | ].
      injection Ev as <-. reflexivity.
  - unfold vget in Eu. destruct (zlookup _ u); [discriminate | ].
    injection Eu as <-. reflexivity.
Qed.

Lemma pair_in_range_dec (nv : Z) (pairs : list (Z * Z)) :
  (forall p, p ∈ pairs -> pair_in_range nv p) \/
  (exists p, p ∈ pairs /\ ~ pair_in_range nv p).
Proof.
  induction pairs as [ | a pairs IH].
  - left. intros p Hp. inversion Hp.
  - assert (Ha : pair_in_range nv a \/ ~ pair_in_range nv a).
    { unfold pair_in_range, in_range. lia. }
    destruct Ha as [Ha | Ha].
    + destruct IH as [IH | (p & Hp & Hne)].
      * left. intros p Hp. apply elem_of_cons in Hp as [-> | Hp]; auto.
      * right. exists p. split; [right; exact Hp | exact Hne].
    + right. exists a. split; [left | exact Ha].
Qed.

(** The sequence of [addEdge] calls, from any graph. *)
Lemma addEdges_run (pairs : list (Z * Z)) (g0 : Graph) :
  ((forall p, p ∈ pairs -> pair_in_range (Z.of_nat (length (adj g0))) p) /\
   exists g, foldM (fun g p => addEdge g (fst p) (snd p)) pairs g0 = Ok g /\
     V g = V g0 /\ length (adj g) = length (adj g0) /\
     edges g = edges g0 ++ map normalise pairs /\
     forall i l, zlookup (adj g0) i = Some l ->
                 zlookup (adj g) i = Some (l ++ pair_neighbours pairs i)) \/
  ((exists p, p ∈ pairs /\ ~ pair_in_range (Z.of_nat (length (adj g0))) p) /\
   foldM (fun g p => addEdge g (fst p) (snd p)) pairs g0 = Err OutOfBounds).
Proof.
  revert g0. induction pairs as [ | p pairs IH]; intros g0.
  - left. split; [intros p Hp; inversion Hp | ].
    exists g0. split; [reflexivity | ]. split; [reflexivity | ].
    split; [reflexivity | ]. split; [simpl; rewrite app_nil_r; reflexivity | ].
    intros i l Hl. unfold pair_neighbours. simpl. rewrite app_nil_r. exact Hl.
  - assert (Hp : pair_in_range (Z.of_nat (length (adj g0))) p \/
                 ~ pair_in_range (Z.of_nat (length (adj g0))) p).
    { unfold pair_in_range, in_range. lia. }
    destruct Hp as [[Hu Hv] | Hbad].
    + destruct (addEdge_Ok g0 (fst p) (snd p) Hu Hv)
        as (g1 & H1 & HV1 & Hlen1 & Hedges1 & Hadj1).
      destruct (IH g1) as [(Hall & g & Hg & HV & Hlen & Hedges & Hadj) | (Hex & Herr)].
      * left. split.
        { intros x Hx. apply elem_of_cons in Hx as [-> | Hx].
          - split; assumption.
          - rewrite <- Hlen1. apply Hall. exact Hx. }
        exists g. simpl. rewrite H1. simpl. split; [exact Hg | ].
        split; [congruence | ]. split; [congruence | ]. split.
        { rewrite Hedges, Hedges1, <- app_assoc. destruct p. reflexivity. }
        intros i l Hl. rewrite (Hadj i _ (Hadj1 i l Hl)).
        change (p :: pairs) with ([p] ++ pairs).
        unfold pair_neighbours. rewrite map_app, concat_app. simpl.
        rewrite app_nil_r, app_assoc. destruct p. reflexivity.
      * right. split.
        { destruct Hex as (x & Hx & Hne). exists x.
          split; [right; exact Hx | rewrite <- Hlen1; exact Hne]. }
        simpl. rewrite H1. simpl. exact Herr.
    + right. split; [exists p; split; [left | exact Hbad] | ].
      simpl. rewrite (addEdge_Err g0 (fst p) (snd p) Hbad). reflexivity.
Qed.

(** [Graph g(V)] followed by the [addEdge] calls, for a non-negative
    vertex count. *)
Lemma withEdges_run (V0 : Z) (pairs : list (Z * Z)) :
  0 <= V0 <= INT_MAX ->
  ((forall p, p ∈ pairs -> pair_in_range V0 p) /\
   exists g, withEdges V0 pairs = Ok g /\
     V g = V0 /\ Z.of_nat (length (adj g)) = V0 /\
     edges g = map normalise pairs /\
     forall i, in_range V0 i -> zlookup (adj g) i = Some (pair_neighbours pairs i)) \/
  ((exists p, p ∈ pairs /\ ~ pair_in_range V0 p) /\
   withEdges V0 pairs = Err OutOfBounds).
Proof.
  intros HV. unfold withEdges, Graph_new.
  rewrite (vector_make_Ok V0 ([] : list Z)).
  2: { unfold INT_MAX in HV. unfold PTRDIFF_MAX. lia. }
  simpl.
  set (g0 := mkGraph V0 (replicate (Z.to_nat V0) []) []).
  assert (Hlen0 : Z.of_nat (length (adj g0)) = V0).
  { simpl. rewrite length_replicate. lia. }
  destruct (addEdges_run pairs g0)
    as [(Hall & g & Hg & HVg & Hlen & Hedges & Hadj) | (Hex & Herr)].
  - left. rewrite Hlen0 in Hall. split; [exact Hall | ].
    exists g. split; [exact Hg | ]. split; [exact HVg | ].
    split; [rewrite Hlen; exact Hlen0 | ]. split; [exact Hedges | ].
    intros i Hi. apply (Hadj i []). simpl. apply zlookup_replicate.
    unfold in_range in Hi. lia.
  - right. rewrite Hlen0 in Hex. split; [exact Hex | exact Herr].
Qed.

Lemma withEdges_negative (V0 : Z) (pairs : list (Z * Z)) :
  INT_MIN <= V0 < 0 -> withEdges V0 pairs = Err LengthError.
Proof.
  intros HV. unfold withEdges, Graph_new.
  rewrite (vector_make_negative V0 ([] : list Z) HV). reflexivity.
Qed.

(** X14.  [Graph g(V)] followed by [addEdge] calls succeeds exactly when [V]
    is not negative and every endpoint lies in [[0, V)].  Nothing else is
    checked: [V = 0] and isolated vertices are accepted.  A negative [V] is
    the length error of [adj.resize(V)]; an endpoint out of range is an
    out-of-bounds access in [addEdge], which validates nothing. *)
Theorem withEdges_succeeds_iff (V0 : Z) (pairs : list (Z * Z)) :
  is_int V0 ->
  ((exists g, withEdges V0 pairs = Ok g) <->
   0 <= V0 /\ forall p, p ∈ pairs -> pair_in_range V0 p) /\
  (V0 < 0 -> withEdges V0 pairs = Err LengthError) /\
  (0 <= V0 -> (exists p, p ∈ pairs /\ ~ pair_in_range V0 p) ->
   withEdges V0 pairs = Err OutOfBounds).
Proof.
  intros [Hmin Hmax].
  destruct (Z.lt_ge_cases V0 0) as [Hneg | Hpos].
  - pose proof (withEdges_negative V0 pairs ltac:(lia)) as Herr.
    split; [ | split; [intros _; exact Herr | lia]].
    rewrite Herr. split; [intros (g & Hg); discriminate | lia].
  - destruct (withEdges_run V0 pairs ltac:(lia))
      as [(Hall & g & Hg & _) | ((p & Hp & Hbad) & Herr)].
    + split; [ | split; [lia | ]].
      * split; [intros _; split; [lia | exact Hall] | intros _; exists g; exact Hg].
      * intros _ (p & Hp & Hbad). exfalso. apply Hbad. apply Hall. exact Hp.
    + split; [ | split; [lia | intros _ _; exact Herr]].
      rewrite Herr. split; [intros (g & Hg); discriminate | ].
      intros [_ Hall]. exfalso. apply Hbad. apply Hall. exact Hp.
Qed.

Lemma withEdges_succeeds_iff_witness :
  ((exists g, withEdges 2 [(0, 2)] = Ok g) <->
   0 <= 2 /\ forall p, p ∈ [(0, 2)] -> pair_in_range 2 p) /\
  (2 < 0 -> withEdges 2 [(0, 2)] = Err LengthError) /\
  (0 <= 2 -> (exists p, p ∈ [(0, 2)] /\ ~ pair_in_range 2 p) ->
   withEdges 2 [(0, 2)] = Err OutOfBounds).
Proof.
  apply (withEdges_succeeds_iff 2 [(0, 2)]).
  unfold is_int, INT_MIN, INT_MAX. lia.
Defined.

(** What a successful construction leaves. *)
Lemma withEdges_graph (V0 : Z) (pairs : list (Z * Z)) (g : Graph) :
  is_int V0 ->
  withEdges V0 pairs = Ok g ->
  0 <= V0 <= INT_MAX /\
  (forall p, p ∈ pairs -> pair_in_range V0 p) /\
  V g = V0 /\ Z.of_nat (length (adj g)) = V0 /\
  edges g = map normalise pairs /\
  forall i, in_range V0 i -> zlookup (adj g) i = Some (pair_neighbours pairs i).
Proof.
  intros [Hmin Hmax] Hg.
  destruct (Z.lt_ge_cases V0 0) as [Hneg | Hpos].
  - rewrite withEdges_negative in Hg by lia. discriminate.
  - destruct (withEdges_run V0 pairs ltac:(lia))
      as [(Hall & g' & Hg' & Hrest) | (_ & Herr)]; [ | congruence].
    rewrite Hg in Hg'. injection Hg' as <-.
    split; [lia | ]. split; [exact Hall | exact Hrest].
Qed.

(** X15.  A graph built by [Graph g(V)] and [addEdge] calls keeps [V], stores
    one edge per call, each as [(min, max)] of its endpoints and in call
    order, and lists [b] in [adj[a]] exactly when some call joined [a] and
    [b]. *)
Theorem withEdges_structure (V0 : Z) (pairs : list (Z * Z)) (g : Graph) :
  is_int V0 ->
  withEdges V0 pairs = Ok g ->
  V g = V0 /\
  edges g = map normalise pairs /\
  (forall e, e ∈ edges g -> eu e <= ev e) /\
  forall a, in_range V0 a ->
    exists l, zlookup (adj g) a = Some l /\
      forall b, b ∈ l <-> exists p, p ∈ pairs /\ pair_joins p a b.
Proof.
  intros Hint Hg.
  destruct (withEdges_graph V0 pairs g Hint Hg) as (_ & _ & HV & _ & Hedges & Hadj).
  split; [exact HV | ]. split; [exact Hedges | ]. split.
  - intros e He. rewrite Hedges in He.
    apply list_elem_of_fmap in He as (p & -> & _). unfold normalise. simpl. lia.
  - intros a Ha. exists (pair_neighbours pairs a).
    split; [apply Hadj; exact Ha | ]. intros b. apply pair_neighbours_elem.
Qed.

Lemma withEdges_structure_witness :
  V triangle = 3 /\
  edges triangle = map normalise [(0, 1); (1, 2); (2, 0)] /\
  (forall e, e ∈ edges triangle -> eu e <= ev e) /\
  forall a, in_range 3 a ->
    exists l, zlookup (adj triangle) a = Some l /\
      forall b, b ∈ l <-> exists p, p ∈ [(0, 1); (1, 2); (2, 0)] /\ pair_joins p a b.
Proof.
  apply (withEdges_structure 3 [(0, 1); (1, 2); (2, 0)] triangle).
  - unfold is_int, INT_MIN, INT_MAX. lia.
  - reflexivity.
Defined.

(** ** Isolated vertices *)

Lemma any_isolated_spec (a : list (list Z)) (range : list Z) :
  (forall i, i ∈ range -> in_range (Z.of_nat (length a)) i) ->
  exists b, any_isolated a range = Ok b /\
    (b = true <-> exists i, i ∈ range /\ zlookup a i = Some []).
Proof.
  induction range as [ | i range IH]; intros Hr.
  - exists false. split; [reflexivity | ]. split; [discriminate | ].
    intros (i & Hi & _). inversion Hi.
  - destruct (vget_in_range a i) as (ai & Hget & Hai); [apply Hr; left | ].
    simpl. rewrite Hget. simpl. destruct ai as [ | x ai].
    + exists true. split; [reflexivity | ]. split; [ | reflexivity].
      intros _. exists i. split; [left | exact Hai].
    + destruct IH as (b & Hb & Hiff); [intros j Hj; apply Hr; right; exact Hj | ].
      exists b. split; [exact Hb | ]. rewrite Hiff. split.
      * intros (j & Hj & Hnil). exists j. split; [right; exact Hj | exact Hnil].
      * intros (j & Hj & Hnil). apply elem_of_cons in Hj as [-> | Hj].
        -- congruence.
        -- exists j. split; assumption.
Qed.

Lemma pair_neighbours_nil_iff (pairs : list (Z * Z)) (i : Z) :
  pair_neighbours pairs i = [] <->
  forall p, p ∈ pairs -> fst p <> i /\ snd p <> i.
Proof.
  split.
  - intros Hnil p Hp.
    assert (Hno : forall x, ~ pair_joins p i x).
    { intros x Hx.
      assert (Hin : x ∈ pair_neighbours pairs i).
      { apply pair_neighbours_elem. exists p. split; assumption. }
      rewrite Hnil in Hin. inversion Hin. }
    split; intros Heq.
    + apply (Hno (snd p)). left. split; [exact Heq | reflexivity].
    + apply (Hno (fst p)). right. split; [exact Heq | reflexivity].
  - intros Hno. destruct (pair_neighbours pairs i) as [ | x l] eqn:E; [reflexivity | ].
    assert (Hx : x ∈ pair_neighbours pairs i) by (rewrite E; left).
    apply pair_neighbours_elem in Hx as (p & Hp & [[Hu _] | [Hv _]]);
      destruct (Hno p Hp); contradiction.
Qed.

(** X16.  On a graph built by [Graph g(V)] and [addEdge] calls,
    [hasIsolatedVertices] returns [true] exactly when some vertex in
    [[0, V)] is an endpoint of none of the calls. *)
Theorem hasIsolatedVertices_iff (V0 : Z) (pairs : list (Z * Z)) (g : Graph) :
  is_int V0 ->
  withEdges V0 pairs = Ok g ->
  exists b, hasIsolatedVertices g = Ok b /\
    (b = true <->
     exists i, in_range V0 i /\ forall p, p ∈ pairs -> fst p <> i /\ snd p <> i).
Proof.
  intros Hint Hg.
  destruct (withEdges_graph V0 pairs g Hint Hg) as (_ & _ & HV & Hlen & _ & Hadj).
  unfold hasIsolatedVertices. rewrite HV.
  destruct (any_isolated_spec (adj g) (upto V0)) as (b & Hb & Hiff).
  { intros i Hi. rewrite Hlen. apply elem_of_upto. exact Hi. }
  exists b. split; [exact Hb | ]. rewrite Hiff. split.
  - intros (i & Hi & Hnil). apply elem_of_upto in Hi. exists i. split; [exact Hi | ].
    apply pair_neighbours_nil_iff. rewrite (Hadj i Hi) in Hnil. congruence.
  - intros (i & Hi & Hno). exists i. split; [apply elem_of_upto; exact Hi | ].
    rewrite (Hadj i Hi). f_equal. apply pair_neighbours_nil_iff. exact Hno.
Qed.

Lemma hasIsolatedVertices_iff_witness :
  exists b, hasIsolatedVertices triangle = Ok b /\
    (b = true <->
     exists i, in_range 3 i /\
       forall p, p ∈ [(0, 1); (1, 2); (2, 0)] -> fst p <> i /\ snd p <> i).
Proof.
  apply (hasIsolatedVertices_iff 3 [(0, 1); (1, 2); (2, 0)] triangle).
  - unfold is_int, INT_MIN, INT_MAX. lia.
  - reflexivity.
Defined.

(** ** The depth-first search *)

Lemma withEdges_symmetric (V0 : Z) (pairs : list (Z * Z)) (g : Graph) :
  is_int V0 -> withEdges V0 pairs = Ok g -> symmetric_graph g.
Proof.
  intros Hint Hg.
  destruct (withEdges_well_formed V0 pairs g Hint Hg) as [Hwf HV].
  destruct (withEdges_graph V0 pairs g Hint Hg) as (_ & Hall & _ & Hlen & _ & Hadj).
  split; [exact Hwf | ].
  intros a l b Ha Hb.
  assert (Har : in_range V0 a).
  { pose proof (zlookup_Some_range _ _ _ Ha). unfold in_range. lia. }
  rewrite (Hadj a Har) in Ha. injection Ha as <-.
  apply pair_neighbours_elem in Hb as (p & Hp & Hj).
  assert (Hbr : in_range V0 b).
  { destruct (Hall p Hp) as [H1 H2]. destruct Hj as [[_ <-] | [_ <-]]; assumption. }
  exists (pair_neighbours pairs b). split; [apply Hadj; exact Hbr | ].
  apply pair_neighbours_elem. exists p. split; [exact Hp | ].
  destruct Hj as [[H1 H2] | [H1 H2]]; [right | left]; split; assumption.
Qed.

Lemma marked_insert (used : list bool) (to i : Z) :
  0 <= to < Z.of_nat (length used) ->
  marked (<[Z.to_nat to := true]> used) i <-> i = to \/ marked used i.
Proof.
  intros Hto. unfold marked. rewrite zlookup_insert by exact Hto.
  destruct (decide (i = to)); [tauto | ]. tauto.
Qed.

Lemma marked_dec (used : list bool) (i : Z) : marked used i \/ ~ marked used i.
Proof.
  unfold marked. destruct (zlookup used i) as [[ | ] | ].
  - left. reflexivity.
  - right. discriminate.
  - right. discriminate.
Qed.

(** Pairing [to] with [v], as [match[to] = v; match[v] = to;] does. *)
Lemma pair_up (g : Graph) (match_ : list Z) (v to : Z) (adj_v : list Z) :
  symmetric_graph g ->
  in_range (V g) v -> in_range (V g) to ->
  zlookup (adj g) v = Some adj_v -> to ∈ adj_v ->
  match_in_range (V g) match_ -> match_adjacent g match_ ->
  let m2 := <[Z.to_nat v := to]> (<[Z.to_nat to := v]> match_) in
  match_in_range (V g) m2 /\ match_adjacent g m2 /\
  (forall i, matched match_ i -> matched m2 i) /\
  zlookup m2 v = Some to.
Proof.
  intros [Hwf Hsym] Hv Hto Hadj Hin Hm Hma. pose proof Hm as [Hml Hmr].
  unfold in_range in Hv, Hto. intros m2.
  assert (Hm2 : forall i, zlookup m2 i =
            if decide (i = v) then Some to
            else if decide (i = to) then Some v else zlookup match_ i).
  { intros i. unfold m2. rewrite zlookup_insert by (rewrite length_insert; lia).
    destruct (decide (i = v)); [reflexivity | ].
    rewrite zlookup_insert by lia. reflexivity. }
  split; [ | split; [ | split]].
  - unfold m2. apply match_in_range_insert; [ | exact Hv | exact Hto].
    apply match_in_range_insert; [exact Hm | exact Hto | exact Hv].
  - intros i m. rewrite Hm2.
    destruct (decide (i = v)) as [-> | Hiv].
    { intros H _. injection H as <-. exists adj_v. split; assumption. }
    destruct (decide (i = to)) as [-> | Hit].
    { intros H _. injection H as <-. exact (Hsym v adj_v to Hadj Hin). }
    apply Hma.
  - intros i (m & Hi & Hne). unfold matched. rewrite Hm2.
    destruct (decide (i = v)); [exists to; split; [reflexivity | lia] | ].
    destruct (decide (i = to)); [exists v; split; [reflexivity | lia] | ].
    exists m. split; assumption.
  - rewrite Hm2. destruct (decide (v = v)); [reflexivity | congruence].
Qed.

(** The loop of [dfs], given what the recursive call does whenever fewer
    than [bound] vertices are unmarked. *)
Lemma dfs_loop_effect (g : Graph) (bound : nat)
    (rec : Z -> list Z -> list bool -> res (bool * list Z * list bool))
    (v : Z) (adj_v : list Z) :
  symmetric_graph g ->
  (forall w m u, in_range (V g) w -> dfs_inv (V g) m u -> match_adjacent g m ->
     (count_false u < bound)%nat ->
     exists l, zlookup (adj g) w = Some l /\ dfs_effect g w l m u (rec w m u)) ->
  in_range (V g) v ->
  zlookup (adj g) v = Some adj_v ->
  forall tos, (forall to, to ∈ tos -> to ∈ adj_v) ->
  forall match_ used, dfs_inv (V g) match_ used -> match_adjacent g match_ ->
    (count_false used <= bound)%nat ->
    dfs_effect g v tos match_ used (dfs_loop rec v tos match_ used).
Proof.
  intros Hg Hrec Hv Hadj. pose proof Hg as [(HV & Hlen & Hrange) Hsym].
  induction tos as [ | to tos IH]; intros Htos match_ used Hinv Hma Hbound.
  - exists false, match_, used. split; [reflexivity | ]. split; [exact Hinv | ].
    split; [lia | ]. split; [exact Hma | ]. split; [auto | ]. split; [auto | ].
    split; [ | discriminate].
    intros _. split; [reflexivity | ]. split; [intros to Hto; inversion Hto | ].
    intros i Hi Hni. contradiction.
  - assert (Hin : to ∈ adj_v) by (apply Htos; left).
    assert (Hto : in_range (V g) to) by exact (Hrange v adj_v to Hadj Hin).
    assert (Htos' : forall t, t ∈ tos -> t ∈ adj_v)
      by (intros t Ht; apply Htos; right; exact Ht).
    destruct Hinv as [Hm Hul]. pose proof Hm as [Hml Hmr].
    unfold in_range in Hto, Hv. simpl.
    destruct (vget_in_range used to) as (b0 & Hget & Hb0); [lia | ].
    rewrite Hget. simpl. destruct b0.
    { destruct (IH Htos' match_ used (conj Hm Hul) Hma Hbound)
        as (b & m' & u' & Hr & Hinv' & Hc & Hma' & Hmono & Hkeep & Hfalse & Htrue).
      exists b, m', u'. repeat (split; [assumption | ]). split.
      - intros Hb. destruct (Hfalse Hb) as (Heq & Hall & Hnew).
        split; [exact Heq | ]. split; [ | exact Hnew].
        intros t Ht. apply elem_of_cons in Ht as [-> | Ht]; [ | auto].
        apply Hmono. exact Hb0.
      - intros Hb. destruct (Htrue Hb) as (t & Ht & Hvt).
        exists t. split; [right; exact Ht | exact Hvt]. }
    rewrite vset_in_range by lia. simpl.
    destruct (vget_in_range match_ to) as (mto & Hgm & Hmto); [lia | ].
    rewrite Hgm. simpl.
    pose proof (count_false_mark_lt used to Hb0) as Hlt.
    set (used1 := <[Z.to_nat to := true]> used) in *.
    assert (Hul1 : Z.of_nat (length used1) = V g).
    { unfold used1. rewrite length_insert. exact Hul. }
    assert (Hmark1 : forall i, marked used1 i <-> i = to \/ marked used i).
    { intros i. apply marked_insert. lia. }
    destruct (Z.eqb_spec mto (-1)) as [-> | Hne].
    + rewrite vset_in_range by lia. simpl.
      rewrite vset_in_range by (rewrite length_insert; lia). simpl.
      destruct (pair_up g match_ v to adj_v Hg) as (Hm2 & Hma2 & Hkeep2 & Hv2);
        try assumption; try (unfold in_range; lia).
      eexists true, _, used1. split; [reflexivity | ].
      split; [split; assumption | ]. split; [lia | ]. split; [exact Hma2 | ].
      split; [intros i Hi; apply Hmark1; right; exact Hi | ].
      split; [exact Hkeep2 | ]. split; [discriminate | ].
      intros _. exists to. split; [left | exact Hv2].
    + destruct (Hmr to mto Hmto) as [? | Hmtor]; [contradiction | ].
      destruct (Hrec mto match_ used1 Hmtor) as (lw & _ & Heff);
        [split; assumption | exact Hma | lia | ].
      destruct Heff
        as (b1 & m1 & u2 & Hr & [Hm1 Hul2] & Hc1 & Hma1 & Hmono1 & Hkeep1 & Hfalse1 & _).
      rewrite Hr. simpl. pose proof Hm1 as [Hml1 _]. destruct b1.
      * rewrite vset_in_range by lia. simpl.
        rewrite vset_in_range by (rewrite length_insert; lia). simpl.
        destruct (pair_up g m1 v to adj_v Hg) as (Hm2 & Hma2 & Hkeep2 & Hv2);
          try assumption; try (unfold in_range; lia).
        eexists true, _, u2. split; [reflexivity | ].
        split; [split; assumption | ]. split; [lia | ]. split; [exact Hma2 | ].
        split; [intros i Hi; apply Hmono1; apply Hmark1; right; exact Hi | ].
        split; [intros i Hi; apply Hkeep2; apply Hkeep1; exact Hi | ].
        split; [discriminate | ].
        intros _. exists to. split; [left | exact Hv2].
      * destruct (Hfalse1 eq_refl) as (-> & _ & Hnew1).
        destruct (IH Htos' match_ u2 (conj Hm1 Hul2) Hma ltac:(lia))
          as (b & m' & u' & Hr' & Hinv' & Hc & Hma' & Hmono & Hkeep & Hfalse & Htrue).
        exists b, m', u'. split; [exact Hr' | ]. split; [exact Hinv' | ].
        split; [lia | ]. split; [exact Hma' | ].
        split; [intros i Hi; apply Hmono; apply Hmono1; apply Hmark1; right; exact Hi | ].
        split; [exact Hkeep | ]. split.
        -- intros Hb. destruct (Hfalse Hb) as (Heq & Hall & Hnew).
           split; [exact Heq | ]. split.
           ++ intros t Ht. apply elem_of_cons in Ht as [-> | Ht]; [ | auto].
              apply Hmono. apply Hmono1. apply Hmark1. left. reflexivity.
           ++ intros i Hi Hni.
              destruct (marked_dec u2 i) as [Hu2 | Hu2]; [ | exact (Hnew i Hi Hu2)].
              destruct (marked_dec used1 i) as [Hu1 | Hu1]; [ | exact (Hnew1 i Hu2 Hu1)].
              apply Hmark1 in Hu1 as [-> | Hu1]; [ | contradiction].
              exists mto. split; assumption.
        -- intros Hb. destruct (Htrue Hb) as (t & Ht & Hvt).
           exists t. split; [right; exact Ht | exact Hvt].
Qed.

(** What [dfs] does, for a budget above the number of unmarked vertices. *)
Lemma dfs_effect_within (g : Graph) (fuel : nat) :
  symmetric_graph g ->
  forall v match_ used, in_range (V g) v -> dfs_inv (V g) match_ used ->
    match_adjacent g match_ ->
    (count_false used < fuel)%nat ->
    exists l, zlookup (adj g) v = Some l /\
      dfs_effect g v l match_ used (dfs fuel g v match_ used).
Proof.
  intros Hg. pose proof Hg as [(HV & Hlen & Hrange) _].
  induction fuel as [ | fuel IH]; intros v match_ used Hv Hinv Hma Hfuel; [lia | ].
  destruct (vget_in_range (adj g) v) as (l & Hget & Hl).
  { unfold in_range in Hv. lia. }
  exists l. split; [exact Hl | ]. simpl. rewrite Hget. simpl.
  apply (dfs_loop_effect g fuel (dfs fuel g) v l Hg); try assumption.
  - auto.
  - lia.
Qed.

(** The state in which [findMaxMatching] starts: nothing matched, nothing
    marked. *)
Lemma initial_state (g : Graph) (nv : Z) :
  0 <= nv ->
  dfs_inv nv (replicate (Z.to_nat nv) (-1)) (replicate (Z.to_nat nv) false) /\
  match_adjacent g (replicate (Z.to_nat nv) (-1)) /\
  (forall i, ~ marked (replicate (Z.to_nat nv) false) i).
Proof.
  intros Hnv.
  assert (Hall : forall i m, zlookup (replicate (Z.to_nat nv) (-1)) i = Some m -> m = -1).
  { intros i m Hm. pose proof (zlookup_Some_range _ _ _ Hm) as Hr.
    rewrite length_replicate in Hr. rewrite zlookup_replicate in Hm by lia. congruence. }
  split; [split; [split | ] | split].
  - rewrite length_replicate. lia.
  - intros i m Hm. left. exact (Hall i m Hm).
  - rewrite length_replicate. lia.
  - intros i m Hm Hne. exfalso. apply Hne. exact (Hall i m Hm).
  - intros i Hi. unfold marked in Hi.
    pose proof (zlookup_Some_range _ _ _ Hi) as Hr.
    rewrite length_replicate in Hr. rewrite zlookup_replicate in Hi by lia. discriminate.
Qed.

(** X17.  One call of [dfs] on a graph built by [addEdge] calls.  When it
    returns [false] it has left [match] as it was; when it returns [true] it
    has matched [v] to a vertex that some call joined to [v].  In both cases
    every vertex that was matched is still matched, every defined [match[i]]
    is still a neighbour of [i], and no mark in [used] has been removed. *)
Theorem dfs_outcome (V0 : Z) (pairs : list (Z * Z)) (g : Graph) (fuel : nat)
    (v : Z) (match_ : list Z) (used : list bool) :
  is_int V0 ->
  withEdges V0 pairs = Ok g ->
  in_range V0 v ->
  dfs_inv V0 match_ used ->
  match_adjacent g match_ ->
  (count_false used < fuel)%nat ->
  exists b match' used',
    dfs fuel g v match_ used = Ok (b, match', used') /\
    (b = false -> match' = match_) /\
    (b = true -> exists to p,
       p ∈ pairs /\ pair_joins p v to /\ zlookup match' v = Some to) /\
    (forall i, matched match_ i -> matched match' i) /\
    match_adjacent g match' /\
    (forall i, marked used i -> marked used' i).
Proof.
  intros Hint Hg Hv Hinv Hma Hfuel.
  pose proof (withEdges_symmetric V0 pairs g Hint Hg) as Hsym.
  destruct (withEdges_graph V0 pairs g Hint Hg) as (_ & _ & HV & _ & _ & Hadj).
  rewrite <- HV in Hv, Hinv.
  destruct (dfs_effect_within g fuel Hsym v match_ used Hv Hinv Hma Hfuel)
    as (l & Hl & b & m' & u' & Hr & _ & _ & Hma' & Hmono & Hkeep & Hfalse & Htrue).
  exists b, m', u'. split; [exact Hr | ]. split; [ | split].
  - intros Hb. apply (Hfalse Hb).
  - intros Hb. destruct (Htrue Hb) as (to & Hto & Hvto).
    rewrite HV in Hv. rewrite (Hadj v Hv) in Hl. injection Hl as <-.
    apply pair_neighbours_elem in Hto as (p & Hp & Hj).
    exists to, p. repeat (split; [assumption | ]). exact Hvto.
  - repeat (split; [assumption | ]). exact Hmono.
Qed.

Lemma dfs_outcome_witness :
  exists b match' used',
    dfs 4 triangle 0 (replicate (Z.to_nat 3) (-1)) (replicate (Z.to_nat 3) false) =
      Ok (b, match', used') /\
    (b = false -> match' = replicate (Z.to_nat 3) (-1)) /\
    (b = true -> exists to p,
       p ∈ [(0, 1); (1, 2); (2, 0)] /\ pair_joins p 0 to /\
       zlookup match' 0 = Some to) /\
    (forall i, matched (replicate (Z.to_nat 3) (-1)) i -> matched match' i) /\
    match_adjacent triangle match' /\
    (forall i, marked (replicate (Z.to_nat 3) false) i -> marked used' i).
Proof.
  apply (dfs_outcome 3 [(0, 1); (1, 2); (2, 0)] triangle 4 0).
  - unfold is_int, INT_MIN, INT_MAX. lia.
  - reflexivity.
  - unfold in_range. lia.
  - apply (initial_state triangle 3). lia.
  - apply (initial_state triangle 3). lia.
  - simpl. lia.
Defined.

(** The run of [findMaxMatching]: every vertex handled is matched or has
    all its neighbours matched. *)
Lemma findMaxMatching_run (g : Graph) (fuel : nat) :
  symmetric_graph g ->
  V g < Z.of_nat fuel ->
  exists match_, findMaxMatching fuel g = Ok match_ /\
    match_in_range (V g) match_ /\ match_adjacent g match_ /\
    forall v, in_range (V g) v ->
      matched match_ v \/
      forall l to, zlookup (adj g) v = Some l -> to ∈ l -> matched match_ to.
Proof.
  intros Hg Hfuel. pose proof Hg as [(HV & Hlen & Hrange) _].
  unfold findMaxMatching.
  rewrite (vector_make_Ok (V g) (-1)) by exact HV. simpl.
  destruct (initial_state g (V g) ltac:(lia)) as ([Hm0 Hu0] & Hma0 & Hnone).
  destruct (foldM_total
    (fun pre m =>
       match_in_range (V g) m /\ match_adjacent g m /\
       forall v, v ∈ pre ->
         matched m v \/
         forall l to, zlookup (adj g) v = Some l -> to ∈ l -> matched m to)
    (kuhn_step fuel g) (upto (V g)) (replicate (Z.to_nat (V g)) (-1)))
    as (m & Hrun & Hm & Hma & Hall).
  - split; [exact Hm0 | ]. split; [exact Hma0 | ]. intros v Hv. inversion Hv.
  - intros pre v post m Hl (Hm & Hma & Hall).
    assert (Hv : in_range (V g) v).
    { apply elem_of_upto. rewrite Hl. apply elem_of_app. right. left. }
    pose proof Hm as [Hml _]. unfold kuhn_step.
    destruct (vget_in_range m v) as (mv & Hget & Hmv); [unfold in_range in Hv; lia | ].
    rewrite Hget. simpl. destruct (Z.eqb_spec mv (-1)) as [-> | Hne].
    + rewrite (vector_make_Ok (V g) false) by exact HV. simpl.
      destruct (dfs_effect_within g fuel Hg v m (replicate (Z.to_nat (V g)) false))
        as (l & Hl' & b & m' & u' & Hr & [Hm' _] & _ & Hma' & _ & Hkeep & Hfalse & Htrue).
      * exact Hv.
      * split; [exact Hm | exact Hu0].
      * exact Hma.
      * rewrite count_false_replicate_false. lia.
      * rewrite Hr. simpl. exists m'. split; [reflexivity | ].
        split; [exact Hm' | ]. split; [exact Hma' | ].
        intros w Hw. apply elem_of_app in Hw as [Hw | Hw].
        -- destruct (Hall w Hw) as [H | H]; [left; apply Hkeep; exact H | ].
           right. intros l0 to Hl0 Hto. apply Hkeep. exact (H l0 to Hl0 Hto).
        -- apply list_elem_of_singleton in Hw as ->. destruct b.
           ++ left. destruct (Htrue eq_refl) as (to & Hto & Hvto).
              exists to. split; [exact Hvto | ].
              pose proof (Hrange v l to Hl' Hto) as Hr'. unfold in_range in Hr'. lia.
           ++ right. destruct (Hfalse eq_refl) as (-> & Hmarked & Hnew).
              intros l0 to Hl0 Hto. rewrite Hl' in Hl0. injection Hl0 as <-.
              apply Hnew; [apply Hmarked; exact Hto | apply Hnone].
    + exists m. split; [reflexivity | ]. split; [exact Hm | ]. split; [exact Hma | ].
      intros w Hw. apply elem_of_app in Hw as [Hw | Hw]; [auto | ].
      apply list_elem_of_singleton in Hw as ->. left. exists mv. split; assumption.
  - exists m. split; [exact Hrun | ]. split; [exact Hm | ]. split; [exact Hma | ].
    intros v Hv. apply Hall. apply elem_of_upto. exact Hv.
Qed.

(** X18.  [findMaxMatching] of main.cpp on a graph built by [addEdge] calls
    returns a [match] array whose entries are [-1] or vertices, in which
    every defined [match[i]] was joined to [i] by some call, and which leaves
    no call with both endpoints unmatched. *)
Theorem findMaxMatching_kuhn_outcome (V0 : Z) (pairs : list (Z * Z))
    (g : Graph) (fuel : nat) :
  is_int V0 ->
  withEdges V0 pairs = Ok g ->
  V0 < Z.of_nat fuel ->
  exists match_, findMaxMatching fuel g = Ok match_ /\
    match_in_range V0 match_ /\
    (forall i m, zlookup match_ i = Some m -> m <> -1 ->
       exists p, p ∈ pairs /\ pair_joins p i m) /\
    (forall p, p ∈ pairs -> matched match_ (fst p) \/ matched match_ (snd p)).
Proof.
  intros Hint Hg Hfuel.
  pose proof (withEdges_symmetric V0 pairs g Hint Hg) as Hsym.
  destruct (withEdges_graph V0 pairs g Hint Hg) as (_ & Hall & HV & _ & _ & Hadj).
  destruct (findMaxMatching_run g fuel Hsym) as (m & Hrun & Hm & Hma & Hmax).
  { rewrite HV. exact Hfuel. }
  rewrite HV in Hm, Hmax.
  exists m. split; [exact Hrun | ]. split; [exact Hm | ]. split.
  - intros i mi Hi Hne. destruct (Hma i mi Hi Hne) as (l & Hl & Hin).
    assert (Hir : in_range V0 i).
    { destruct Hm as [Hml _]. pose proof (zlookup_Some_range _ _ _ Hi).
      unfold in_range. lia. }
    rewrite (Hadj i Hir) in Hl. injection Hl as <-.
    apply pair_neighbours_elem. exact Hin.
  - intros p Hp. destruct (Hall p Hp) as [Hu Hv'].
    destruct (Hmax (fst p) Hu) as [H | H]; [left; exact H | right].
    apply (H _ (snd p) (Hadj (fst p) Hu)).
    apply pair_neighbours_elem. exists p. split; [exact Hp | ].
    left. split; reflexivity.
Qed.

Lemma findMaxMatching_kuhn_outcome_witness :
  exists match_, findMaxMatching 4 triangle = Ok match_ /\
    match_in_range 3 match_ /\
    (forall i m, zlookup match_ i = Some m -> m <> -1 ->
       exists p, p ∈ [(0, 1); (1, 2); (2, 0)] /\ pair_joins p i m) /\
    (forall p, p ∈ [(0, 1); (1, 2); (2, 0)] ->
       matched match_ (fst p) \/ matched match_ (snd p)).
Proof.
  apply (findMaxMatching_kuhn_outcome 3 [(0, 1); (1, 2); (2, 0)] triangle 4).
  - unfold is_int, INT_MIN, INT_MAX. lia.
  - reflexivity.
  - lia.
Defined.

(** ** The cover *)

Lemma elem_of_set_insert (e x : Edge) (s : list Edge) :
  x ∈ set_insert e s <-> x = e \/ x ∈ s.
Proof.
  induction s as [ | a s IH]; simpl.
  - rewrite list_elem_of_singleton, elem_of_nil. tauto.
  - destruct (Edge_lt_cases e a) as [[H1 H2] | [[H1 H2] | (H1 & H2 & ->)]];
      rewrite H1, ?H2.
    + rewrite !elem_of_cons. tauto.
    + rewrite !elem_of_cons, IH. tauto.
    + rewrite !elem_of_cons. tauto.
Qed.

Lemma set_insert_sorted (e : Edge) (s : list Edge) :
  strictly_sorted s -> strictly_sorted (set_insert e s).
Proof.
  induction s as [ | a s IH]; simpl.
  - intros _. split; [intros b Hb; inversion Hb | exact I].
  - intros [Ha Hs].
    destruct (Edge_lt_cases e a) as [[H1 H2] | [[H1 H2] | (H1 & H2 & ->)]];
      rewrite H1, ?H2.
    + simpl. split; [ | split; assumption].
      intros b Hb. apply elem_of_cons in Hb as [-> | Hb]; [exact H1 | ].
      apply (Edge_lt_trans e a b H1). apply Ha. exact Hb.
    + simpl. split; [ | apply IH; exact Hs].
      intros b Hb. apply elem_of_set_insert in Hb as [-> | Hb]; [exact H2 | ].
      apply Ha. exact Hb.
    + simpl. split; assumption.
Qed.

Lemma normalise_joins (p : Z * Z) (a b : Z) :
  pair_joins p a b -> normalise p = mkEdge (Z.min a b) (Z.max a b).
Proof.
  unfold pair_joins, normalise. intros [[<- <-] | [<- <-]].
  - reflexivity.
  - rewrite Z.min_comm, Z.max_comm. reflexivity.
Qed.

Section Cover.
Variables (V0 : Z) (pairs : list (Z * Z)) (g : Graph).
Hypothesis HV : V g = V0.
Hypothesis Hedges : edges g = map normalise pairs.
Hypothesis Hadj : forall i, in_range V0 i ->
  zlookup (adj g) i = Some (pair_neighbours pairs i).
Hypothesis Hpairs : forall p, p ∈ pairs -> pair_in_range V0 p.

Lemma stored_edge (a b : Z) :
  in_range V0 a -> b ∈ pair_neighbours pairs a ->
  mkEdge (Z.min a b) (Z.max a b) ∈ edges g /\ in_range V0 b.
Proof.
  intros Ha Hb. apply pair_neighbours_elem in Hb as (p & Hp & Hj).
  split.
  - rewrite Hedges, <- (normalise_joins p a b Hj).
    apply list_elem_of_fmap. exists p. split; [reflexivity | exact Hp].
  - destruct (Hpairs p Hp) as [H1 H2]. destruct Hj as [[_ <-] | [_ <-]]; assumption.
Qed.

(** Inserting an edge and flagging its two endpoints. *)
Lemma cover_inv_insert (st : list Edge * list bool) (a b : Z) :
  cover_inv g st -> in_range V0 a -> in_range V0 b ->
  mkEdge (Z.min a b) (Z.max a b) ∈ edges g ->
  cover_inv g (set_insert (mkEdge (Z.min a b) (Z.max a b)) (fst st),
               <[Z.to_nat b := true]> (<[Z.to_nat a := true]> (snd st))) /\
  (forall i, marked (snd st) i \/ i = a \/ i = b ->
     marked (<[Z.to_nat b := true]> (<[Z.to_nat a := true]> (snd st))) i).
Proof.
  intros (Hlen & Hsorted & Hsub & Hcov) Ha Hb Hin.
  unfold in_range in Ha, Hb. rewrite <- HV in Ha, Hb.
  assert (Hmark : forall i,
            marked (<[Z.to_nat b := true]> (<[Z.to_nat a := true]> (snd st))) i <->
            i = b \/ i = a \/ marked (snd st) i).
  { intros i. rewrite marked_insert by (rewrite length_insert; lia).
    rewrite marked_insert by lia. tauto. }
  split.
  - unfold cover_inv. simpl. split; [rewrite !length_insert; exact Hlen | ].
    split; [apply set_insert_sorted; exact Hsorted | ]. split.
    + intros e He. apply elem_of_set_insert in He as [-> | He]; [exact Hin | auto].
    + intros i Hi. apply Hmark in Hi as [-> | [-> | Hi]].
      * eexists. split; [apply elem_of_set_insert; left; reflexivity | ].
        unfold touches. simpl. lia.
      * eexists. split; [apply elem_of_set_insert; left; reflexivity | ].
        unfold touches. simpl. lia.
      * destruct (Hcov i Hi) as (e & He & Ht).
        exists e. split; [apply elem_of_set_insert; right; exact He | exact Ht].
  - intros i Hi. apply Hmark. tauto.
Qed.

(** Step 2: one edge per vertex [v] with [v < match[v]]. *)
Lemma add_matched_spec (match_ : list Z) (st : list Edge * list bool) (v : Z) :
  match_in_range V0 match_ -> match_adjacent g match_ ->
  in_range V0 v -> cover_inv g st ->
  exists st', add_matched match_ st v = Ok st' /\ cover_inv g st' /\
    forall i, marked (snd st) i -> marked (snd st') i.
Proof.
  intros [Hml Hmr] Hma Hv Hinv. pose proof Hinv as (Hlen & _).
  unfold add_matched.
  destruct (vget_in_range match_ v) as (mv & Hget & Hmv); [unfold in_range in Hv; lia | ].
  rewrite Hget. simpl.
  destruct (negb (mv =? -1) && (v <? mv)) eqn:E.
  - apply andb_true_iff in E as [E1 E2]. apply negb_true_iff, Z.eqb_neq in E1.
    apply Z.ltb_lt in E2.
    destruct (Hmr v mv Hmv) as [? | Hmvr]; [contradiction | ].
    destruct (Hma v mv Hmv E1) as (l & Hl & Hin).
    rewrite (Hadj v Hv) in Hl. injection Hl as <-.
    destruct (stored_edge v mv Hv Hin) as [Hstored _].
    rewrite Z.min_l, Z.max_r in Hstored by lia.
    destruct (cover_inv_insert st v mv Hinv Hv Hmvr) as [Hinv' Hmono].
    { rewrite Z.min_l, Z.max_r by lia. exact Hstored. }
    rewrite Z.min_l, Z.max_r in Hinv' by lia.
    unfold in_range in Hv, Hmvr.
    rewrite vset_in_range by lia. simpl.
    rewrite vset_in_range by (rewrite length_insert; lia). simpl.
    eexists. split; [reflexivity | ]. split; [exact Hinv' | ].
    intros i Hi. apply Hmono. left. exact Hi.
  - exists st. split; [reflexivity | ]. split; [exact Hinv | auto].
Qed.

(** Step 3: the first neighbour of each vertex still uncovered. *)
Lemma add_incident_spec (st : list Edge * list bool) (v : Z) :
  in_range V0 v -> pair_neighbours pairs v <> [] -> cover_inv g st ->
  exists st', add_incident g st v = Ok st' /\ cover_inv g st' /\
    (forall i, marked (snd st) i -> marked (snd st') i) /\
    marked (snd st') v.
Proof.
  intros Hv Hne Hinv. pose proof Hinv as (Hlen & _).
  unfold add_incident.
  destruct (vget_in_range (snd st) v) as (cv & Hget & Hcv).
  { unfold in_range in Hv. lia. }
  rewrite Hget. simpl. destruct cv.
  { exists st. split; [reflexivity | ]. split; [exact Hinv | ]. split; [auto | exact Hcv]. }
  rewrite (proj2 (vget_Ok _ _ _) (Hadj v Hv)). simpl.
  destruct (pair_neighbours pairs v) as [ | u l] eqn:E; [contradiction | ].
  assert (Hu : u ∈ pair_neighbours pairs v) by (rewrite E; left).
  destruct (stored_edge v u Hv Hu) as [Hstored Hur].
  destruct (cover_inv_insert st v u Hinv Hv Hur Hstored) as [Hinv' Hmono].
  change (vget (u :: l) 0) with (Ok u). simpl.
  unfold in_range in Hv, Hur.
  rewrite vset_in_range by lia. simpl.
  rewrite vset_in_range by (rewrite length_insert; lia). simpl.
  eexists. split; [reflexivity | ]. split; [exact Hinv' | ]. split.
  - intros i Hi. apply Hmono. left. exact Hi.
  - apply Hmono. right. left. reflexivity.
Qed.

End Cover.

(** The run of [findMinEdgeCover]. *)
Lemma findMinEdgeCover_run (V0 : Z) (pairs : list (Z * Z)) (g : Graph)
    (fuel : nat) :
  is_int V0 ->
  withEdges V0 pairs = Ok g ->
  V0 < Z.of_nat fuel ->
  exists cover, findMinEdgeCover fuel g = Ok cover /\
    strictly_sorted cover /\
    (forall e, e ∈ cover -> e ∈ edges g) /\
    ((exists i, in_range V0 i /\ pair_neighbours pairs i = []) -> cover = []) /\
    ((forall i, in_range V0 i -> pair_neighbours pairs i <> []) ->
     forall i, in_range V0 i -> exists e, e ∈ cover /\ touches e i).
Proof.
  intros Hint Hg Hfuel.
  pose proof (withEdges_symmetric V0 pairs g Hint Hg) as Hsym.
  destruct (withEdges_graph V0 pairs g Hint Hg)
    as (HV0 & Hpairs & HV & Hlen & Hedges & Hadj).
  unfold findMinEdgeCover, hasIsolatedVertices. rewrite HV.
  destruct (any_isolated_spec (adj g) (upto V0)) as (b & Hb & Hiff).
  { intros i Hi. rewrite Hlen. apply elem_of_upto. exact Hi. }
  rewrite Hb. simpl. destruct b.
  - exists []. split; [reflexivity | ]. split; [exact I | ].
    split; [intros e He; inversion He | ]. split; [reflexivity | ].
    intros Hno. exfalso. destruct (proj1 Hiff eq_refl) as (i & Hi & Hnil).
    apply elem_of_upto in Hi. apply (Hno i Hi).
    rewrite (Hadj i Hi) in Hnil. congruence.
  - assert (Hno : forall i, in_range V0 i -> pair_neighbours pairs i <> []).
    { intros i Hi Hnil.
      assert (false = true); [ | discriminate].
      apply Hiff. exists i. split; [apply elem_of_upto; exact Hi | ].
      rewrite (Hadj i Hi), Hnil. reflexivity. }
    destruct (findMaxMatching_run g fuel Hsym) as (m & Hrun & Hm & Hma & _).
    { rewrite HV. exact Hfuel. }
    rewrite HV in Hm. rewrite Hrun. simpl.
    rewrite (vector_make_Ok V0 false).
    2: { unfold INT_MAX in HV0. unfold PTRDIFF_MAX. lia. }
    simpl.
    destruct (foldM_total (fun _ st => cover_inv g st)
                (add_matched m) (upto V0) ([], replicate (Z.to_nat V0) false))
      as (st1 & Hst1 & Hinv1).
    { unfold cover_inv. simpl. rewrite length_replicate.
      split; [lia | ]. split; [exact I | ]. split; [intros e He; inversion He | ].
      intros i Hi. exfalso. exact (proj2 (proj2 (initial_state g V0 ltac:(lia))) i Hi). }
    { intros pre v post st Hl Hinv.
      destruct (add_matched_spec V0 pairs g HV Hedges Hadj Hpairs m st v)
        as (st' & Hst' & Hinv' & _); try assumption.
      - apply elem_of_upto. rewrite Hl. apply elem_of_app. right. left.
      - exists st'. split; assumption. }
    rewrite Hst1. simpl.
    destruct (foldM_total
                (fun pre st => cover_inv g st /\ forall i, i ∈ pre -> marked (snd st) i)
                (add_incident g) (upto V0) st1)
      as (st2 & Hst2 & Hinv2 & Hall).
    { split; [exact Hinv1 | ]. intros i Hi. inversion Hi. }
    { intros pre v post st Hl [Hinv Hdone].
      assert (Hv : in_range V0 v).
      { apply elem_of_upto. rewrite Hl. apply elem_of_app. right. left. }
      destruct (add_incident_spec V0 pairs g HV Hedges Hadj Hpairs st v Hv (Hno v Hv) Hinv)
        as (st' & Hst' & Hinv' & Hmono & Hmarked).
      exists st'. split; [exact Hst' | ]. split; [exact Hinv' | ].
      intros i Hi. apply elem_of_app in Hi as [Hi | Hi]; [apply Hmono; auto | ].
      apply list_elem_of_singleton in Hi as ->. exact Hmarked. }
    rewrite Hst2. simpl. destruct Hinv2 as (_ & Hsorted & Hsub & Hcov).
    exists (fst st2). split; [reflexivity | ]. split; [exact Hsorted | ].
    split; [exact Hsub | ]. split.
    + intros (i & Hi & Hnil). exfalso. exact (Hno i Hi Hnil).
    + intros _ i Hi. apply Hcov. apply Hall. apply elem_of_upto. exact Hi.
Qed.

(** X19.  [findMinEdgeCover] on a graph built by [addEdge] calls: when some
    vertex is an endpoint of no call it returns the empty set; when every
    vertex is an endpoint of some call, every vertex is an endpoint of an
    edge of the set returned. *)
Theorem findMinEdgeCover_covers (V0 : Z) (pairs : list (Z * Z)) (g : Graph)
    (fuel : nat) :
  is_int V0 ->
  withEdges V0 pairs = Ok g ->
  V0 < Z.of_nat fuel ->
  exists cover, findMinEdgeCover fuel g = Ok cover /\
    ((exists i, in_range V0 i /\ forall p, p ∈ pairs -> fst p <> i /\ snd p <> i) ->
     cover = []) /\
    ((forall i, in_range V0 i -> exists p, p ∈ pairs /\ (fst p = i \/ snd p = i)) ->
     forall i, in_range V0 i -> exists e, e ∈ cover /\ touches e i).
Proof.
  intros Hint Hg Hfuel.
  destruct (findMinEdgeCover_run V0 pairs g fuel Hint Hg Hfuel)
    as (cover & Hrun & _ & _ & Hiso & Hcov).
  exists cover. split; [exact Hrun | ]. split.
  - intros (i & Hi & Hno). apply Hiso. exists i. split; [exact Hi | ].
    apply pair_neighbours_nil_iff. exact Hno.
  - intros Hall. apply Hcov. intros i Hi Hnil.
    destruct (Hall i Hi) as (p & Hp & Hor).
    destruct (proj1 (pair_neighbours_nil_iff pairs i) Hnil p Hp) as [H1 H2].
    destruct Hor; contradiction.
Qed.

Lemma findMinEdgeCover_covers_witness :
  exists cover, findMinEdgeCover 4 triangle = Ok cover /\
    ((exists i, in_range 3 i /\
        forall p, p ∈ [(0, 1); (1, 2); (2, 0)] -> fst p <> i /\ snd p <> i) ->
     cover = []) /\
    ((forall i, in_range 3 i ->
        exists p, p ∈ [(0, 1); (1, 2); (2, 0)] /\ (fst p = i \/ snd p = i)) ->
     forall i, in_range 3 i -> exists e, e ∈ cover /\ touches e i).
Proof.
  apply (findMinEdgeCover_covers 3 [(0, 1); (1, 2); (2, 0)] triangle 4).
  - unfold is_int, INT_MIN, INT_MAX. lia.
  - reflexivity.
  - lia.
Defined.

Lemma strictly_sorted_NoDup (l : list Edge) : strictly_sorted l -> NoDup l.
Proof.
  induction l as [ | a l IH]; simpl; intros H; [constructor | ].
  destruct H as [Ha Hl]. constructor; [ | apply IH; exact Hl].
  intros Hin. specialize (Ha a Hin).
  destruct (Edge_lt_cases a a) as [[H1 H2] | [[H1 H2] | (H1 & _)]]; congruence.
Qed.

(** X20.  The set that [findMinEdgeCover] returns is strictly increasing for
    [Edge::operator<], hence without repetition, and each of its edges is an
    edge stored in the graph: the [(min, max)] form of the endpoints of some
    [addEdge] call. *)
Theorem findMinEdgeCover_sorted_graph_edges (V0 : Z) (pairs : list (Z * Z))
    (g : Graph) (fuel : nat) :
  is_int V0 ->
  withEdges V0 pairs = Ok g ->
  V0 < Z.of_nat fuel ->
  exists cover, findMinEdgeCover fuel g = Ok cover /\
    strictly_sorted cover /\ NoDup cover /\
    forall e, e ∈ cover ->
      e ∈ edges g /\ eu e <= ev e /\ exists p, p ∈ pairs /\ e = normalise p.
Proof.
  intros Hint Hg Hfuel.
  destruct (findMinEdgeCover_run V0 pairs g fuel Hint Hg Hfuel)
    as (cover & Hrun & Hsorted & Hsub & _).
  destruct (withEdges_graph V0 pairs g Hint Hg) as (_ & _ & _ & _ & Hedges & _).
  exists cover. split; [exact Hrun | ]. split; [exact Hsorted | ].
  split; [apply strictly_sorted_NoDup; exact Hsorted | ].
  intros e He. pose proof (Hsub e He) as Hin. split; [exact Hin | ].
  rewrite Hedges in Hin. apply list_elem_of_fmap in Hin as (p & -> & Hp).
  split; [unfold normalise; simpl; lia | ].
  exists p. split; [exact Hp | reflexivity].
Qed.

Lemma findMinEdgeCover_sorted_graph_edges_witness :
  exists cover, findMinEdgeCover 4 triangle = Ok cover /\
    strictly_sorted cover /\ NoDup cover /\
    forall e, e ∈ cover ->
      e ∈ edges triangle /\ eu e <= ev e /\
      exists p, p ∈ [(0, 1); (1, 2); (2, 0)] /\ e = normalise p.
Proof.
  apply (findMinEdgeCover_sorted_graph_edges 3 [(0, 1); (1, 2); (2, 0)] triangle 4).
  - unfold is_int, INT_MIN, INT_MAX. lia.
  - reflexivity.
  - lia.
Defined.

(** ** Bipartite graphs *)

Lemma bool_other (x y z : bool) : x <> y -> y <> z -> x = z.
Proof. destruct x, y, z; congruence. Qed.

Section Bipartite.
Variables (g : Graph) (c : Z -> bool).
Hypothesis Hbip : bipartite g c.

(** The two writes [match[to] = v; match[v] = to;]. *)
Lemma paired_lookup (m0 m1 m2 : list Z) (v to : Z) :
  vset m0 to v = Ok m1 -> vset m1 v to = Ok m2 ->
  forall i, zlookup m2 i =
    if decide (i = v) then Some to
    else if decide (i = to) then Some v else zlookup m0 i.
Proof.
  intros H1 H2 i. apply vset_Ok in H1 as [Hto ->]. apply vset_Ok in H2 as [Hv ->].
  rewrite zlookup_insert by exact Hv.
  destruct (decide (i = v)); [reflexivity | ].
  rewrite zlookup_insert by exact Hto. reflexivity.
Qed.

Lemma dfs_loop_bip
    (rec : Z -> list Z -> list bool -> res (bool * list Z * list bool))
    (v : Z) (adj_v : list Z) :
  (forall w m u r, rec w m u = Ok r -> bip_pre g c w m u -> bip_post c w m u r) ->
  zlookup (adj g) v = Some adj_v ->
  forall tos, (forall to, to ∈ tos -> to ∈ adj_v) ->
  forall match_ used r,
    dfs_loop rec v tos match_ used = Ok r ->
    bip_pre g c v match_ used -> bip_post c v match_ used r.
Proof.
  intros Hrec Hadj. induction tos as [ | to tos IH]; intros Htos match_ used r Hrun Hpre.
  { simpl in Hrun. injection Hrun as <-. unfold bip_post. simpl.
    split; [auto | ]. split; [auto | ]. split; [reflexivity | discriminate]. }
  assert (Hin : to ∈ adj_v) by (apply Htos; left).
  assert (Htos' : forall t, t ∈ tos -> t ∈ adj_v)
    by (intros t Ht; apply Htos; right; exact Ht).
  assert (Hcto : c v <> c to) by exact (Hbip v adj_v to Hadj Hin).
  assert (Htv : to <> v) by (intros ->; congruence).
  destruct Hpre as (Hsym & Hma & HU & HP).
  simpl in Hrun. bind_inv_as Hrun b0 Hb0. apply vget_Ok in Hb0. destruct b0.
  { apply (IH Htos' match_ used r Hrun). repeat split; assumption. }
  bind_inv_as Hrun used1 Hu1. apply vset_Ok in Hu1 as [Hto_range ->].
  set (used1 := <[Z.to_nat to := true]> used) in *.
  assert (Hmark1 : forall i, marked used1 i <-> i = to \/ marked used i).
  { intros i. apply marked_insert. exact Hto_range. }
  assert (Hnot : ~ marked used to) by (unfold marked; congruence).
  assert (Hto0 : to <> -1) by lia.
  bind_inv_as Hrun mto Hmto. apply vget_Ok in Hmto.
  destruct (Z.eqb_spec mto (-1)) as [-> | Hne].
  - (* [to] is free *)
    bind_inv_as Hrun m1 Hm1. bind_inv_as Hrun m2 Hm2. injection Hrun as <-.
    pose proof (paired_lookup _ _ _ _ _ Hm1 Hm2) as Hlook.
    unfold bip_post. simpl.
    split; [intros i Hi; apply Hmark1; right; exact Hi | ].
    split.
    { intros i Hi. apply Hmark1 in Hi as [-> | Hi]; [right; congruence | left; exact Hi]. }
    split; [discriminate | ]. intros _. split; [ | split].
    + intros i m Hnp. rewrite Hlook.
      destruct (decide (i = v)) as [-> | Hiv].
      { intros H _. injection H as <-. rewrite Hlook.
        destruct (decide (to = v)); [contradiction | ].
        destruct (decide (to = to)); [reflexivity | congruence]. }
      destruct (decide (i = to)) as [-> | Hit].
      { intros H _. injection H as <-. rewrite Hlook.
        destruct (decide (v = v)); [reflexivity | congruence]. }
      intros Hi Hm. pose proof (Hsym i m Hi Hm) as Hback. rewrite Hlook.
      destruct (decide (m = v)) as [-> | Hmv]; [congruence | ].
      destruct (decide (m = to)) as [-> | Hmt]; [ | exact Hback].
      rewrite Hmto in Hback. injection Hback as Hi'.
      pose proof (zlookup_Some_range _ _ _ Hi). lia.
    + exists to. rewrite Hlook. destruct (decide (v = v)); [ | congruence].
      split; [reflexivity | ]. split; assumption.
    + intros i [Hiv Hk]. rewrite Hlook.
      destruct (decide (i = v)); [contradiction | ].
      destruct (decide (i = to)) as [-> | ]; [ | reflexivity].
      destruct Hk as [Hk | [Hk _]]; [contradiction | congruence].
  - (* [to] is matched to [w] *)
    set (w := mto) in *.
    destruct (Hma to w Hmto Hne) as (lto & Hlto & Hw).
    assert (Hcw : c w = c v).
    { symmetry. apply (bool_other (c v) (c to) (c w)); [exact Hcto | ].
      exact (Hbip to lto w Hlto Hw). }
    assert (Hwto : zlookup match_ w = Some to) by exact (Hsym to w Hmto Hne).
    assert (Hwt : w <> to) by (intros Heq; rewrite Heq in Hcw; congruence).
    assert (Hwv : w <> v).
    { intros Heq. rewrite Heq in Hwto. destruct (HP to Hwto); contradiction. }
    assert (Hprew : bip_pre g c w match_ used1).
    { split; [exact Hsym | ]. split; [exact Hma | ]. split.
      - intros i Hi. rewrite Hcw. apply Hmark1 in Hi as [-> | Hi]; [congruence | auto].
      - intros p Hp. rewrite Hwto in Hp. injection Hp as <-.
        right. apply Hmark1. left. reflexivity. }
    bind_inv_as Hrun r1 Hr1.
    pose proof (Hrec w match_ used1 r1 Hr1 Hprew) as Hpost1.
    destruct r1 as [[b1 m1] u2]. unfold bip_post in Hpost1. simpl in Hpost1, Hrun.
    destruct Hpost1 as (Hmono1 & Hnew1 & Hfalse1 & Htrue1).
    destruct b1.
    + (* the search from [w] succeeded *)
      destruct (Htrue1 eq_refl) as (Ha1 & (t' & Ht' & _ & Ht'n) & Hc1).
      bind_inv_as Hrun m1' Hm1'. bind_inv_as Hrun m2 Hm2. injection Hrun as <-.
      pose proof (paired_lookup _ _ _ _ _ Hm1' Hm2) as Hlook.
      assert (Hkept_to : zlookup m1 to = Some w).
      { rewrite <- Hmto. apply Hc1. split; [congruence | ].
        left. apply Hmark1. left. reflexivity. }
      assert (Hkept_v : zlookup m1 v = zlookup match_ v).
      { apply Hc1. split; [congruence | ]. right. split; [congruence | ].
        intros m Hm. destruct (HP m Hm) as [-> | Hm']; [left; reflexivity | ].
        right. apply Hmark1. right. exact Hm'. }
      unfold bip_post. simpl.
      split; [intros i Hi; apply Hmono1; apply Hmark1; right; exact Hi | ].
      split.
      { intros i Hi. destruct (Hnew1 i Hi) as [H1 | H1].
        - apply Hmark1 in H1 as [-> | H1]; [right; congruence | left; exact H1].
        - right. rewrite <- Hcw. exact H1. }
      split; [discriminate | ]. intros _. split; [ | split].
      * intros i m Hnp. rewrite Hlook.
        destruct (decide (i = v)) as [-> | Hiv].
        { intros H _. injection H as <-. rewrite Hlook.
          destruct (decide (to = v)); [contradiction | ].
          destruct (decide (to = to)); [reflexivity | congruence]. }
        destruct (decide (i = to)) as [-> | Hit].
        { intros H _. injection H as <-. rewrite Hlook.
          destruct (decide (v = v)); [reflexivity | congruence]. }
        intros Hi Hm.
        assert (Hback : zlookup m1 m = Some i).
        { apply Ha1; [rewrite Hwto; congruence | exact Hi | exact Hm]. }
        rewrite Hlook.
        destruct (decide (m = v)) as [-> | Hmv].
        { exfalso. apply Hnp. rewrite <- Hkept_v. exact Hback. }
        destruct (decide (m = to)) as [-> | Hmt]; [ | exact Hback].
        exfalso. rewrite Hkept_to in Hback. injection Hback as <-.
        rewrite Ht' in Hi. injection Hi as ->.
        apply Ht'n. apply Hmark1. left. reflexivity.
      * exists to. rewrite Hlook. destruct (decide (v = v)); [ | congruence].
        split; [reflexivity | ]. split; assumption.
      * intros i [Hiv Hk]. rewrite Hlook.
        destruct (decide (i = v)); [contradiction | ].
        destruct (decide (i = to)) as [-> | Hit].
        { destruct Hk as [Hk | [Hk _]]; [contradiction | congruence]. }
        apply Hc1. split.
        -- intros ->. destruct Hk as [Hk | [_ Hk]].
           ++ apply (HU w Hk). exact Hcw.
           ++ destruct (Hk to Hwto); contradiction.
        -- destruct Hk as [Hk | [Hk1 Hk2]].
           ++ left. apply Hmark1. right. exact Hk.
           ++ right. split; [congruence | ].
              intros m Hm. destruct (Hk2 m Hm) as [-> | Hm']; [left; reflexivity | ].
              right. apply Hmark1. right. exact Hm'.
    + (* the search from [w] failed: [match] is untouched *)
      pose proof (Hfalse1 eq_refl) as ->.
      assert (Hpre2 : bip_pre g c v match_ u2).
      { split; [exact Hsym | ]. split; [exact Hma | ]. split.
        - intros i Hi. destruct (Hnew1 i Hi) as [H1 | H1].
          + apply Hmark1 in H1 as [-> | H1]; [congruence | auto].
          + rewrite <- Hcw. exact H1.
        - intros p Hp. destruct (HP p Hp) as [-> | Hp']; [left; reflexivity | ].
          right. apply Hmono1. apply Hmark1. right. exact Hp'. }
      pose proof (IH Htos' match_ u2 r Hrun Hpre2) as Hpost.
      destruct r as [[b m'] u']. unfold bip_post in *. simpl in *.
      destruct Hpost as (Hmono & Hnew & Hfalse & Htrue).
      assert (Hup : forall i, marked used i -> marked u2 i).
      { intros i Hi. apply Hmono1. apply Hmark1. right. exact Hi. }
      split; [intros i Hi; apply Hmono; apply Hup; exact Hi | ].
      split.
      { intros i Hi. destruct (Hnew i Hi) as [H2 | H2]; [ | right; exact H2].
        destruct (Hnew1 i H2) as [H1 | H1].
        - apply Hmark1 in H1 as [-> | H1]; [right; congruence | left; exact H1].
        - right. rewrite <- Hcw. exact H1. }
      split; [exact Hfalse | ].
      intros Hb. destruct (Htrue Hb) as (Ha & (t & Ht & Ht0 & Htn) & Hc).
      split; [exact Ha | ]. split.
      * exists t. split; [exact Ht | ]. split; [exact Ht0 | ].
        intros Hmt. apply Htn. apply Hup. exact Hmt.
      * intros i [Hiv Hk]. apply Hc. split; [exact Hiv | ].
        destruct Hk as [Hk | [Hk1 Hk2]]; [left; apply Hup; exact Hk | ].
        right. split; [exact Hk1 | ].
        intros m Hm. destruct (Hk2 m Hm) as [-> | Hm']; [left; reflexivity | ].
        right. apply Hup. exact Hm'.
Qed.

Lemma dfs_bip (fuel : nat) :
  forall v match_ used r,
    dfs fuel g v match_ used = Ok r ->
    bip_pre g c v match_ used -> bip_post c v match_ used r.
Proof.
  induction fuel as [ | fuel IH]; intros v match_ used r Hrun Hpre; [discriminate | ].
  simpl in Hrun. bind_inv_as Hrun adj_v Hadj. apply vget_Ok in Hadj.
  apply (dfs_loop_bip (dfs fuel g) v adj_v IH Hadj adj_v); auto.
Qed.

End Bipartite.

(** The run of [findMaxMatching] on a bipartite graph keeps [match]
    symmetric from one vertex to the next. *)
Lemma findMaxMatching_bip_run (g : Graph) (c : Z -> bool) (fuel : nat) :
  symmetric_graph g -> bipartite g c ->
  V g < Z.of_nat fuel ->
  exists match_, findMaxMatching fuel g = Ok match_ /\
    match_in_range (V g) match_ /\ match_adjacent g match_ /\
    fully_symmetric match_.
Proof.
  intros Hg Hbip Hfuel. pose proof Hg as [(HV & Hlen & Hrange) _].
  unfold findMaxMatching.
  rewrite (vector_make_Ok (V g) (-1)) by exact HV. simpl.
  destruct (initial_state g (V g) ltac:(lia)) as ([Hm0 Hu0] & Hma0 & Hnone).
  apply (foldM_total
    (fun _ m => match_in_range (V g) m /\ match_adjacent g m /\ fully_symmetric m)).
  - split; [exact Hm0 | ]. split; [exact Hma0 | ].
    intros i m Hi Hne. exfalso.
    pose proof (zlookup_Some_range _ _ _ Hi) as Hr.
    rewrite length_replicate in Hr. rewrite zlookup_replicate in Hi by lia. congruence.
  - intros pre v post m Hl (Hm & Hma & Hsym).
    assert (Hv : in_range (V g) v).
    { apply elem_of_upto. rewrite Hl. apply elem_of_app. right. left. }
    pose proof Hm as [Hml _]. unfold kuhn_step.
    destruct (vget_in_range m v) as (mv & Hget & Hmv); [unfold in_range in Hv; lia | ].
    rewrite Hget. simpl. destruct (Z.eqb_spec mv (-1)) as [-> | Hne].
    + rewrite (vector_make_Ok (V g) false) by exact HV. simpl.
      destruct (dfs_effect_within g fuel Hg v m (replicate (Z.to_nat (V g)) false))
        as (l & Hl' & b & m' & u' & Hr & [Hm' _] & _ & Hma' & _).
      * exact Hv.
      * split; [exact Hm | exact Hu0].
      * exact Hma.
      * rewrite count_false_replicate_false. lia.
      * rewrite Hr. simpl. exists m'. split; [reflexivity | ].
        split; [exact Hm' | ]. split; [exact Hma' | ].
        assert (Hpost : bip_post c v m (replicate (Z.to_nat (V g)) false) (b, m', u')).
        { apply (dfs_bip g c Hbip fuel v m _ _ Hr).
          split; [exact Hsym | ]. split; [exact Hma | ]. split.
          - intros i Hi. exfalso. exact (Hnone i Hi).
          - intros p Hp. left. congruence. }
        destruct Hpost as (_ & _ & Hfalse & Htrue). simpl in Hfalse, Htrue.
        destruct b; [ | rewrite (Hfalse eq_refl); exact Hsym].
        destruct (Htrue eq_refl) as (Ha & _ & _).
        intros i mi Hi Hmi. apply (Ha i mi); [ | exact Hi | exact Hmi].
        rewrite Hmv. intros Heq. injection Heq as <-.
        pose proof (zlookup_Some_range _ _ _ Hi). lia.
    + exists m. split; [reflexivity | ]. split; [exact Hm | ]. split; assumption.
Qed.

(** X21.  On a bipartite graph (each [addEdge] call joins vertices of
    different colours) [findMaxMatching] of main.cpp returns a valid
    matching: [match[match[i]] == i] for every matched [i], no vertex is
    matched to itself, and every matched pair was joined by some call. *)
Theorem findMaxMatching_bipartite_symmetric (V0 : Z) (pairs : list (Z * Z))
    (g : Graph) (c : Z -> bool) (fuel : nat) :
  is_int V0 ->
  withEdges V0 pairs = Ok g ->
  (forall p, p ∈ pairs -> c (fst p) <> c (snd p)) ->
  V0 < Z.of_nat fuel ->
  exists match_, findMaxMatching fuel g = Ok match_ /\
    symmetric_match V0 match_ /\
    forall i m, zlookup match_ i = Some m -> m <> -1 ->
      m <> i /\ exists p, p ∈ pairs /\ pair_joins p i m.
Proof.
  intros Hint Hg Hcol Hfuel.
  pose proof (withEdges_symmetric V0 pairs g Hint Hg) as Hsym.
  destruct (withEdges_graph V0 pairs g Hint Hg) as (_ & _ & HV & Hlen & _ & Hadj).
  assert (Hbip : bipartite g c).
  { intros a l b Ha Hb.
    assert (Har : in_range V0 a).
    { pose proof (zlookup_Some_range _ _ _ Ha). unfold in_range. lia. }
    rewrite (Hadj a Har) in Ha. injection Ha as <-.
    apply pair_neighbours_elem in Hb as (p & Hp & [[<- <-] | [<- <-]]).
    - apply Hcol. exact Hp.
    - intros Heq. apply (Hcol p Hp). congruence. }
  destruct (findMaxMatching_bip_run g c fuel Hsym Hbip) as (m & Hrun & Hm & Hma & Hs).
  { rewrite HV. exact Hfuel. }
  exists m. split; [exact Hrun | ]. split.
  - intros i mi _ Hi Hne. exact (Hs i mi Hi Hne).
  - intros i mi Hi Hne. destruct (Hma i mi Hi Hne) as (l & Hl & Hin). split.
    + intros ->. exact (Hbip i l i Hl Hin eq_refl).
    + assert (Hir : in_range V0 i).
      { destruct Hm as [Hml _]. rewrite HV in Hml.
        pose proof (zlookup_Some_range _ _ _ Hi). unfold in_range. lia. }
      rewrite (Hadj i Hir) in Hl. injection Hl as <-.
      apply pair_neighbours_elem. exact Hin.
Qed.

Lemma findMaxMatching_bipartite_symmetric_witness :
  exists match_,
    findMaxMatching 4 (mkGraph 3 [[1]; [0; 2]; [1]] [mkEdge 0 1; mkEdge 1 2]) =
      Ok match_ /\
    symmetric_match 3 match_ /\
    forall i m, zlookup match_ i = Some m -> m <> -1 ->
      m <> i /\ exists p, p ∈ [(0, 1); (1, 2)] /\ pair_joins p i m.
Proof.
  apply (findMaxMatching_bipartite_symmetric 3 [(0, 1); (1, 2)]
           (mkGraph 3 [[1]; [0; 2]; [1]] [mkEdge 0 1; mkEdge 1 2]) Z.even 4).
  - unfold is_int, INT_MIN, INT_MAX. lia.
  - reflexivity.
  - intros p Hp.
    repeat (apply elem_of_cons in Hp as [-> | Hp]; [simpl; discriminate | ]).
    inversion Hp.
  - lia.
Defined.

End MainProperties.
